(** * Obituary reconciliation: the name matcher, the fetchers, the
      schedulers and the checkpoint store

    A shallow embedding of [filter-results.py], [main.py],
    [main-parallel.py] and [main-test.py].  Python strings are sequences of Unicode code
    points; the Unicode tables the code reaches through the standard
    library (compatibility decomposition, case mapping, decimal digits)
    are parameters of the sections that use them. *)

From Stdlib Require Import ZArith NArith String Ascii List Lia Bool Sorted
  DecimalString.
From stdpp Require Import base option list strings gmap fin_maps.

Local Open Scope Z_scope.

(** ** Python [str] primitives *)

Module Py.

(** A [str] is a list of code points. *)
Definition ustring : Type := list N.

(** An ASCII literal of the source as a [str]. *)
Definition u (s : string) : ustring :=
  List.map N_of_ascii (list_ascii_of_string s).

Definition ch_space : N := 32%N.
Definition ch_hyphen : N := 45%N.
Definition ch_period : N := 46%N.
Definition ch_slash : N := 47%N.

(** [c.isspace()]: the code points [str.strip] removes and [\s] matches. *)
Definition isspace (c : N) : bool :=
  ((9 <=? c) && (c <=? 13) || (28 <=? c) && (c <=? 32)
   || (c =? 133) || (c =? 160) || (c =? 5760)
   || (8192 <=? c) && (c <=? 8202)
   || (c =? 8232) || (c =? 8233) || (c =? 8239) || (c =? 8287)
   || (c =? 12288))%N.

(** [s.lstrip()], [s.rstrip()], [s.strip()]. *)
Fixpoint lstrip (s : ustring) : ustring :=
  match s with
  | c :: s' => if isspace c then lstrip s' else s
  | [] => []
  end.

Definition rstrip (s : ustring) : ustring := rev (lstrip (rev s)).

Definition strip (s : ustring) : ustring := rstrip (lstrip s).

(** [s.lower()] on a string of ASCII characters. *)
Definition lower_ascii_char (c : N) : N :=
  if ((65 <=? c) && (c <=? 90))%N then (c + 32)%N else c.

Definition lower_ascii (s : ustring) : ustring := List.map lower_ascii_char s.

(** [c in s] for a one-character [c]. *)
Definition has_char (c : N) (s : ustring) : bool :=
  existsb (N.eqb c) s.

(** [s.startswith(p)]. *)
Fixpoint startswith (p s : ustring) : bool :=
  match p, s with
  | [], _ => true
  | a :: p', b :: s' => (a =? b)%N && startswith p' s'
  | _ :: _, [] => false
  end.

(** [p in s] for a substring [p]. *)
Fixpoint contains (p s : ustring) : bool :=
  startswith p s ||
  match s with
  | [] => false
  | _ :: s' => contains p s'
  end.

(** [s.split(sep)] for a one-character separator: every occurrence
    splits, empty fields are kept. *)
Fixpoint split_go (sep : N) (cur : ustring) (s : ustring) : list ustring :=
  match s with
  | [] => [rev cur]
  | c :: s' =>
      if (c =? sep)%N then rev cur :: split_go sep [] s'
      else split_go sep (c :: cur) s'
  end.

Definition split (sep : N) (s : ustring) : list ustring := split_go sep [] s.

(** [l[-1]] of a list; [None] is Python's [IndexError]. *)
Definition last_item {A} (l : list A) : option A := last l.

(** [s.replace(a, b)] for one-character [a] and [b]. *)
Definition replace (a b : N) (s : ustring) : ustring :=
  List.map (fun c => if (c =? a)%N then b else c) s.

(** [sep.join(parts)]. *)
Fixpoint join (sep : ustring) (parts : list ustring) : ustring :=
  match parts with
  | [] => []
  | [p] => p
  | p :: ps => p ++ sep ++ join sep ps
  end.

(** [re.split(r'[CLASS]+', s)]: a maximal run of characters of the class
    is one separator; a run at either end leaves an empty field there. *)
Fixpoint re_split_go (cls : N -> bool) (cur : ustring) (in_run : bool)
    (s : ustring) : list ustring :=
  match s with
  | [] => [rev cur]
  | c :: s' =>
      if cls c then
        if in_run then re_split_go cls [] true s'
        else rev cur :: re_split_go cls [] true s'
      else re_split_go cls (c :: cur) false s'
  end.

Definition re_split (cls : N -> bool) (s : ustring) : list ustring :=
  re_split_go cls [] false s.

(** [s.encode('ascii', 'ignore').decode('ascii')]. *)
Definition ascii_ignore (s : ustring) : ustring :=
  List.filter (fun c => (c <? 128)%N) s.

(** [d.get(key, '')] on a dict of strings. *)
Definition get (d : gmap string ustring) (key : string) : ustring :=
  default [] (d !! key).

End Py.

(** ** filter-results.py: [NameMatcher] *)

Module FilterResults.
Import Py.

Section NameMatcher.

(** [unicodedata.normalize('NFKD', _)]. *)
Variable nfkd : ustring -> ustring.

Definition suffixes : list ustring :=
  List.map u ["jr"; "sr"; "ii"; "iii"; "iv"; "v"; "md"; "phd"; "rn"; "np"; "pa"]%string.

Definition prefixes : list ustring :=
  List.map u ["dr"; "mr"; "mrs"; "ms"; "miss"]%string.

(** The character class of [r'[.\s-]+']. *)
Definition name_sep (c : N) : bool :=
  (c =? ch_period)%N || isspace c || (c =? ch_hyphen)%N.

Definition normalize_name (name : ustring) : ustring :=
  match name with
  | [] => []
  | _ =>
      let name := ascii_ignore (nfkd name) in
      let name := strip (lower_ascii name) in
      let parts := re_split name_sep name in
      let parts :=
        List.filter
          (fun p => negb (bool_decide (p = []))
                    && negb (bool_decide (p ∈ suffixes ++ prefixes)))
          parts in
      join (u " ") parts
  end.

(** The de-duplication loop of [get_name_variations]. *)
Fixpoint unique_go (seen : gset (ustring * ustring))
    (variations : list (ustring * ustring)) : list (ustring * ustring) :=
  match variations with
  | [] => []
  | var :: rest =>
      if bool_decide (var ∈ seen) then unique_go seen rest
      else var :: unique_go ({[var]} ∪ seen) rest
  end.

Definition get_name_variations (first_name last_name : ustring)
    : list (ustring * ustring) :=
  let norm_first := normalize_name first_name in
  let norm_last := normalize_name last_name in
  let variations : list (ustring * ustring) := [] in
  let variations :=
    if has_char ch_hyphen norm_first then
      let first_parts := split ch_hyphen norm_first in
      (variations ++ List.map (fun part => (part, norm_last)) first_parts)
        ++ [(replace ch_hyphen ch_space norm_first, norm_last)]
    else variations in
  let variations :=
    if has_char ch_hyphen norm_last then
      let last_parts := split ch_hyphen norm_last in
      (variations ++ List.map (fun part => (norm_first, part)) last_parts)
        ++ [(norm_first, replace ch_hyphen ch_space norm_last)]
    else variations in
  let variations :=
    if has_char ch_hyphen norm_first && has_char ch_hyphen norm_last then
      let first_parts := split ch_hyphen norm_first in
      let last_parts := split ch_hyphen norm_last in
      variations
        ++ List.concat
             (List.map (fun fp => List.map (fun lp => (fp, lp)) last_parts)
                first_parts)
    else variations in
  let variations := variations ++ [(norm_first, norm_last)] in
  unique_go ∅ variations.

(** The nested loops of [check_name_match]: the first license variation,
    in order, that equals some variation of the obituary name. *)
Fixpoint first_equal (license_variations obit_variations : list (ustring * ustring))
    : option (ustring * ustring) :=
  match license_variations with
  | [] => None
  | (lic_first, lic_last) :: rest =>
      if existsb
           (fun o => bool_decide (lic_first = o.1) && bool_decide (lic_last = o.2))
           obit_variations
      then Some (lic_first, lic_last)
      else first_equal rest obit_variations
  end.

(** [f"{label}: {lic_first} {lic_last}"]. *)
Definition match_reason (label : string) (lic : ustring * ustring) : ustring :=
  u label ++ u ": " ++ lic.1 ++ u " " ++ lic.2.

Definition no_match_reason (license_first license_last obit_first obit_last : ustring)
    : ustring :=
  u "No match found. License: " ++ license_first ++ u " " ++ license_last
    ++ u ", Obit: " ++ obit_first ++ u " " ++ obit_last.

Definition check_name_match (license_first license_last : ustring)
    (obit_name_obj : gmap string ustring) : bool * ustring :=
  if bool_decide (obit_name_obj = ∅) then (false, u "No name object")
  else
    let obit_first := get obit_name_obj "firstName" in
    let obit_last := get obit_name_obj "lastName" in
    let obit_middle := get obit_name_obj "middleName" in
    let obit_nick := get obit_name_obj "nickName" in
    let obit_maiden := get obit_name_obj "maidenName" in
    let license_variations := get_name_variations license_first license_last in
    let obit_variations := get_name_variations obit_first obit_last in
    match first_equal license_variations obit_variations with
    | Some lic => (true, match_reason "Exact match" lic)
    | None =>
    match
      (if bool_decide (obit_middle = []) then None
       else first_equal license_variations
              (get_name_variations obit_middle obit_last))
    with
    | Some lic => (true, match_reason "Middle name match" lic)
    | None =>
    match
      (if bool_decide (obit_nick = []) then None
       else first_equal license_variations
              (get_name_variations obit_nick obit_last))
    with
    | Some lic => (true, match_reason "Nickname match" lic)
    | None =>
    match
      (if bool_decide (obit_maiden = []) then None
       else first_equal license_variations
              (get_name_variations obit_first obit_maiden))
    with
    | Some lic => (true, match_reason "Maiden name match" lic)
    | None =>
        (false, no_match_reason license_first license_last obit_first obit_last)
    end end end end.

End NameMatcher.

(** A decomposition table for examples: the identity on ASCII, and base
    letter plus combining mark for a few accented Latin letters. *)
Definition nfkd_char (c : N) : ustring :=
  (if c =? 225 then [97; 769]        (* a acute *)
   else if c =? 233 then [101; 769]  (* e acute *)
   else if c =? 237 then [105; 769]  (* i acute *)
   else if c =? 241 then [110; 771]  (* n tilde *)
   else if c =? 243 then [111; 769]  (* o acute *)
   else if c =? 252 then [117; 776]  (* u diaeresis *)
   else [c])%N.

Definition nfkd_latin (s : ustring) : ustring := List.concat (List.map nfkd_char s).

End FilterResults.

(** ** The checkpoint store: [save_progress] and [load_progress]

    The two functions are the same text in [main.py] and
    [main-parallel.py]. *)

Module Checkpoint.
Import Py.

(** The JSON values a progress document holds. *)
Inductive json : Type :=
  | JInt (z : Z)
  | JStr (s : ustring)
  | JBool (b : bool).

#[global] Instance json_eq_dec : EqDecision json.
Proof. solve_decision. Defined.

(** A Python dict with string keys, in insertion order. *)
Definition dict : Type := list (ustring * json).

Fixpoint dict_get (d : dict) (key : ustring) : option json :=
  match d with
  | [] => None
  | (k, v) :: d' => if bool_decide (k = key) then Some v else dict_get d' key
  end.

(** [d[key] = v]: an existing key keeps its place. *)
Fixpoint dict_set (d : dict) (key : ustring) (v : json) : dict :=
  match d with
  | [] => [(key, v)]
  | (k, w) :: d' =>
      if bool_decide (k = key) then (k, v) :: d'
      else (k, w) :: dict_set d' key v
  end.

(** [d.update(other)]. *)
Definition dict_update (d other : dict) : dict :=
  fold_left (fun acc kv => dict_set acc kv.1 kv.2) other d.

(** What [json.dump(_, pf, indent=2)] hands to [pf.write], one chunk at a
    time: braces, the newline-and-indent whitespace, the item separator
    (comma, newline, indent), the key separator, and the encoded keys and
    values. *)
Inductive chunk : Type :=
  | CBegin
  | CEnd
  | CIndent
  | CItemSep
  | CKeySep
  | CAtom (v : json).

#[global] Instance chunk_eq_dec : EqDecision chunk.
Proof. solve_decision. Defined.

Fixpoint dump_items (d : dict) : list chunk :=
  match d with
  | [] => []
  | [(k, v)] => [CAtom (JStr k); CKeySep; CAtom v]
  | (k, v) :: d' => CAtom (JStr k) :: CKeySep :: CAtom v :: CItemSep :: dump_items d'
  end.

(** The chunks of a dict; the encoder writes an empty dict as the two
    braces at once, which [save_progress] never asks for. *)
Definition json_dump (d : dict) : list chunk :=
  match d with
  | [] => [CBegin; CEnd]
  | _ => [CBegin; CIndent] ++ dump_items d ++ [CIndent; CEnd]
  end.

(** [json.load]: whitespace is skipped, then one object whose members are
    string keys with atomic values; anything else is a [JSONDecodeError]. *)
Definition is_whitespace (c : chunk) : bool :=
  match c with CIndent => true | _ => false end.

Fixpoint load_members (acc : dict) (cs : list chunk) : option dict :=
  match cs with
  | CAtom (JStr k) :: CKeySep :: CAtom v :: rest =>
      match rest with
      | [CEnd] => Some (dict_set acc k v)
      | CItemSep :: rest' => load_members (dict_set acc k v) rest'
      | _ => None
      end
  | _ => None
  end.

Definition json_load (cs : list chunk) : option dict :=
  match List.filter (fun c => negb (is_whitespace c)) cs with
  | [CBegin; CEnd] => Some []
  | CBegin :: rest => load_members [] rest
  | _ => None
  end.

(** The file system: the content of each file that exists. *)
Inductive fs_op : Type :=
  | OpenW (path : ustring)              (* open(path, 'w'): create or truncate *)
  | Write (path : ustring) (c : chunk). (* pf.write(c) *)

Definition apply_op (files : gmap ustring (list chunk)) (op : fs_op)
    : gmap ustring (list chunk) :=
  match op with
  | OpenW path => <[path := []]> files
  | Write path c => <[path := default [] (files !! path) ++ [c]]> files
  end.

Definition run_ops (ops : list fs_op) (files : gmap ustring (list chunk))
    : gmap ustring (list chunk) :=
  fold_left apply_op ops files.

Section Store.

(** [os.path.splitext(os.path.basename(_))[0]]. *)
Variable stem : ustring -> ustring.

Definition progress_file (file_path : ustring) : ustring :=
  stem file_path ++ u "_progress.json".

Definition progress_data (file_path : ustring) (idx : Z) (now : ustring)
    (additional_data : dict) : dict :=
  let progress_data :=
    [(u "last_processed_index", JInt idx);
     (u "timestamp", JStr now);
     (u "file_path", JStr file_path)] in
  match additional_data with
  | [] => progress_data
  | _ => dict_update progress_data additional_data
  end.

(** The file operations of one [save_progress] call, in order; [now] is
    [datetime.now().isoformat()]. *)
Definition save_progress_ops (file_path : ustring) (idx : Z) (now : ustring)
    (additional_data : dict) : list fs_op :=
  OpenW (progress_file file_path)
    :: List.map (Write (progress_file file_path))
         (json_dump (progress_data file_path idx now additional_data)).

Definition save_progress (file_path : ustring) (idx : Z) (now : ustring)
    (additional_data : dict) (files : gmap ustring (list chunk))
    : gmap ustring (list chunk) :=
  run_ops (save_progress_ops file_path idx now additional_data) files.

(** A [save_progress] call cut short after its first [k] file operations. *)
Definition save_progress_interrupted (k : nat) (file_path : ustring) (idx : Z)
    (now : ustring) (additional_data : dict) (files : gmap ustring (list chunk))
    : gmap ustring (list chunk) :=
  run_ops (take k (save_progress_ops file_path idx now additional_data)) files.

Definition load_progress (files : gmap ustring (list chunk)) (file_path : ustring)
    : json :=
  match files !! progress_file file_path with
  | None => JInt 0                                (* FileNotFoundError *)
  | Some content =>
      match json_load content with
      | None => JInt 0                            (* json.JSONDecodeError *)
      | Some data => default (JInt 0) (dict_get data (u "last_processed_index"))
      end
  end.

End Store.

(** The keys of a dict, in order. *)
Definition keys (d : dict) : list ustring := List.map fst d.

(** A [stem] for examples: the path itself. *)
Definition stem_id (p : ustring) : ustring := p.

End Checkpoint.

(** ** Effects: state, exceptions, and the log of requests and sleeps *)

Module Eff.
Import Py Checkpoint.

(** How long a [sleep] lasts: a number of seconds the code computes, or
    a draw of [random.uniform] over the delay range. *)
Inductive duration : Type :=
  | Seconds (n : Z)
  | Jitter.

(** What a run does that the outside can see, in order. *)
Inductive event : Type :=
  | Request (idx : nat) (first_name last_name : ustring) (attempt : nat)
  | Sleep (d : duration)
  | Saved (idx : Z) (additional_data : dict).

(** The outcome of a statement: a value, or a raised exception with its
    [str(e)]. *)
Inductive result (A : Type) : Type :=
  | Ok (a : A)
  | Raise (msg : ustring).
Arguments Ok {A} a.
Arguments Raise {A} msg.

Definition M (S A : Type) : Type := S -> result A * S.

Definition ret {S A} (a : A) : M S A := fun s => (Ok a, s).

Definition bind {S A B} (m : M S A) (k : A -> M S B) : M S B :=
  fun s =>
    match m s with
    | (Ok a, s') => k a s'
    | (Raise msg, s') => (Raise msg, s')
    end.

Definition raise {S A} (msg : ustring) : M S A := fun s => (Raise msg, s).

(** [try: m  except Exception as e: handler(str(e))]. *)
Definition try_except {S A} (m : M S A) (handler : ustring -> M S A) : M S A :=
  fun s =>
    match m s with
    | (Ok a, s') => (Ok a, s')
    | (Raise msg, s') => handler msg s'
    end.

Definition modify {S} (f : S -> S) : M S unit := fun s => (Ok tt, f s).

Definition gets {S A} (f : S -> A) : M S A := fun s => (Ok (f s), s).

#[global] Instance M_ret {S} : MRet (M S) := fun A => @ret S A.
#[global] Instance M_bind {S} : MBind (M S) := fun A B k m => bind m k.

End Eff.

(** ** What [main.py] and [main-parallel.py] share: rows, the expiration
       filter, the replies of the search service *)

Module Licenses.
Import Py Checkpoint.

(** A row of [csv.DictReader]; every field it has holds a string. *)
Abbreviation row := (gmap string ustring).

(** A reply of the search service as the code reads it: the status, the
    body text, and what [data.get("totalRecordCount", 0)] gives on the
    decoded body (the body of a 200 reply is taken to be the JSON object
    of the interface). *)
Record response : Type := {
  status_code : Z;
  text : ustring;
  total_record_count : Z
}.

(** A request gets a response, or fails in transport
    ([requests.exceptions.RequestException], [aiohttp.ClientError]), or
    times out. *)
Inductive reply : Type :=
  | Response (r : response)
  | TransportError
  | Timeout.

Section Rows.

(** The decimal value of a code point that is a Unicode decimal digit. *)
Variable decimal : N -> option N.

(** [int(s)]: Unicode spaces and digits are first brought to ASCII; then
    blanks around, an optional sign, and decimal digits with single
    underscores between them.  [None] is [ValueError]. *)
Definition c_isspace (c : N) : bool :=
  ((9 <=? c) && (c <=? 13) || (c =? 32))%N.

Definition is_digit (c : N) : bool := ((48 <=? c) && (c <=? 57))%N.

Definition to_ascii (c : N) : N :=
  (if c <? 127 then c
   else if isspace c then 32
   else match decimal c with
        | Some d => 48 + d
        | None => 63
        end)%N.

Fixpoint skip_blanks (s : ustring) : ustring :=
  match s with
  | c :: s' => if c_isspace c then skip_blanks s' else s
  | [] => []
  end.

Fixpoint digits_go (acc : Z) (after_underscore : bool) (s : ustring) : option Z :=
  match s with
  | [] => if after_underscore then None else Some acc
  | c :: s' =>
      if is_digit c then digits_go (10 * acc + (Z.of_N c - 48)) false s'
      else if (c =? 95)%N then
        if after_underscore then None else digits_go acc true s'
      else None
  end.

Definition digits (s : ustring) : option Z :=
  match s with
  | c :: _ => if is_digit c then digits_go 0 false s else None
  | [] => None
  end.

Definition int (s : ustring) : option Z :=
  let s := skip_blanks (List.map to_ascii s) in
  let '(negative, s) :=
    match s with
    | c :: s' =>
        if (c =? 43)%N then (false, s')
        else if (c =? 45)%N then (true, s')
        else (false, s)
    | [] => (false, s)
    end in
  let s := rev (skip_blanks (rev s)) in
  v ← digits s;
  Some (if negative : bool then - v else v).

(** The year of a stripped, non-empty expiration date; [None] where the
    loop body says [continue]. *)
Definition expiration_year (exp_date : ustring) : option Z :=
  if has_char ch_slash exp_date then
    last_item (split ch_slash exp_date) ≫= int
  else if has_char ch_hyphen exp_date then
    last_item (split ch_hyphen exp_date) ≫= int
  else None.

(** The expiration-date checks of a row, up to [if year <= 2023: continue]. *)
Definition recent_expiration (r : row) : bool :=
  let exp_date := strip (get r "Expiration Date") in
  match exp_date with
  | [] => false
  | _ =>
      match expiration_year exp_date with
      | None => false
      | Some year => negb (year <=? 2023)
      end
  end.

(** [not first_name or not last_name or len(first_name) < 2 or
    len(last_name) < 2], negated. *)
Definition usable_names (first_name last_name : ustring) : bool :=
  negb (bool_decide (first_name = []) || bool_decide (last_name = [])
        || (length first_name <? 2)%nat || (length last_name <? 2)%nat).

End Rows.

(** [idx < start_idx] and [idx >= start_idx] when [start_idx] comes out of
    a progress file; [None] is [TypeError]. *)
Definition as_int (v : json) : option Z :=
  match v with
  | JInt z => Some z
  | JBool b => Some (Z.b2z b)
  | JStr _ => None
  end.

(** [{"total_found": total_found, "total_processed": total_processed}]. *)
Definition counters (total_found total_processed : Z) : dict :=
  [(u "total_found", JInt total_found); (u "total_processed", JInt total_processed)].

(** The digits [0-9] only, for examples. *)
Definition ascii_decimal (c : N) : option N :=
  if ((48 <=? c) && (c <=? 57))%N then Some (c - 48)%N else None.

End Licenses.

(** ** main.py: the sequential fetcher and scheduler *)

Module Main.
Import Py Checkpoint Eff Licenses.

(** The world of a run: the progress files, the rows handed to
    [writer.writerow], and the log. *)
Record world : Type := {
  files : gmap ustring (list chunk);
  written : list row;
  log : list event
}.

Definition emit (e : event) : M world unit :=
  modify (fun w => {| files := files w; written := written w; log := log w ++ [e] |}).

Definition writerow (r : row) : M world unit :=
  modify (fun w => {| files := files w; written := written w ++ [r]; log := log w |}).

Section Run.

(** [str.lower] on the body of a response. *)
Variable str_lower : ustring -> ustring.
Variable decimal : N -> option N.
Variable stem : ustring -> ustring.
(** [datetime.now().isoformat()] once [n] events have been logged. *)
Variable clock : nat -> ustring.
(** The reply to the request number [attempt] for the row at [idx]. *)
Variable http : nat -> nat -> reply.

Definition save (file_path : ustring) (idx : Z) (additional_data : dict)
    : M world unit :=
  modify (fun w =>
    {| files := save_progress stem file_path idx (clock (length (log w)))
                  additional_data (files w);
       written := written w;
       log := log w ++ [Saved idx additional_data] |}).

(** [for attempt in range(max_retries)], with [remaining] turns left. *)
Fixpoint attempts (idx : nat) (first_name last_name : ustring)
    (max_retries : nat) (remaining : nat) (attempt : nat) : M world bool :=
  match remaining with
  | O => mret false
  | S remaining' =>
      emit (Request idx first_name last_name attempt);;
      match http idx attempt with
      | Response response =>
          if status_code response =? 429 then
            if Z.of_nat attempt <? Z.of_nat max_retries - 1 then
              let wait_time := 2 ^ Z.of_nat attempt * 60 in
              emit (Sleep (Seconds wait_time));;
              attempts idx first_name last_name max_retries remaining' (S attempt)
            else raise (u "Rate limited - max retries exceeded")
          else if status_code response =? 403 then
            raise (u "Blocked by server")
          else if contains (u "captcha") (str_lower (text response)) then
            raise (u "Captcha required")
          else if negb (status_code response =? 200) then
            if Z.of_nat attempt <? Z.of_nat max_retries - 1 then
              emit (Sleep (Seconds 5));;
              attempts idx first_name last_name max_retries remaining' (S attempt)
            else mret false
          else mret (0 <? total_record_count response)
      | TransportError | Timeout =>
          if Z.of_nat attempt <? Z.of_nat max_retries - 1 then
            emit (Sleep (Seconds 5));;
            attempts idx first_name last_name max_retries remaining' (S attempt)
          else mret false
      end
  end.

Definition search_legacy_obituary (idx : nat) (first_name last_name : ustring)
    (max_retries : nat) : M world bool :=
  attempts idx first_name last_name max_retries max_retries 0.

(** The body of [for idx, row in enumerate(rows)].  [None] is the
    [return False] of the exception handler; [Some] carries the counters
    out of a loop that ran to its end.  [out_csv] is a local of [main],
    not of [process_licenses]: [out_csv.flush()] raises [NameError] inside
    the [try], after the row has been written. *)
Fixpoint rows_loop (file_path : ustring) (start_idx : json) (idx : nat)
    (rows : list row) (total_found total_processed : Z)
    : M world (option (Z * Z)) :=
  match rows with
  | [] => mret (Some (total_found, total_processed))
  | row :: rest =>
      let continue := rows_loop file_path start_idx (S idx) rest in
      match as_int start_idx with
      | None => raise (u "'<' not supported between instances of 'int' and 'str'")
      | Some start =>
      if Z.of_nat idx <? start then continue total_found total_processed
      else if negb (recent_expiration decimal row) then
        continue total_found total_processed
      else
        let first_name := strip (get row "First Name") in
        let last_name := strip (get row "Last Name") in
        if negb (usable_names first_name last_name) then
          continue total_found total_processed
        else
          r ← try_except
                 (found ← search_legacy_obituary idx first_name last_name 3;
                  let total_processed := total_processed + 1 in
                  if found : bool then
                    let total_found := total_found + 1 in
                    writerow row;;
                    (* out_csv.flush(): NameError, handled below with the
                       counters as they now are *)
                    save file_path (Z.of_nat idx)
                      (counters total_found total_processed
                         ++ [(u "error", JStr (u "name 'out_csv' is not defined"))]);;
                    mret None
                  else
                    (if total_processed `mod` 10 =? 0 then
                       save file_path (Z.of_nat idx)
                         (counters total_found total_processed)
                     else mret tt);;
                    mret (Some (total_found, total_processed)))
                 (fun e =>
                    save file_path (Z.of_nat idx)
                      (counters total_found total_processed ++ [(u "error", JStr e)]);;
                    mret None);
          match r with
          | None => mret None
          | Some (total_found, total_processed) =>
              emit (Sleep Jitter);;
              continue total_found total_processed
          end
      end
  end.

Definition process_licenses (file_path : ustring) (rows : list row)
    : M world bool :=
  start_idx ← gets (fun w => load_progress stem (files w) file_path);
  match as_int start_idx with
  | None =>
      (* print(f"... {total_rows - start_idx}") *)
      raise (u "unsupported operand type(s) for -: 'int' and 'str'")
  | Some _ =>
      r ← rows_loop file_path start_idx 0 rows 0 0;
      match r with
      | None => mret false
      | Some (total_found, total_processed) =>
          save file_path (Z.of_nat (length rows))
            (counters total_found total_processed ++ [(u "completed", JBool true)]);;
          mret true
      end
  end.

End Run.

Definition empty_world : world := {| files := ∅; written := []; log := [] |}.

End Main.

(** ** main-parallel.py: the concurrent fetcher and the batch scheduler *)

Module MainParallel.
Import Py Checkpoint Eff Licenses.

(** A line of the output CSV file. *)
Inductive csv_line : Type :=
  | Header
  | Record_ (r : row).

(** The [AsyncObituarySearcher] object's counters and buffer, the progress
    files, the output file (if it exists) and the log. *)
Record state : Type := {
  total_found : Z;
  total_processed : Z;
  results : list row;
  files : gmap ustring (list chunk);
  output : option (list csv_line);
  log : list event
}.

Definition emit (e : event) : M state unit :=
  modify (fun s =>
    {| total_found := total_found s; total_processed := total_processed s;
       results := results s; files := files s; output := output s;
       log := log s ++ [e] |}).

(** The block under [async with self.lock]. *)
Definition count (found : bool) (row_data : row) : M state unit :=
  modify (fun s =>
    {| total_found := if found then total_found s + 1 else total_found s;
       total_processed := total_processed s + 1;
       results := if found then results s ++ [row_data] else results s;
       files := files s; output := output s; log := log s |}).

(** [open(output_file, file_mode)], the header in mode ['w'], and the rows
    of [searcher.results]; then [searcher.results.clear()]. *)
Definition write_results (overwrite : bool) : M state unit :=
  modify (fun s =>
    let before := if overwrite then [Header] else default [] (output s) in
    {| total_found := total_found s; total_processed := total_processed s;
       results := [];
       files := files s;
       output := Some (before ++ List.map Record_ (results s));
       log := log s |}).

(** [valid_rows[i:i + batch_size]] for [i] in [range(0, len(valid_rows),
    batch_size)], for a positive [batch_size]. *)
Fixpoint batches {A} (fuel : nat) (batch_size : nat) (l : list A) : list (list A) :=
  match fuel, l with
  | _, [] => []
  | O, _ => []
  | S fuel', _ => take batch_size l :: batches fuel' batch_size (drop batch_size l)
  end.

Section Run.

Variable str_lower : ustring -> ustring.
Variable decimal : N -> option N.
Variable stem : ustring -> ustring.
Variable clock : nat -> ustring.
Variable http : nat -> nat -> reply.
(** The order in which the fetches of a batch complete, as an
    arrangement of the batch's tasks.  A task touches the searcher only
    in the locked block just before it returns, so running the tasks one
    after the other in this order leaves the searcher as the interleaved
    run does. *)
Variable completion : list (nat * row) -> list (nat * row).

Definition save (file_path : ustring) (idx : Z) (additional_data : dict)
    : M state unit :=
  modify (fun s =>
    {| total_found := total_found s; total_processed := total_processed s;
       results := results s;
       files := save_progress stem file_path idx (clock (length (log s)))
                  additional_data (files s);
       output := output s;
       log := log s ++ [Saved idx additional_data] |}).

Fixpoint attempts (idx : nat) (first_name last_name : ustring) (row_data : row)
    (max_retries : nat) (remaining : nat) (attempt : nat) : M state (bool * row) :=
  match remaining with
  | O => mret (false, row_data)
  | S remaining' =>
      emit (Request idx first_name last_name attempt);;
      match http idx attempt with
      | Response response =>
          if status_code response =? 429 then
            let wait_time := 2 ^ Z.of_nat attempt * 30 in
            emit (Sleep (Seconds wait_time));;
            attempts idx first_name last_name row_data max_retries remaining' (S attempt)
          else if status_code response =? 403 then
            mret (false, row_data)
          else if contains (u "captcha") (str_lower (text response)) then
            mret (false, row_data)
          else if negb (status_code response =? 200) then
            if Z.of_nat attempt <? Z.of_nat max_retries - 1 then
              emit (Sleep (Seconds 5));;
              attempts idx first_name last_name row_data max_retries remaining' (S attempt)
            else mret (false, row_data)
          else
            let found := 0 <? total_record_count response in
            count found row_data;;
            mret (found, row_data)
      | TransportError | Timeout =>
          if Z.of_nat attempt <? Z.of_nat max_retries - 1 then
            emit (Sleep (Seconds 5));;
            attempts idx first_name last_name row_data max_retries remaining' (S attempt)
          else mret (false, row_data)
      end
  end.

Definition search_legacy_obituary (max_retries : nat) (idx : nat)
    (first_name last_name : ustring) (row_data : row) : M state (bool * row) :=
  emit (Sleep Jitter);;
  attempts idx first_name last_name row_data max_retries max_retries 0.

(** The rows of a batch that get a task. *)
Definition tasks_of (batch_data : list (nat * row)) : list (nat * row) :=
  List.filter
    (fun t => usable_names (strip (get t.2 "First Name")) (strip (get t.2 "Last Name")))
    batch_data.

(** One task of [asyncio.gather(..., return_exceptions=True)]: what it
    returns or raises is dropped. *)
Definition run_task (max_retries : nat) (t : nat * row) : M state unit :=
  try_except
    (search_legacy_obituary max_retries t.1
       (strip (get t.2 "First Name")) (strip (get t.2 "Last Name")) t.2;;
     mret tt)
    (fun _ => mret tt).

Fixpoint run_tasks (max_retries : nat) (ts : list (nat * row)) : M state unit :=
  match ts with
  | [] => mret tt
  | t :: ts' => run_task max_retries t;; run_tasks max_retries ts'
  end.

Definition process_batch (max_retries : nat) (batch_data : list (nat * row))
    : M state unit :=
  run_tasks max_retries (completion (tasks_of batch_data)).

(** [enumerate(rows)] from [idx] on, kept where the expiration is recent. *)
Fixpoint filter_valid_rows_from (idx : nat) (rows : list row) : list (nat * row) :=
  match rows with
  | [] => []
  | r :: rest =>
      if recent_expiration decimal r
      then (idx, r) :: filter_valid_rows_from (S idx) rest
      else filter_valid_rows_from (S idx) rest
  end.

Definition filter_valid_rows (rows : list row) : list (nat * row) :=
  filter_valid_rows_from 0 rows.

(** The loop over the batches; [overwrite] is [file_mode == 'w']. *)
Fixpoint batches_loop (file_path : ustring) (overwrite : bool)
    (bs : list (list (nat * row))) : M state unit :=
  match bs with
  | [] => mret tt
  | batch :: rest =>
      match last_item batch with
      | None => raise (u "list index out of range")
      | Some (last_idx, _) =>
          process_batch 3 batch;;
          s ← gets (fun s => s);
          save file_path (Z.of_nat last_idx)
            (counters (total_found s) (total_processed s));;
          (match results s with
           | [] => emit (Sleep (Seconds 2));; batches_loop file_path overwrite rest
           | _ =>
               write_results overwrite;;
               emit (Sleep (Seconds 2));;
               batches_loop file_path false rest
           end)
      end
  end.

(** [[(idx, row) for idx, row in valid_rows if idx >= start_idx]]. *)
Definition resume_filter (start_idx : json) (valid_rows : list (nat * row))
    : M state (list (nat * row)) :=
  match valid_rows with
  | [] => mret []
  | _ =>
      match as_int start_idx with
      | None => raise (u "'>=' not supported between instances of 'int' and 'str'")
      | Some start => mret (List.filter (fun t => start <=? Z.of_nat t.1) valid_rows)
      end
  end.

(** [AsyncObituarySearcher(max_concurrent=max_concurrent)]: fresh counters
    and an empty buffer. *)
Definition new_searcher : M state unit :=
  modify (fun s =>
    {| total_found := 0; total_processed := 0; results := [];
       files := files s; output := output s; log := log s |}).

(** [answer] is what the operator types when asked whether to append to
    an output file that exists. *)
Definition process_licenses_async (file_path : ustring) (all_rows : list row)
    (answer : ustring) (batch_size : nat) : M state unit :=
  start_idx ← gets (fun s => load_progress stem (files s) file_path);
  valid_rows ← resume_filter start_idx (filter_valid_rows all_rows);
  match valid_rows with
  | [] => mret tt
  | _ =>
      new_searcher;;
      there ← gets (fun s => bool_decide (is_Some (output s)));
      let overwrite := negb (there && bool_decide (str_lower answer = u "y")) in
      match batch_size with
      | O => raise (u "range() arg 3 must not be zero")
      | _ =>
          batches_loop file_path overwrite
            (batches (length valid_rows) batch_size valid_rows)
      end
  end.

End Run.

Definition empty_state : state :=
  {| total_found := 0; total_processed := 0; results := [];
     files := ∅; output := None; log := [] |}.

End MainParallel.

(** ** Concrete inputs for the examples *)

Module Examples.
Import Py Checkpoint Eff Licenses.

Definition license (first_name last_name exp_date : string) : row :=
  <["First Name" := u first_name]>
    (<["Last Name" := u last_name]> (<["Expiration Date" := u exp_date]> ∅)).

Definition reply_of (status : Z) (body : string) (n : Z) : reply :=
  Response {| status_code := status; text := u body; total_record_count := n |}.

Definition clock0 (n : nat) : ustring := u "2025-01-01T00:00:00".

Definition rows2 : list row :=
  [license "Ada" "Stone" "01/31/2025"; license "Bo" "Reed" "02/28/2025"].

(** Row 0 is answered 403, row 1 is found. *)
Definition http_403 (idx attempt : nat) : reply :=
  match idx with
  | O => reply_of 403 "Forbidden" 0
  | _ => reply_of 200 "{}" 1
  end.

(** Row 0 is answered 429 every time, row 1 is found. *)
Definition http_429 (idx attempt : nat) : reply :=
  match idx with
  | O => reply_of 429 "Too Many Requests" 0
  | _ => reply_of 200 "{}" 1
  end.

(** Row 0 is answered 503 every time, row 1 is not found. *)
Definition http_503 (idx attempt : nat) : reply :=
  match idx with
  | O => reply_of 503 "Service Unavailable" 0
  | _ => reply_of 200 "{}" 0
  end.

(** Every row is found. *)
Definition http_found (idx attempt : nat) : reply := reply_of 200 "{}" 1.

(** Row 0 is answered 503 with a challenge page every time. *)
Definition http_503_captcha (idx attempt : nat) : reply :=
  reply_of 503 "<html>Please solve the CAPTCHA</html>" 0.

(** A world and a state whose progress file says index 1. *)
Definition resumed_world : Main.world :=
  {| Main.files := save_progress stem_id (u "x.csv") 1 (clock0 0) (counters 0 1) ∅;
     Main.written := [];
     Main.log := [] |}.

Definition resumed_state : MainParallel.state :=
  {| MainParallel.total_found := 0;
     MainParallel.total_processed := 0;
     MainParallel.results := [];
     MainParallel.files :=
       save_progress stem_id (u "x.csv") 1 (clock0 0) (counters 0 1) ∅;
     MainParallel.output := None;
     MainParallel.log := [] |}.

(** A name record with a nickname. *)
Definition bob_record : gmap string ustring :=
  <["firstName" := u "Bob"]>
    (<["nickName" := u "Robert"]> (<["lastName" := u "Smith"]> ∅)).

End Examples.

(** ** The matching strategies, as the specification lists them *)

Module MatchSpec.
Import Py FilterResults.

Inductive strategy : Type :=
  | Exact
  | MiddleAsFirst
  | NicknameAsFirst
  | MaidenAsLast.

(** The place of a strategy in the priority order. *)
Definition priority (s : strategy) : nat :=
  match s with
  | Exact => 0
  | MiddleAsFirst => 1
  | NicknameAsFirst => 2
  | MaidenAsLast => 3
  end.

(** The words by which a reason names a strategy. *)
Definition label (s : strategy) : string :=
  match s with
  | Exact => "Exact match"
  | MiddleAsFirst => "Middle name match"
  | NicknameAsFirst => "Nickname match"
  | MaidenAsLast => "Maiden name match"
  end.

(** A field of the record is present when it is a non-empty string. *)
Definition present (obit : gmap string ustring) (key : string) : bool :=
  negb (bool_decide (get obit key = [])).

(** The obituary (first, last) a strategy compares the candidate with,
    when the field it needs is present. *)
Definition compared_with (s : strategy) (obit : gmap string ustring)
    : option (ustring * ustring) :=
  match s with
  | Exact => Some (get obit "firstName", get obit "lastName")
  | MiddleAsFirst =>
      if present obit "middleName"
      then Some (get obit "middleName", get obit "lastName") else None
  | NicknameAsFirst =>
      if present obit "nickName"
      then Some (get obit "nickName", get obit "lastName") else None
  | MaidenAsLast =>
      if present obit "maidenName"
      then Some (get obit "firstName", get obit "maidenName") else None
  end.

(** Strategy [s] succeeds through the candidate variation [v]: [v] is also
    a variation of the obituary name the strategy compares with. *)
Definition succeeds (nfkd : ustring -> ustring) (s : strategy)
    (first last : ustring) (obit : gmap string ustring)
    (v : ustring * ustring) : Prop :=
  ∃ p, compared_with s obit = Some p
       ∧ v ∈ get_name_variations nfkd first last
       ∧ v ∈ get_name_variations nfkd p.1 p.2.

(** A character of a normalized name is a token character or the single
    space that joins two tokens. *)
Definition token_or_space (c : N) : Prop := name_sep c = true → c = ch_space.

(** What the code computes for one strategy. *)
Definition attempt_strategy (nfkd : ustring -> ustring) (s : strategy)
    (first last : ustring) (obit : gmap string ustring)
    : option (ustring * ustring) :=
  p ← compared_with s obit;
  first_equal (get_name_variations nfkd first last)
    (get_name_variations nfkd p.1 p.2).

End MatchSpec.

(** ** The date formats of the expiration field *)

Module DateSpec.
Import Py Licenses.

(** A string of exactly [n] ASCII digits. *)
Definition digit_string (n : nat) (s : ustring) : Prop :=
  length s = n ∧ Forall (λ c, is_digit c = true) s.

(** The number a string of digits denotes. *)
Definition number_of (s : ustring) : Z :=
  fold_left (λ acc c, 10 * acc + (Z.of_N c - 48)) s 0.

(** MM/DD/YYYY (with [sep] a slash) and MM-DD-YYYY (a hyphen). *)
Definition month_day_year (sep : N) (mm dd yyyy : ustring) : ustring :=
  mm ++ [sep] ++ dd ++ [sep] ++ yyyy.

(** YYYY-MM-DD. *)
Definition year_month_day (yyyy mm dd : ustring) : ustring :=
  yyyy ++ [ch_hyphen] ++ mm ++ [ch_hyphen] ++ dd.

End DateSpec.

(** ** Runs: what is asked of the service, and what a fetch changes *)

Module RunSpec.
Import Py Checkpoint Eff Licenses.

(** The row indices of the requests in a log, in order. *)
Fixpoint requested (evs : list event) : list nat :=
  match evs with
  | [] => []
  | Request idx _ _ _ :: evs' => idx :: requested evs'
  | _ :: evs' => requested evs'
  end.

(** The saves in a log, in order. *)
Fixpoint saves (evs : list event) : list (Z * dict) :=
  match evs with
  | [] => []
  | Saved idx additional_data :: evs' => (idx, additional_data) :: saves evs'
  | _ :: evs' => saves evs'
  end.

(** A reply that is neither a success nor 429 nor 403: a status outside
    2xx, a transport error or a timeout. *)
Definition plain_failure (rp : reply) : Prop :=
  match rp with
  | Response r =>
      ¬ (200 ≤ status_code r < 300) ∧ status_code r ≠ 429 ∧ status_code r ≠ 403
  | TransportError | Timeout => True
  end.

(** The body of the reply, if there is one, holds no challenge marker. *)
Definition unchallenged (str_lower : ustring → ustring) (rp : reply) : Prop :=
  match rp with
  | Response r => contains (u "captcha") (str_lower (text r)) = false
  | TransportError | Timeout => True
  end.

(** The log of a fetch all of whose attempts fail plainly: a request per
    attempt from [attempt] on, [n] of them, and five seconds of sleep
    after each but the last of [max_retries]. *)
Definition retry_log (idx : nat) (first_name last_name : ustring)
    (max_retries : nat) (attempt n : nat) : list event :=
  flat_map
    (λ a, Request idx first_name last_name a
          :: (if Z.of_nat a <? Z.of_nat max_retries - 1
              then [Sleep (Seconds 5)] else []))
    (seq attempt n).

(** The log of a fetch all of whose attempts are answered 429, with the
    sleeps of [main.py]: [2 ** attempt * 60] seconds after each attempt
    but the last of [max_retries]. *)
Definition backoff_log (idx : nat) (first_name last_name : ustring)
    (max_retries : nat) (attempt n : nat) : list event :=
  flat_map
    (λ a, Request idx first_name last_name a
          :: (if Z.of_nat a <? Z.of_nat max_retries - 1
              then [Sleep (Seconds (2 ^ Z.of_nat a * 60))] else []))
    (seq attempt n).

(** The same with the sleeps of [main-parallel.py]: [2 ** attempt * 30]
    seconds after every attempt. *)
Definition backoff_log_async (idx : nat) (first_name last_name : ustring)
    (attempt n : nat) : list event :=
  flat_map
    (λ a, [Request idx first_name last_name a;
           Sleep (Seconds (2 ^ Z.of_nat a * 30))])
    (seq attempt n).

(** The world of [main.py] with more events in its log. *)
Definition logged (evs : list event) (w : Main.world) : Main.world :=
  {| Main.files := Main.files w;
     Main.written := Main.written w;
     Main.log := Main.log w ++ evs |}.

(** What one fetch of [main-parallel.py] leaves behind: its events, and,
    if it reached the locked block, the counted outcome. *)
Definition fetched (evs : list event) (counted found : bool) (row_data : row)
    (s : MainParallel.state) : MainParallel.state :=
  {| MainParallel.total_found :=
       if counted && found then MainParallel.total_found s + 1
       else MainParallel.total_found s;
     MainParallel.total_processed :=
       if counted then MainParallel.total_processed s + 1
       else MainParallel.total_processed s;
     MainParallel.results :=
       if counted && found then MainParallel.results s ++ [row_data]
       else MainParallel.results s;
     MainParallel.files := MainParallel.files s;
     MainParallel.output := MainParallel.output s;
     MainParallel.log := MainParallel.log s ++ evs |}.

(** Whether the fetch of a task finds an obituary: what its coroutine
    returns, which no other task can change. *)
Definition task_found (str_lower : ustring → ustring) (http : nat → nat → reply)
    (max_retries : nat) (t : nat * row) : bool :=
  match
    (MainParallel.search_legacy_obituary str_lower http max_retries t.1
       (strip (get t.2 "First Name")) (strip (get t.2 "Last Name")) t.2
       MainParallel.empty_state).1
  with
  | Ok (found, _) => found
  | Raise _ => false
  end.

(** The rows of a list of tasks that are found, in the order of the list. *)
Definition kept (str_lower : ustring → ustring) (http : nat → nat → reply)
    (ts : list (nat * row)) : list row :=
  List.map snd (List.filter (task_found str_lower http 3) ts).

(** A stretch of a run of [main.py] resumed at checkpoint [K] over the
    input [rows]: the log and the written rows only grow, every request
    is for a row at index [K] or later, and every row written is the row
    at such an index. *)
Definition resumes (K : Z) (rows : list row) (w w' : Main.world) : Prop :=
  ∃ evs new,
    Main.log w' = Main.log w ++ evs
    ∧ Main.written w' = Main.written w ++ new
    ∧ Forall (λ i, K ≤ Z.of_nat i) (requested evs)
    ∧ Forall (λ r, ∃ i, K ≤ Z.of_nat i ∧ rows !! i = Some r) new.

Definition resuming {A} (K : Z) (rows : list row) (m : M Main.world A) : Prop :=
  ∀ w, resumes K rows w (m w).2.

(** The same for [main-parallel.py]: the rows in the buffer and in the
    output file are those already there or rows at index [K] or later. *)
Definition resumes_async (K : Z) (rows : list row)
    (s s' : MainParallel.state) : Prop :=
  ∃ evs,
    MainParallel.log s' = MainParallel.log s ++ evs
    ∧ Forall (λ i, K ≤ Z.of_nat i) (requested evs)
    ∧ (∀ r, r ∈ MainParallel.results s' →
            r ∈ MainParallel.results s
            ∨ ∃ i, K ≤ Z.of_nat i ∧ rows !! i = Some r)
    ∧ (∀ r, MainParallel.Record_ r ∈ default [] (MainParallel.output s') →
            MainParallel.Record_ r ∈ default [] (MainParallel.output s)
            ∨ r ∈ MainParallel.results s
            ∨ ∃ i, K ≤ Z.of_nat i ∧ rows !! i = Some r).

(** A task for the row of the input at its index, [K] or later. *)
Definition late (K : Z) (rows : list row) (t : nat * row) : Prop :=
  K ≤ Z.of_nat t.1 ∧ rows !! t.1 = Some t.2.

Definition resuming_async {A} (K : Z) (rows : list row)
    (m : M MainParallel.state A) : Prop :=
  ∀ s, resumes_async K rows s (m s).2.

End RunSpec.

(** ** filter-results.py: [get_obituary_details] and [filter_possibilities] *)

Module Filter.
Import Py Checkpoint Eff Licenses FilterResults.

(** An entry of ["searchResults"] as the loop reads it:
    [obit.get('name', {})], [obit.get('id')] and
    [obit.get('links', {}).get('obituaryUrl', {}).get('href', '')]. *)
Record obituary : Type := {
  obit_name : gmap string ustring;
  obit_id : option json;
  obit_href : ustring
}.

(** What [session.get(url)] and [response.json()] give: a status with the
    value of [data.get("searchResults", [])], or an exception. *)
Inductive details_reply : Type :=
  | Details (status : Z) (search_results : list obituary)
  | DetailsError.

(** The dict [obit_info]. *)
Record obit_info : Type := {
  info_name : gmap string ustring;
  info_id : option json;
  obituaryUrl : ustring;
  match_reason : ustring;
  is_match : bool
}.

(** A record of [filtered_records]: the row with the keys
    [matched_obituaries] (here the list that [json.dumps] serializes),
    [total_matches] and [total_obituaries_found] added. *)
Record kept_record : Type := {
  kept_row : row;
  matched_obituaries : list obit_info;
  total_matches : nat;
  total_obituaries_found : nat
}.

(** A record of [removed_records]: the row with [removal_reason] and
    [matched_obituaries] added, and [total_obituaries_found] where the
    code adds it. *)
Record removed_record : Type := {
  removed_row : row;
  removal_reason : ustring;
  unmatched_obituaries : list obit_info;
  obituaries_found : option nat
}.

(** What the run does that the outside can see. *)
Inductive action : Type :=
  | Asked (i : nat) (first_name last_name : ustring)
  | Paused.                                       (* asyncio.sleep(0.5) *)

(** A line of an output CSV file. *)
Inductive line (A : Type) : Type :=
  | Fieldnames
  | Line (a : A).
Arguments Fieldnames {A}.
Arguments Line {A} a.

Record state : Type := {
  filtered_records : list kept_record;
  removed_records : list removed_record;
  actions : list action;
  filtered_file : option (list (line kept_record));
  removed_file : option (list (line removed_record))
}.

Definition act (a : action) : M state unit :=
  modify (fun s =>
    {| filtered_records := filtered_records s;
       removed_records := removed_records s;
       actions := actions s ++ [a];
       filtered_file := filtered_file s;
       removed_file := removed_file s |}).

Definition keep (k : kept_record) : M state unit :=
  modify (fun s =>
    {| filtered_records := filtered_records s ++ [k];
       removed_records := removed_records s;
       actions := actions s;
       filtered_file := filtered_file s;
       removed_file := removed_file s |}).

Definition remove (r : removed_record) : M state unit :=
  modify (fun s =>
    {| filtered_records := filtered_records s;
       removed_records := removed_records s ++ [r];
       actions := actions s;
       filtered_file := filtered_file s;
       removed_file := removed_file s |}).

(** [open(path, 'w')], [writeheader()], [writerows(records)]. *)
Definition write_filtered : M state unit :=
  modify (fun s =>
    {| filtered_records := filtered_records s;
       removed_records := removed_records s;
       actions := actions s;
       filtered_file := Some (Fieldnames :: List.map Line (filtered_records s));
       removed_file := removed_file s |}).

Definition write_removed : M state unit :=
  modify (fun s =>
    {| filtered_records := filtered_records s;
       removed_records := removed_records s;
       actions := actions s;
       filtered_file := filtered_file s;
       removed_file := Some (Fieldnames :: List.map Line (removed_records s)) |}).

Section Run.

Variable nfkd : ustring -> ustring.
(** The reply to the one request for the row at index [i]. *)
Variable http : nat -> details_reply.

Definition get_obituary_details (i : nat) (first_name last_name : ustring)
    : M state (list obituary) :=
  act (Asked i first_name last_name);;
  match http i with
  | Details status search_results =>
      if negb (status =? 200) then mret [] else mret search_results
  | DetailsError => mret []
  end.

(** The loop over [obituaries]: the matched and the unmatched ones. *)
Fixpoint check_obituaries (first_name last_name : ustring)
    (obituaries : list obituary) (matched unmatched : list obit_info)
    : list obit_info * list obit_info :=
  match obituaries with
  | [] => (matched, unmatched)
  | obit :: rest =>
      let name_obj := obit_name obit in
      let '(is_match, match_reason) :=
        check_name_match nfkd first_name last_name name_obj in
      let obit_info :=
        {| info_name := name_obj;
           info_id := obit_id obit;
           obituaryUrl := obit_href obit;
           match_reason := match_reason;
           is_match := is_match |} in
      if is_match
      then check_obituaries first_name last_name rest (matched ++ [obit_info]) unmatched
      else check_obituaries first_name last_name rest matched (unmatched ++ [obit_info])
  end.

(** [for i, row in enumerate(rows)]. *)
Fixpoint records_loop (i : nat) (rows : list row) : M state unit :=
  match rows with
  | [] => mret tt
  | row :: rest =>
      let first_name := strip (get row "First Name") in
      let last_name := strip (get row "Last Name") in
      if bool_decide (first_name = []) || bool_decide (last_name = []) then
        remove {| removed_row := row;
                  removal_reason := u "Empty name fields";
                  unmatched_obituaries := [];
                  obituaries_found := None |};;
        records_loop (S i) rest
      else
        obituaries ← get_obituary_details i first_name last_name;
        match obituaries with
        | [] =>
            remove {| removed_row := row;
                      removal_reason := u "No obituaries found";
                      unmatched_obituaries := [];
                      obituaries_found := None |};;
            records_loop (S i) rest
        | _ =>
            let '(matched_obituaries, unmatched_obituaries) :=
              check_obituaries first_name last_name obituaries [] [] in
            (match matched_obituaries with
             | [] =>
                 remove {| removed_row := row;
                           removal_reason := u "No matching obituary names found";
                           unmatched_obituaries := unmatched_obituaries;
                           obituaries_found := Some (length obituaries) |}
             | _ =>
                 keep {| kept_row := row;
                         matched_obituaries := matched_obituaries;
                         total_matches := length matched_obituaries;
                         total_obituaries_found := length obituaries |}
             end);;
            act Paused;;
            records_loop (S i) rest
        end
  end.

(** [input_file] is [None] when the file does not exist. *)
Definition filter_possibilities (input_file : option (list row)) : M state unit :=
  match input_file with
  | None => mret tt
  | Some rows =>
      modify (fun s =>
        {| filtered_records := []; removed_records := [];
           actions := actions s;
           filtered_file := filtered_file s;
           removed_file := removed_file s |});;
      records_loop 0 rows;;
      s ← gets (fun s => s);
      (match filtered_records s with
       | [] => mret tt
       | _ => write_filtered
       end);;
      match removed_records s with
      | [] => mret tt
      | _ => write_removed
      end
  end.

(** Whether the row at [i] has both names and an obituary that matches. *)
Definition has_names (r : row) : bool :=
  negb (bool_decide (strip (get r "First Name") = [])
        || bool_decide (strip (get r "Last Name") = [])).

(** The obituaries the service returns for the row at [i]: none when the
    request fails or the status is not 200. *)
Definition found_for (i : nat) : list obituary :=
  match http i with
  | Details status search_results =>
      if negb (status =? 200) then [] else search_results
  | DetailsError => []
  end.

Definition matches (r : row) (obit : obituary) : bool :=
  (check_name_match nfkd (strip (get r "First Name")) (strip (get r "Last Name"))
     (obit_name obit)).1.

Definition confirmed (t : nat * row) : bool :=
  has_names t.2 && existsb (matches t.2) (found_for t.1).

End Run.

Definition start : state :=
  {| filtered_records := []; removed_records := []; actions := [];
     filtered_file := None; removed_file := None |}.

End Filter.

(** ** The partition of [filter_possibilities], row by row *)

Module FilterSpec.
Import Py Checkpoint Eff Licenses FilterResults Filter.

(** [enumerate(rows)], counting from [i]. *)
Fixpoint enumerate_from {A} (i : nat) (l : list A) : list (nat * A) :=
  match l with
  | [] => []
  | x :: l' => (i, x) :: enumerate_from (S i) l'
  end.

Section Rows.

Variable nfkd : ustring -> ustring.
Variable http : nat -> details_reply.

(** The [obit_info] of an obituary for the candidate of row [r]. *)
Definition info_of (r : row) (obit : obituary) : obit_info :=
  let res :=
    check_name_match nfkd (strip (get r "First Name")) (strip (get r "Last Name"))
      (obit_name obit) in
  {| info_name := obit_name obit;
     info_id := obit_id obit;
     obituaryUrl := obit_href obit;
     match_reason := res.2;
     is_match := res.1 |}.

(** What becomes of the row at [i]: a kept record or a removed one. *)
Definition outcome (t : nat * row) : kept_record + removed_record :=
  if has_names t.2 then
    match found_for http t.1 with
    | [] =>
        inr {| removed_row := t.2;
               removal_reason := u "No obituaries found";
               unmatched_obituaries := [];
               obituaries_found := None |}
    | obituaries =>
        match List.filter is_match (List.map (info_of t.2) obituaries) with
        | [] =>
            inr {| removed_row := t.2;
                   removal_reason := u "No matching obituary names found";
                   unmatched_obituaries :=
                     List.filter (fun o => negb (is_match o))
                       (List.map (info_of t.2) obituaries);
                   obituaries_found := Some (length obituaries) |}
        | matched =>
            inl {| kept_row := t.2;
                   matched_obituaries := matched;
                   total_matches := length matched;
                   total_obituaries_found := length obituaries |}
        end
    end
  else
    inr {| removed_row := t.2;
           removal_reason := u "Empty name fields";
           unmatched_obituaries := [];
           obituaries_found := None |}.

(** The request and the pause the row at [i] causes. *)
Definition actions_of (t : nat * row) : list action :=
  if has_names t.2 then
    Asked t.1 (strip (get t.2 "First Name")) (strip (get t.2 "Last Name"))
    :: match found_for http t.1 with
       | [] => []
       | _ => [Paused]
       end
  else [].

Definition kept_of (o : kept_record + removed_record) : option kept_record :=
  match o with inl k => Some k | inr _ => None end.

Definition removed_of (o : kept_record + removed_record) : option removed_record :=
  match o with inl _ => None | inr r => Some r end.

(** The state once an outcome and its actions are recorded. *)
Definition record (o : kept_record + removed_record) (acts : list action)
    (s : state) : state :=
  {| filtered_records :=
       filtered_records s ++ match o with inl k => [k] | inr _ => [] end;
     removed_records :=
       removed_records s ++ match o with inl _ => [] | inr r => [r] end;
     actions := actions s ++ acts;
     filtered_file := filtered_file s;
     removed_file := removed_file s |}.

(** The row indices asked about, in order. *)
Fixpoint asked (acts : list action) : list nat :=
  match acts with
  | [] => []
  | Asked i _ _ :: acts' => i :: asked acts'
  | Paused :: acts' => asked acts'
  end.

End Rows.

End FilterSpec.


(** ** The shape of a normalized name *)

Module NameSpec.
Import Py FilterResults.

(** A character of a token: ASCII, not an uppercase letter, and none of
    the separators of the splitting pattern. *)
Definition token_char (c : N) : bool :=
  (c <? 128)%N && negb ((65 <=? c) && (c <=? 90))%N && negb (name_sep c).

(** A token of a normalized name: not empty, none of the titles and
    suffixes, made of token characters. *)
Definition token (p : ustring) : bool :=
  negb (bool_decide (p = []))
  && negb (bool_decide (p ∈ suffixes ++ prefixes))
  && forallb token_char p.

End NameSpec.

(** ** [os.path] on a POSIX system, for the name of the progress file *)

Module Posix.
Import Py.

(** [s.rfind(c)] for a one-character [c]: the index of its last
    occurrence, or -1. *)
Fixpoint rfind_go (c : N) (i : Z) (found : Z) (s : ustring) : Z :=
  match s with
  | [] => found
  | d :: s' => rfind_go c (i + 1) (if (d =? c)%N then i else found) s'
  end.

Definition rfind (c : N) (s : ustring) : Z := rfind_go c 0 (-1) s.

(** [p[i:j]] for indices that are not negative. *)
Definition slice (p : ustring) (i j : Z) : ustring :=
  take (Z.to_nat j - Z.to_nat i) (drop (Z.to_nat i) p).

(** [posixpath.basename]. *)
Definition basename (p : ustring) : ustring :=
  let i := rfind ch_slash p + 1 in
  drop (Z.to_nat i) p.

(** [posixpath.splitext]: the extension starts at the last period of the
    last component, unless only periods come before it there. *)
Definition splitext (p : ustring) : ustring * ustring :=
  let sepIndex := rfind ch_slash p in
  let dotIndex := rfind ch_period p in
  if sepIndex <? dotIndex then
    let filenameIndex := sepIndex + 1 in
    if forallb (N.eqb ch_period) (slice p filenameIndex dotIndex)
    then (p, [])
    else (take (Z.to_nat dotIndex) p, drop (Z.to_nat dotIndex) p)
  else (p, []).

(** [os.path.splitext(os.path.basename(file_path))[0]]. *)
Definition stem (file_path : ustring) : ustring :=
  (splitext (basename file_path)).1.

End Posix.

(** ** main.py: the rows a run works on *)

Module SequentialSpec.
Import Py Checkpoint Eff Licenses.

(** The row at [idx] passes the checks of the loop body, so that the
    service is asked about it: it is not before the checkpoint, its
    expiration is recent and its names are usable. *)
Definition eligible (decimal : N -> option N) (start : Z) (idx : nat) (r : row)
    : bool :=
  negb (Z.of_nat idx <? start)
  && recent_expiration decimal r
  && usable_names (strip (get r "First Name")) (strip (get r "Last Name")).

(** [str(e)] of the [NameError] that [out_csv.flush()] raises. *)
Definition name_error : ustring := u "name 'out_csv' is not defined".

End SequentialSpec.

(** ** main-parallel.py: the rows a run works on and the rows it finds *)

Module BatchSpec.
Import Py Checkpoint Eff Licenses RunSpec.




End BatchSpec.

(** ** main-test.py: the test mode of the sequential scheduler

    [save_progress], [load_progress] and the retry loop of
    [search_legacy_obituary] are those of [main.py]; the world is the
    same. *)

Module MainTest.
Import Py Checkpoint Eff Licenses.

(** [str(n)] for an index. *)
Definition str_of_nat (n : nat) : ustring :=
  u (NilZero.string_of_uint (Nat.to_uint n)).

(** The truth value of an argument that is an [int] or [None]. *)
Definition truthy (n : option Z) : bool :=
  match n with
  | None => false
  | Some z => negb (z =? 0)
  end.

(** [fail_at_index and idx == fail_at_index], as a truth value. *)
Definition force_fail (fail_at_index : option Z) (idx : nat) : bool :=
  match fail_at_index with
  | None => false
  | Some f => negb (f =? 0) && (Z.of_nat idx =? f)
  end.

Section Run.

Variable str_lower : ustring -> ustring.
Variable decimal : N -> option N.
Variable stem : ustring -> ustring.
Variable clock : nat -> ustring.
Variable http : nat -> nat -> reply.

Definition search_legacy_obituary (idx : nat) (first_name last_name : ustring)
    (max_retries : nat) (force_fail_at : option nat) : M Main.world bool :=
  match force_fail_at with
  | Some i => raise (u "Forced failure for testing at index " ++ str_of_nat i)
  | None =>
      Main.attempts str_lower http idx first_name last_name max_retries
        max_retries 0
  end.

(** The body of [for idx, row in enumerate(rows)]; [None] is the
    [return False] of the exception handler, [Some] carries the counters
    out of a loop that ran to its end or to its [break]. *)
Fixpoint rows_loop (file_path : ustring) (start_idx : json) (end_idx : Z)
    (fail_at_index : option Z) (idx : nat) (rows : list row)
    (total_found total_processed : Z) : M Main.world (option (Z * Z)) :=
  match rows with
  | [] => mret (Some (total_found, total_processed))
  | row :: rest =>
      let continue :=
        rows_loop file_path start_idx end_idx fail_at_index (S idx) rest in
      match as_int start_idx with
      | None => raise (u "'<' not supported between instances of 'int' and 'str'")
      | Some start =>
      if Z.of_nat idx <? start then continue total_found total_processed
      else if end_idx <=? Z.of_nat idx then
        mret (Some (total_found, total_processed))           (* break *)
      else if negb (recent_expiration decimal row) then
        continue total_found total_processed
      else
        let first_name := strip (get row "First Name") in
        let last_name := strip (get row "Last Name") in
        if negb (usable_names first_name last_name) then
          continue total_found total_processed
        else
          r ← try_except
                 (found ← search_legacy_obituary idx first_name last_name 3
                            (if force_fail fail_at_index idx then Some idx
                             else None);
                  let total_processed := total_processed + 1 in
                  total_found ←
                    (if found : bool then
                       Main.writerow row;;           (* and output_file.flush() *)
                       mret (total_found + 1)
                     else mret total_found);
                  (if total_processed `mod` 3 =? 0 then
                     Main.save stem clock file_path (Z.of_nat idx)
                       (counters total_found total_processed)
                   else mret tt);;
                  mret (Some (total_found, total_processed)))
                 (fun e =>
                    Main.save stem clock file_path (Z.of_nat idx)
                      (counters total_found total_processed
                         ++ [(u "error", JStr e)]);;
                    mret None);
          match r with
          | None => mret None
          | Some (total_found, total_processed) =>
              Main.emit (Sleep Jitter);;
              continue total_found total_processed
          end
      end
  end.

(** [end_idx]: the end of the window of [max_entries] rows from the
    checkpoint on, or the number of rows.  [start_idx + max_entries] is a
    [TypeError] when the checkpoint holds a string. *)
Definition window_end (start_idx : json) (max_entries : option Z)
    (total_rows : Z) : M Main.world Z :=
  if truthy max_entries then
    match as_int start_idx with
    | None =>
        raise (u "can only concatenate str (not " ++ [34%N] ++ u "int"
                 ++ [34%N] ++ u ") to str")
    | Some start =>
        if start + default 0 max_entries <? total_rows
        then mret (start + default 0 max_entries)
        else mret total_rows
    end
  else mret total_rows.

Definition test_mode_process_licenses (file_path : ustring) (rows : list row)
    (fail_at_index max_entries : option Z) : M Main.world bool :=
  start_idx ← gets (fun w => load_progress stem (Main.files w) file_path);
  end_idx ← window_end start_idx max_entries (Z.of_nat (length rows));
  r ← rows_loop file_path start_idx end_idx fail_at_index 0 rows 0 0;
  match r with
  | None => mret false
  | Some (total_found, total_processed) =>
      Main.save stem clock file_path end_idx
        (counters total_found total_processed ++ [(u "completed", JBool true)]);;
      mret true
  end.

End Run.

End MainTest.

(** ** main-test.py: the window of a test run *)

Module TestSpec.
Import Py Checkpoint Eff Licenses RunSpec.

(** The index at which a test run from checkpoint [K] stops. *)
Definition end_of_window (K : Z) (max_entries : option Z) (total_rows : nat) : Z :=
  if MainTest.truthy max_entries
     && (K + default 0 max_entries <? Z.of_nat total_rows)
  then K + default 0 max_entries
  else Z.of_nat total_rows.

(** The row at [i], counted from [offset] in [rows], may be asked about:
    it is eligible, before the end of the window, and not the row of the
    forced failure. *)
Definition in_window (decimal : N -> option N) (K end_idx : Z)
    (fail_at_index : option Z) (rows : list row) (offset : nat) (i : nat)
    : Prop :=
  ∃ j r,
    i = (offset + j)%nat ∧ rows !! j = Some r
    ∧ SequentialSpec.eligible decimal K i r = true
    ∧ Z.of_nat i < end_idx
    ∧ MainTest.force_fail fail_at_index i = false.

(** A stretch of a test run over [rows], from the counters [tf] and [tp]
    and the world [w], with the outcome [out]: the log and the written
    rows only grow, the requests are for rows of the window, the rows
    written are rows of the input, and the counters that the loop hands
    on, or saves with an error, account for them. *)
Definition accounted (decimal : N -> option N) (K end_idx : Z)
    (fail_at_index : option Z) (rows : list row) (offset : nat) (tf tp : Z)
    (w : Main.world) (out : result (option (Z * Z)) * Main.world) : Prop :=
  ∃ evs new,
    Main.log out.2 = Main.log w ++ evs
    ∧ Main.written out.2 = Main.written w ++ new
    ∧ Forall (in_window decimal K end_idx fail_at_index rows offset)
        (requested evs)
    ∧ Forall (λ r, r ∈ rows) new
    ∧ match out.1 with
      | Ok (Some (tf', tp')) =>
          tf' = tf + Z.of_nat (length new) ∧ tf' - tf ≤ tp' - tp
      | Ok None =>
          ∃ pre i tf' tp' msg,
            Main.log out.2
            = pre ++ [Saved i (counters tf' tp' ++ [(u "error", JStr msg)])]
            ∧ tf' = tf + Z.of_nat (length new) ∧ tf' - tf ≤ tp' - tp
      | Raise _ => False
      end.

End TestSpec.

(** * Properties *)

(** ** The name normalizer and the name matcher *)

Module NameFacts.
Import Py FilterResults MatchSpec Examples.

Lemma Forall_bool_filter {A} (P : A → Prop) (f : A → bool) (l : list A) :
  Forall P l → Forall P (List.filter f l).
Proof.
  induction 1 as [|x l Hx Hl IH]; simpl; [constructor|].
  destruct (f x); [by constructor | done].
Qed.

Lemma re_split_go_tokens cls cur in_run s :
  Forall (λ c, cls c = false) cur →
  Forall (Forall (λ c, cls c = false)) (re_split_go cls cur in_run s).
Proof.
  revert cur in_run.
  induction s as [|c s IH]; intros cur in_run Hcur; simpl.
  - repeat constructor. by apply Forall_rev.
  - destruct (cls c) eqn:Hc.
    + destruct in_run.
      * apply IH. constructor.
      * constructor; [by apply Forall_rev | apply IH; constructor].
    + apply IH. by constructor.
Qed.

Lemma join_space_chars parts :
  Forall (Forall (λ c, name_sep c = false)) parts →
  Forall token_or_space (join (u " ") parts).
Proof.
  induction 1 as [|p ps Hp Hps IH]; [constructor|].
  assert (Forall token_or_space p) as Hp'.
  { eapply Forall_impl; [exact Hp|]. intros c Hc Hs. congruence. }
  destruct ps as [|q ps]; [exact Hp'|].
  change (Forall token_or_space (p ++ u " " ++ join (u " ") (q :: ps))).
  apply Forall_app; split; [exact Hp'|].
  apply Forall_app; split; [|exact IH].
  repeat constructor.
Qed.

Lemma normalize_name_chars nfkd name :
  Forall token_or_space (normalize_name nfkd name).
Proof.
  unfold normalize_name. destruct name as [|c name]; [constructor|].
  apply join_space_chars.
  apply Forall_bool_filter.
  apply re_split_go_tokens. constructor.
Qed.

Lemma token_or_space_no_hyphen s :
  Forall token_or_space s → has_char ch_hyphen s = false.
Proof.
  induction 1 as [|c s Hc Hs IH]; [done|].
  unfold has_char in *. cbn [existsb]. rewrite IH, orb_false_r.
  apply N.eqb_neq. intros <-.
  specialize (Hc eq_refl). discriminate Hc.
Qed.

Lemma first_equal_Some lv ov v :
  first_equal lv ov = Some v → v ∈ lv ∧ v ∈ ov.
Proof.
  induction lv as [|[lf ll] lv IH]; simpl; [done|].
  destruct (existsb _ ov) eqn:Hex.
  - intros [= <-]. split; [left|].
    apply existsb_exists in Hex as ([o1 o2] & Hin & Heq).
    apply andb_prop in Heq as [H1 H2].
    apply bool_decide_eq_true in H1, H2. simpl in *. subst.
    by apply list_elem_of_In.
  - intros H. destruct (IH H). split; [by right|done].
Qed.

Lemma first_equal_None lv ov v :
  first_equal lv ov = None → v ∈ lv → v ∉ ov.
Proof.
  induction lv as [|[lf ll] lv IH]; simpl; [by inversion 2|].
  destruct (existsb _ ov) eqn:Hex; [done|].
  intros Hnone Hin Hov.
  apply elem_of_cons in Hin as [->|Hin]; [|by eapply IH].
  assert (existsb
            (λ o, bool_decide (lf = o.1) && bool_decide (ll = o.2)) ov = true)
    as Htrue; [|congruence].
  apply existsb_exists. exists (lf, ll). split; [by apply list_elem_of_In|].
  simpl. by rewrite !bool_decide_eq_true_2.
Qed.

Lemma attempt_strategy_Some nfkd s first last obit v :
  attempt_strategy nfkd s first last obit = Some v →
  succeeds nfkd s first last obit v.
Proof.
  unfold attempt_strategy, succeeds.
  destruct (compared_with s obit) as [p|]; simpl; [|done].
  intros Hf. apply first_equal_Some in Hf. destruct Hf. by exists p.
Qed.

Lemma attempt_strategy_None nfkd s first last obit v :
  attempt_strategy nfkd s first last obit = None →
  ¬ succeeds nfkd s first last obit v.
Proof.
  unfold attempt_strategy, succeeds.
  intros Hnone (p & Hp & Hin & Hov). rewrite Hp in Hnone. simpl in Hnone.
  by eapply first_equal_None.
Qed.

(** [check_name_match] tries the strategies one after the other. *)
Lemma check_name_match_strategies nfkd first last obit :
  obit ≠ ∅ →
  check_name_match nfkd first last obit =
    match attempt_strategy nfkd Exact first last obit with
    | Some v => (true, match_reason (label Exact) v)
    | None =>
    match attempt_strategy nfkd MiddleAsFirst first last obit with
    | Some v => (true, match_reason (label MiddleAsFirst) v)
    | None =>
    match attempt_strategy nfkd NicknameAsFirst first last obit with
    | Some v => (true, match_reason (label NicknameAsFirst) v)
    | None =>
    match attempt_strategy nfkd MaidenAsLast first last obit with
    | Some v => (true, match_reason (label MaidenAsLast) v)
    | None =>
        (false, no_match_reason first last (get obit "firstName") (get obit "lastName"))
    end end end end.
Proof.
  intros Hne. unfold check_name_match, attempt_strategy, compared_with, present.
  rewrite bool_decide_eq_false_2 by done.
  simpl.
  destruct (bool_decide (get obit "middleName" = []));
    destruct (bool_decide (get obit "nickName" = []));
    destruct (bool_decide (get obit "maidenName" = [])); reflexivity.
Qed.

(** C10: a normalized name holds no hyphen (a character that the splitting
    pattern treats as a separator can only be the single space between two
    tokens), and the variations of a pair of names are the one-element
    list of the normalized pair: the hyphen branches add nothing. *)
Theorem normalize_name_no_hyphen_single_variation
    (nfkd : ustring → ustring) (first last : ustring) :
  (∀ name, Forall token_or_space (normalize_name nfkd name)
           ∧ has_char ch_hyphen (normalize_name nfkd name) = false)
  ∧ get_name_variations nfkd first last
    = [(normalize_name nfkd first, normalize_name nfkd last)].
Proof.
  assert (∀ name, has_char ch_hyphen (normalize_name nfkd name) = false) as Hno.
  { intros name. apply token_or_space_no_hyphen, normalize_name_chars. }
  split.
  - intros name. split; [apply normalize_name_chars | apply Hno].
  - unfold get_name_variations. rewrite !Hno. simpl.
    rewrite bool_decide_eq_false_2 by set_solver. done.
Qed.

(** C2: on the candidate ("Anne-Marie", "Lee") and the record
    {firstName: "Marie", lastName: "Lee"} the code finds no match: the
    only variation of the candidate is ("anne marie", "lee"). *)
Theorem anne_marie_lee_no_match :
  get_name_variations nfkd_latin (u "Anne-Marie") (u "Lee")
    = [(u "anne marie", u "lee")]
  ∧ check_name_match nfkd_latin (u "Anne-Marie") (u "Lee")
      (<["firstName" := u "Marie"]> (<["lastName" := u "Lee"]> ∅))
    = (false, u "No match found. License: Anne-Marie Lee, Obit: Marie Lee").
Proof. split; vm_compute; reflexivity. Qed.

(** C6, as the code has it: on a name record that is not empty,
    [check_name_match] answers with the first strategy, in the order
    exact, middle-as-first, nickname-as-first, maiden-as-last, that
    succeeds (a strategy whose field is absent does not), and its reason
    names that strategy and the matching variation; when no strategy
    succeeds the answer is negative and its reason carries the candidate's
    names and the record's first and last name. *)
Theorem check_name_match_priority
    (nfkd : ustring → ustring) (first last : ustring)
    (obit : gmap string ustring) :
  obit ≠ ∅ →
  (∃ s v,
      succeeds nfkd s first last obit v
      ∧ (∀ s' v', (priority s' < priority s)%nat → ¬ succeeds nfkd s' first last obit v')
      ∧ check_name_match nfkd first last obit = (true, match_reason (label s) v))
  ∨ ((∀ s v, ¬ succeeds nfkd s first last obit v)
     ∧ check_name_match nfkd first last obit
       = (false,
          no_match_reason first last (get obit "firstName") (get obit "lastName"))).
Proof.
  intros Hne. rewrite check_name_match_strategies by done.
  destruct (attempt_strategy nfkd Exact first last obit) as [v|] eqn:H0.
  { left. exists Exact, v. split; [by apply attempt_strategy_Some|].
    split; [|done]. intros s' v' Hlt. destruct s'; simpl in Hlt; lia. }
  destruct (attempt_strategy nfkd MiddleAsFirst first last obit) as [v|] eqn:H1.
  { left. exists MiddleAsFirst, v. split; [by apply attempt_strategy_Some|].
    split; [|done]. intros s' v' Hlt.
    destruct s'; simpl in Hlt; try lia; by apply attempt_strategy_None. }
  destruct (attempt_strategy nfkd NicknameAsFirst first last obit) as [v|] eqn:H2.
  { left. exists NicknameAsFirst, v. split; [by apply attempt_strategy_Some|].
    split; [|done]. intros s' v' Hlt.
    destruct s'; simpl in Hlt; try lia; by apply attempt_strategy_None. }
  destruct (attempt_strategy nfkd MaidenAsLast first last obit) as [v|] eqn:H3.
  { left. exists MaidenAsLast, v. split; [by apply attempt_strategy_Some|].
    split; [|done]. intros s' v' Hlt.
    destruct s'; simpl in Hlt; try lia; by apply attempt_strategy_None. }
  right. split; [|done].
  intros s v. destruct s; by apply attempt_strategy_None.
Qed.

Lemma check_name_match_priority_witness :
  bob_record ≠ ∅
  ∧ ((∃ s v,
         succeeds nfkd_latin s (u "Robert") (u "Smith") bob_record v
         ∧ (∀ s' v', (priority s' < priority s)%nat →
                     ¬ succeeds nfkd_latin s' (u "Robert") (u "Smith") bob_record v')
         ∧ check_name_match nfkd_latin (u "Robert") (u "Smith") bob_record
           = (true, match_reason (label s) v))
     ∨ ((∀ s v, ¬ succeeds nfkd_latin s (u "Robert") (u "Smith") bob_record v)
        ∧ check_name_match nfkd_latin (u "Robert") (u "Smith") bob_record
          = (false,
             no_match_reason (u "Robert") (u "Smith")
               (get bob_record "firstName") (get bob_record "lastName")))).
Proof.
  split.
  - apply insert_non_empty.
  - apply (check_name_match_priority nfkd_latin (u "Robert") (u "Smith") bob_record).
    apply insert_non_empty.
Defined.

(** C6 fails on the empty name record, which [filter_possibilities] passes
    for an obituary without a name: the guard answers "No name object",
    a reason that carries no name. *)
Lemma empty_record_no_name_object :
  check_name_match nfkd_latin (u "Mary") (u "Jones") ∅
  = (false, u "No name object")
  ∧ check_name_match nfkd_latin (u "Mary") (u "Jones") ∅
    ≠ (false,
       no_match_reason (u "Mary") (u "Jones") (get ∅ "firstName") (get ∅ "lastName")).
Proof. split; [reflexivity | vm_compute; discriminate]. Qed.

Example robert_smith_nickname :
  check_name_match nfkd_latin (u "Robert") (u "Smith") bob_record
  = (true, u "Nickname match: robert smith").
Proof. vm_compute. reflexivity. Qed.

Example normalize_jose_maria :
  normalize_name nfkd_latin (u "Dr. Jos" ++ [233%N] ++ u "-Mar" ++ [237%N] ++ u "a")
  = u "jose maria".
Proof. vm_compute. reflexivity. Qed.

End NameFacts.

(** ** The expiration filter *)

Module DateFacts.
Import Py Licenses DateSpec Examples.

Lemma digit_facts c :
  is_digit c = true →
  isspace c = false ∧ c_isspace c = false
  ∧ (c =? ch_slash)%N = false ∧ (c =? ch_hyphen)%N = false
  ∧ (c =? 43)%N = false ∧ (c =? 45)%N = false ∧ (c <? 127)%N = true.
Proof.
  unfold is_digit, isspace, c_isspace, ch_slash, ch_hyphen. intros H.
  apply andb_prop in H as [H1 H2].
  apply N.leb_le in H1, H2.
  repeat split;
    repeat match goal with
    | |- _ || _ = false => apply orb_false_intro
    | |- _ && _ = false => apply andb_false_iff
    end;
    try (apply N.eqb_neq; lia); try (apply N.ltb_lt; lia);
    try (left; apply N.leb_gt; lia); try (right; apply N.leb_gt; lia).
Qed.

Lemma lstrip_keep c s : isspace c = false → lstrip (c :: s) = c :: s.
Proof. intros H. simpl. by rewrite H. Qed.

Lemma strip_keep s c1 c2 s1 s2 :
  s = c1 :: s1 → s = s2 ++ [c2] →
  isspace c1 = false → isspace c2 = false → strip s = s.
Proof.
  intros E1 E2 H1 H2. unfold strip, rstrip.
  rewrite E1, lstrip_keep by done. rewrite <- E1, E2.
  rewrite rev_app_distr. simpl. rewrite H2.
  change (rev (c2 :: rev s2) = s2 ++ [c2]).
  simpl. by rewrite rev_involutive.
Qed.

Lemma has_char_app c s1 s2 :
  has_char c (s1 ++ s2) = has_char c s1 || has_char c s2.
Proof. unfold has_char. apply existsb_app. Qed.

Lemma has_char_digits c s :
  is_digit c = false → Forall (λ d, is_digit d = true) s → has_char c s = false.
Proof.
  intros Hc. induction 1 as [|d s Hd Hs IH]; [done|].
  unfold has_char in *. cbn [existsb]. rewrite IH, orb_false_r.
  apply N.eqb_neq. intros <-. congruence.
Qed.

Lemma split_go_whole sep cur s :
  has_char sep s = false → split_go sep cur s = [rev cur ++ s].
Proof.
  revert cur. induction s as [|c s IH]; intros cur H; simpl.
  - by rewrite app_nil_r.
  - unfold has_char in H. cbn [existsb] in H.
    apply orb_false_elim in H as [H1 H2].
    rewrite N.eqb_sym, H1. rewrite IH by done.
    simpl. by rewrite <- app_assoc.
Qed.

Lemma split_go_last sep cur s1 s2 :
  has_char sep s2 = false →
  last_item (split_go sep cur (s1 ++ sep :: s2)) = Some s2.
Proof.
  intros H. revert cur. induction s1 as [|c s1 IH]; intros cur; simpl.
  - rewrite N.eqb_refl. rewrite split_go_whole by done. done.
  - destruct (c =? sep)%N.
    + unfold last_item in *. specialize (IH []).
      destruct (split_go sep [] (s1 ++ sep :: s2)); [done|]. exact IH.
    + apply IH.
Qed.

Lemma digits_go_digits acc s :
  Forall (λ c, is_digit c = true) s →
  digits_go acc false s = Some (fold_left (λ a c, 10 * a + (Z.of_N c - 48)) s acc).
Proof.
  intros H. revert acc. induction H as [|c s Hc Hs IH]; intros acc; simpl; [done|].
  rewrite Hc. apply IH.
Qed.

(** [int] of a non-empty string of ASCII digits is the number it denotes,
    whatever the table of the other decimal digits. *)
Lemma int_digits decimal s :
  s ≠ [] → Forall (λ c, is_digit c = true) s →
  int decimal s = Some (number_of s).
Proof.
  intros Hne Hs.
  assert (List.map (to_ascii decimal) s = s) as Hmap.
  { clear Hne. induction Hs as [|c s Hc Hs IH]; simpl; [done|].
    rewrite IH. unfold to_ascii.
    destruct (digit_facts c Hc) as (_ & _ & _ & _ & _ & _ & ->). done. }
  unfold int. rewrite Hmap.
  destruct s as [|c s]; [done|].
  pose proof Hs as Hs'. apply Forall_cons in Hs' as [Hc Hs'].
  destruct (digit_facts c Hc) as (_ & Hb & _ & _ & Hplus & Hminus & _).
  cbn [skip_blanks]. rewrite Hb, Hplus, Hminus.
  assert (rev (skip_blanks (rev (c :: s))) = c :: s) as ->.
  { destruct (exists_last (l := c :: s)) as (s2 & c2 & E); [done|].
    rewrite E in Hs. rewrite E.
    apply Forall_app in Hs as [_ Hc2]. apply Forall_cons in Hc2 as [Hc2 _].
    destruct (digit_facts c2 Hc2) as (_ & Hb2 & _).
    rewrite rev_app_distr. cbn [rev app skip_blanks]. rewrite Hb2.
    change (rev (c2 :: rev s2) = s2 ++ [c2]).
    simpl. by rewrite rev_involutive. }
  unfold digits. rewrite Hc.
  rewrite digits_go_digits by (by constructor). done.
Qed.

Lemma expiration_year_trailing decimal sep s1 yyyy :
  sep = ch_slash ∨ (sep = ch_hyphen ∧ has_char ch_slash s1 = false) →
  yyyy ≠ [] → Forall (λ c, is_digit c = true) yyyy →
  expiration_year decimal (s1 ++ sep :: yyyy) = Some (number_of yyyy).
Proof.
  intros Hsep Hne Hy. unfold expiration_year.
  assert (has_char ch_slash yyyy = false) as Hy1 by by apply has_char_digits.
  assert (has_char ch_hyphen yyyy = false) as Hy2 by by apply has_char_digits.
  rewrite !has_char_app.
  destruct Hsep as [->|[-> Hs1]].
  - replace (has_char ch_slash (ch_slash :: yyyy)) with true by done.
    rewrite orb_true_r. unfold split. rewrite split_go_last by done.
    simpl. by apply int_digits.
  - rewrite Hs1.
    replace (has_char ch_slash (ch_hyphen :: yyyy)) with false
      by (symmetry; exact Hy1).
    replace (has_char ch_hyphen (ch_hyphen :: yyyy)) with true by done.
    rewrite orb_true_r. unfold split. rewrite split_go_last by done.
    simpl. by apply int_digits.
Qed.

(** C5, as the code has it: when the expiration date is MM/DD/YYYY or
    MM-DD-YYYY, the year being the trailing component, the row passes
    the expiration check exactly when that year is greater than 2023. *)
Theorem trailing_year_decides
    (decimal : N → option N) (r : row) (sep : N) (mm dd yyyy : ustring) :
  sep = ch_slash ∨ sep = ch_hyphen →
  digit_string 2 mm → digit_string 2 dd → digit_string 4 yyyy →
  get r "Expiration Date" = month_day_year sep mm dd yyyy →
  recent_expiration decimal r = bool_decide (2023 < number_of yyyy).
Proof.
  intros Hsep [Lm Hm] [Ld Hd] [Ly Hy] Hfield.
  unfold recent_expiration. rewrite Hfield.
  destruct mm as [|m1 [|m2 [|]]]; try discriminate Lm.
  destruct dd as [|d1 [|d2 [|]]]; try discriminate Ld.
  destruct yyyy as [|y1 [|y2 [|y3 [|y4 [|]]]]]; try discriminate Ly.
  apply Forall_cons in Hm as [Hm1 Hm]. apply Forall_cons in Hm as [Hm2 _].
  pose proof Hy as Hy'.
  apply Forall_cons in Hy' as [_ Hy']. apply Forall_cons in Hy' as [_ Hy'].
  apply Forall_cons in Hy' as [_ Hy']. apply Forall_cons in Hy' as [Hy4 _].
  destruct (digit_facts m1 Hm1) as (Hsp1 & _).
  destruct (digit_facts y4 Hy4) as (Hsp4 & _).
  rewrite (strip_keep (month_day_year sep [m1; m2] [d1; d2] [y1; y2; y3; y4])
             m1 y4 ([m2; sep; d1; d2; sep; y1; y2; y3; y4])
             ([m1; m2; sep; d1; d2; sep; y1; y2; y3]))
    by done.
  change (month_day_year sep [m1; m2] [d1; d2] [y1; y2; y3; y4])
    with ([m1; m2; sep; d1; d2] ++ sep :: [y1; y2; y3; y4]).
  rewrite expiration_year_trailing; [| |done|done].
  - cbn [app]. destruct (Z.leb_spec (number_of [y1; y2; y3; y4]) 2023).
    + by rewrite bool_decide_eq_false_2 by lia.
    + by rewrite bool_decide_eq_true_2 by lia.
  - destruct Hsep as [->| ->]; [by left|right]. split; [done|].
    apply Forall_cons in Hd as [Hd1 Hd]. apply Forall_cons in Hd as [Hd2 _].
    destruct (digit_facts m1 Hm1) as (_ & _ & E1 & _).
    destruct (digit_facts m2 Hm2) as (_ & _ & E2 & _).
    destruct (digit_facts d1 Hd1) as (_ & _ & E3 & _).
    destruct (digit_facts d2 Hd2) as (_ & _ & E4 & _).
    unfold has_char. cbn [existsb].
    rewrite !(N.eqb_sym ch_slash), E1, E2, E3, E4. done.
Qed.

Lemma trailing_year_decides_witness :
  (ch_slash = ch_slash ∨ ch_slash = ch_hyphen)
  ∧ digit_string 2 (u "01") ∧ digit_string 2 (u "31") ∧ digit_string 4 (u "2025")
  ∧ get (license "Ada" "Stone" "01/31/2025") "Expiration Date"
    = month_day_year ch_slash (u "01") (u "31") (u "2025")
  ∧ recent_expiration ascii_decimal (license "Ada" "Stone" "01/31/2025")
    = bool_decide (2023 < number_of (u "2025")).
Proof.
  assert (digit_string 2 (u "01")) as H1 by (split; [reflexivity | repeat constructor]).
  assert (digit_string 2 (u "31")) as H2 by (split; [reflexivity | repeat constructor]).
  assert (digit_string 4 (u "2025")) as H3 by (split; [reflexivity | repeat constructor]).
  assert (get (license "Ada" "Stone" "01/31/2025") "Expiration Date"
          = month_day_year ch_slash (u "01") (u "31") (u "2025")) as H4
    by (vm_compute; reflexivity).
  refine (conj (or_introl eq_refl) (conj H1 (conj H2 (conj H3 (conj H4 _))))).
  exact (trailing_year_decides ascii_decimal (license "Ada" "Stone" "01/31/2025")
           ch_slash (u "01") (u "31") (u "2025") (or_introl eq_refl) H1 H2 H3 H4).
Defined.

(** C5 fails on YYYY-MM-DD: the trailing component of 2025-06-30 is the
    day, 30, so the row is dropped although its year is 2025. *)
Lemma year_month_day_dropped :
  digit_string 4 (u "2025") ∧ digit_string 2 (u "06") ∧ digit_string 2 (u "30")
  ∧ get (license "Ada" "Stone" "2025-06-30") "Expiration Date"
    = year_month_day (u "2025") (u "06") (u "30")
  ∧ expiration_year ascii_decimal (u "2025-06-30") = Some 30
  ∧ recent_expiration ascii_decimal (license "Ada" "Stone" "2025-06-30") = false
  ∧ bool_decide (2023 < number_of (u "2025")) = true.
Proof.
  repeat split; try (repeat constructor); vm_compute; reflexivity.
Qed.

End DateFacts.

(** ** The checkpoint store *)

Module CheckpointFacts.
Import Py Checkpoint Licenses Examples.

Lemma dict_set_fresh d k v : k ∉ keys d → dict_set d k v = d ++ [(k, v)].
Proof.
  induction d as [|[k' w] d IH]; simpl; [done|].
  intros Hk. apply not_elem_of_cons in Hk as [Hne Hk].
  rewrite bool_decide_eq_false_2 by done. by rewrite IH.
Qed.

Lemma dict_get_set d k v key :
  dict_get (dict_set d k v) key
  = if bool_decide (k = key) then Some v else dict_get d key.
Proof.
  induction d as [|[k' w] d IH]; simpl.
  - done.
  - destruct (bool_decide (k' = k)) eqn:E; simpl.
    + apply bool_decide_eq_true in E as ->.
      destruct (bool_decide (k = key)); done.
    + rewrite IH. destruct (bool_decide (k' = key)) eqn:E'; [|done].
      apply bool_decide_eq_true in E' as ->.
      apply bool_decide_eq_false in E.
      rewrite bool_decide_eq_false_2 by done. done.
Qed.

Lemma dict_get_update base other key :
  dict_get other key = None →
  dict_get (dict_update base other) key = dict_get base key.
Proof.
  unfold dict_update. revert base.
  induction other as [|[k v] other IH]; intros base; simpl; [done|].
  destruct (bool_decide (k = key)) eqn:E; [done|].
  intros H. rewrite IH by done. rewrite dict_get_set, E. done.
Qed.

Lemma dict_set_keys d k v :
  keys (dict_set d k v) = if bool_decide (k ∈ keys d) then keys d else keys d ++ [k].
Proof.
  induction d as [|[k' w] d IH]; simpl; [done|].
  destruct (bool_decide (k' = k)) eqn:E; simpl.
  - apply bool_decide_eq_true in E as ->.
    rewrite bool_decide_eq_true_2 by left. done.
  - apply bool_decide_eq_false in E. rewrite IH.
    destruct (bool_decide (k ∈ keys d)) eqn:E'.
    + apply bool_decide_eq_true in E'.
      rewrite bool_decide_eq_true_2 by by right. done.
    + apply bool_decide_eq_false in E'.
      rewrite bool_decide_eq_false_2; [done|].
      intros [?|?]%elem_of_cons; by subst.
Qed.

Lemma dict_set_NoDup d k v : NoDup (keys d) → NoDup (keys (dict_set d k v)).
Proof.
  intros H. rewrite dict_set_keys.
  destruct (bool_decide (k ∈ keys d)) eqn:E; [done|].
  apply bool_decide_eq_false in E.
  apply NoDup_app. split; [done|]. split; [|apply NoDup_singleton].
  intros x Hx ->%list_elem_of_singleton. done.
Qed.

Lemma dict_update_NoDup base other :
  NoDup (keys base) → NoDup (keys (dict_update base other)).
Proof.
  unfold dict_update. revert base.
  induction other as [|[k v] other IH]; intros base H; simpl; [done|].
  apply IH. by apply dict_set_NoDup.
Qed.

(** Read back, the members of a dict with distinct keys are the dict. *)
Lemma rebuild_dict acc d :
  NoDup (keys (acc ++ d)) →
  fold_left (λ a kv, dict_set a kv.1 kv.2) d acc = acc ++ d.
Proof.
  revert acc. induction d as [|[k v] d IH]; intros acc H; simpl.
  - by rewrite app_nil_r.
  - assert (k ∉ keys acc) as Hk.
    { unfold keys in H. rewrite map_app in H. simpl in H.
      apply NoDup_app in H as (_ & H & _).
      intros Hin. apply (H k Hin). left. }
    rewrite dict_set_fresh by done.
    rewrite IH; rewrite <- app_assoc; done.
Qed.

Lemma load_members_items acc d :
  d ≠ [] →
  load_members acc (dump_items d ++ [CEnd])
  = Some (fold_left (λ a kv, dict_set a kv.1 kv.2) d acc).
Proof.
  revert acc. induction d as [|[k v] d IH]; intros acc Hne; [done|].
  destruct d as [|[k' v'] d]; [done|].
  transitivity
    (load_members (dict_set acc k v) (dump_items ((k', v') :: d) ++ [CEnd]));
    [reflexivity|].
  by rewrite IH.
Qed.

Lemma dump_items_no_whitespace d :
  List.filter (λ c, negb (is_whitespace c)) (dump_items d) = dump_items d.
Proof.
  induction d as [|[k v] d IH]; [done|].
  destruct d as [|kv d]; [done|].
  change (dump_items ((k, v) :: kv :: d))
    with (CAtom (JStr k) :: CKeySep :: CAtom v :: CItemSep :: dump_items (kv :: d)).
  cbn [List.filter is_whitespace negb]. by rewrite IH.
Qed.

(** [json.load] gives back what [json.dump] wrote. *)
Lemma json_load_dump d : NoDup (keys d) → json_load (json_dump d) = Some d.
Proof.
  intros H. destruct d as [|[k v] d]; [done|].
  transitivity (load_members [] (dump_items ((k, v) :: d) ++ [CEnd])).
  { unfold json_load, json_dump.
    cbn [app List.filter is_whitespace negb].
    rewrite List.filter_app, dump_items_no_whitespace.
    cbn [List.filter is_whitespace negb].
    destruct d as [|[k' v'] d]; reflexivity. }
  rewrite load_members_items by done. by rewrite rebuild_dict.
Qed.

Lemma load_members_unclosed n acc cs :
  (length cs ≤ n)%nat → CEnd ∉ cs → load_members acc cs = None.
Proof.
  revert acc cs. induction n as [|n IH]; intros acc cs Hlen Hno.
  - destruct cs; [done | simpl in Hlen; lia].
  - destruct cs as [|c1 cs]; [done|]. destruct c1 as [| | | | |v1]; try done.
    destruct v1; try done.
    destruct cs as [|c2 cs]; [done|]. destruct c2; try done.
    destruct cs as [|c3 cs]; [done|]. destruct c3 as [| | | | |v3]; try done.
    destruct cs as [|c4 cs]; [done|]. destruct c4; try done.
    + exfalso. apply Hno. rewrite !elem_of_cons. tauto.
    + cbn [load_members]. apply IH.
      * simpl in Hlen |- *. lia.
      * intros Hin. apply Hno. rewrite !elem_of_cons. tauto.
Qed.

(** A file that holds no closing brace does not decode. *)
Lemma json_load_unclosed cs : CEnd ∉ cs → json_load cs = None.
Proof.
  intros Hno. unfold json_load.
  assert (CEnd ∉ List.filter (λ c, negb (is_whitespace c)) cs) as Hf.
  { intros Hin. apply list_elem_of_In, List.filter_In in Hin as [Hin _].
    by apply Hno, list_elem_of_In. }
  destruct (List.filter _ cs) as [|c1 cs1]; [done|].
  destruct c1; try done.
  assert (CEnd ∉ cs1) as Hf1.
  { intros Hin. apply Hf. by right. }
  destruct cs1 as [|c2 cs2]; [done|].
  destruct c2, cs2;
    first [ exfalso; apply Hf1; rewrite !elem_of_cons; tauto
          | by apply (load_members_unclosed _ _ _ (le_n _)) ].
Qed.

Lemma dump_items_unclosed d : CEnd ∉ dump_items d.
Proof.
  induction d as [|[k v] d IH]; [by inversion 1|].
  destruct d as [|kv d].
  - cbn [dump_items]. rewrite !elem_of_cons, elem_of_nil. intuition discriminate.
  - change (dump_items ((k, v) :: kv :: d))
      with (CAtom (JStr k) :: CKeySep :: CAtom v :: CItemSep :: dump_items (kv :: d)).
    rewrite !elem_of_cons. intuition discriminate.
Qed.

(** A proper prefix of a dumped document does not decode. *)
Lemma json_load_partial d j :
  (j < length (json_dump d))%nat → json_load (take j (json_dump d)) = None.
Proof.
  intros Hj. apply json_load_unclosed.
  assert (∃ body, json_dump d = body ++ [CEnd] ∧ CEnd ∉ body) as (body & E & Hb).
  { destruct d as [|kv d].
    - exists [CBegin]. split; [done|].
      rewrite elem_of_cons, elem_of_nil. intuition discriminate.
    - exists ([CBegin; CIndent] ++ dump_items (kv :: d) ++ [CIndent]).
      split.
      + unfold json_dump. by rewrite <- !app_assoc.
      + pose proof (dump_items_unclosed (kv :: d)).
        rewrite !elem_of_app, !elem_of_cons, elem_of_nil. intuition discriminate. }
  rewrite E in Hj |- *. rewrite length_app in Hj. simpl in Hj.
  rewrite take_app_le by lia.
  intros Hin. apply elem_of_take in Hin as (i & Hi & _).
  apply Hb. by eapply list_elem_of_lookup_2.
Qed.

Lemma run_ops_writes (path : ustring) (cs : list chunk)
    (files : gmap ustring (list chunk)) (c0 : list chunk) :
  files !! path = Some c0 →
  run_ops (List.map (Write path) cs) files = <[path := c0 ++ cs]> files.
Proof.
  revert files c0. induction cs as [|c cs IH]; intros files c0 H.
  - cbn. rewrite app_nil_r. by rewrite insert_id.
  - change (run_ops (List.map (Write path) (c :: cs)) files)
      with (run_ops (List.map (Write path) cs)
              (<[path := default [] (files !! path) ++ [c]]> files)).
    rewrite H. cbn [default].
    rewrite (IH _ (c0 ++ [c])) by apply lookup_insert_eq.
    rewrite insert_insert_eq. by rewrite <- app_assoc.
Qed.

(** After the first [S j] operations of a save, the progress file holds
    the first [j] chunks of the new document. *)
Lemma interrupted_file (stem : ustring → ustring) (j : nat) (file_path : ustring)
    (idx : Z) (now : ustring) (additional : dict)
    (files : gmap ustring (list chunk)) :
  save_progress_interrupted stem (S j) file_path idx now additional files
  = <[progress_file stem file_path :=
        take j (json_dump (progress_data file_path idx now additional))]> files.
Proof.
  unfold save_progress_interrupted, save_progress_ops.
  cbn [take]. rewrite firstn_map. unfold run_ops at 1. cbn [fold_left apply_op].
  change (fold_left apply_op ?ops ?f) with (run_ops ops f).
  rewrite (run_ops_writes _ _ _ []) by apply lookup_insert_eq.
  by rewrite insert_insert_eq.
Qed.

Lemma progress_data_keys (file_path : ustring) (idx : Z) (now : ustring)
    (additional : dict) :
  NoDup (keys (progress_data file_path idx now additional)).
Proof.
  assert (NoDup (keys [(u "last_processed_index", JInt idx);
                       (u "timestamp", JStr now);
                       (u "file_path", JStr file_path)])) as Hbase.
  { unfold keys. cbn [List.map fst].
    apply (bool_decide_unpack _). vm_compute. exact I. }
  unfold progress_data. destruct additional; [done|].
  by apply dict_update_NoDup.
Qed.

Lemma progress_data_index (file_path : ustring) (idx : Z) (now : ustring)
    (additional : dict) :
  dict_get additional (u "last_processed_index") = None →
  dict_get (progress_data file_path idx now additional) (u "last_processed_index")
  = Some (JInt idx).
Proof.
  intros H. unfold progress_data. destruct additional as [|kv additional]; [done|].
  by rewrite dict_get_update.
Qed.

(** C9, as the code has it: [save_progress] overwrites the progress file
    in place, truncating it on opening and then writing the document chunk
    by chunk.  Interrupted before its first operation it leaves the
    previous state; interrupted after the truncation and before the last
    write it leaves a file that does not decode, which [load_progress]
    reads as index 0; run to its end it is followed by a load of the new
    index. *)
Theorem save_progress_overwrites_in_place
    (stem : ustring → ustring) (files : gmap ustring (list chunk))
    (file_path : ustring) (idx : Z) (now : ustring) (additional : dict) (k : nat) :
  dict_get additional (u "last_processed_index") = None →
  (k ≤ length (save_progress_ops stem file_path idx now additional))%nat →
  load_progress stem
    (save_progress_interrupted stem k file_path idx now additional files) file_path
  = (if bool_decide (k = 0%nat) then load_progress stem files file_path
     else if bool_decide
               (k < length (save_progress_ops stem file_path idx now additional))%nat
          then JInt 0
          else JInt idx)
  ∧ save_progress stem file_path idx now additional files
    = save_progress_interrupted stem
        (length (save_progress_ops stem file_path idx now additional))
        file_path idx now additional files.
Proof.
  intros Hadd Hk. split.
  - destruct k as [|j]; [done|].
    rewrite bool_decide_eq_false_2 by done.
    rewrite interrupted_file. unfold load_progress. rewrite lookup_insert_eq.
    unfold save_progress_ops in *. cbn [length] in *. rewrite length_map in *.
    case_bool_decide as Hlt.
    + rewrite json_load_partial by lia. done.
    + rewrite take_ge by lia.
      rewrite json_load_dump by apply progress_data_keys.
      by rewrite progress_data_index.
  - unfold save_progress, save_progress_interrupted. by rewrite firstn_all.
Qed.

Lemma save_progress_overwrites_in_place_witness :
  dict_get (counters 1 4) (u "last_processed_index") = None
  ∧ (5 ≤ length (save_progress_ops stem_id (u "x.csv") 9 (clock0 0) (counters 1 4)))%nat
  ∧ load_progress stem_id
      (save_progress_interrupted stem_id 5 (u "x.csv") 9 (clock0 0) (counters 1 4)
         (save_progress stem_id (u "x.csv") 7 (clock0 0) [] ∅))
      (u "x.csv")
    = JInt 0.
Proof.
  assert (dict_get (counters 1 4) (u "last_processed_index") = None) as H1
    by (vm_compute; reflexivity).
  assert (5 ≤ length (save_progress_ops stem_id (u "x.csv") 9 (clock0 0)
                        (counters 1 4)))%nat as H2
    by (vm_compute; lia).
  refine (conj H1 (conj H2 _)).
  exact (proj1 (save_progress_overwrites_in_place stem_id
                  (save_progress stem_id (u "x.csv") 7 (clock0 0) [] ∅)
                  (u "x.csv") 9 (clock0 0) (counters 1 4) 5 H1 H2)).
Defined.

(** C9 fails on the code: with index 7 saved, a save of index 9 that is
    interrupted right after the file is opened leaves an empty file; the
    next load reads index 0, neither the previous state nor the new one. *)
Lemma interrupted_save_loses_checkpoint :
  load_progress stem_id (save_progress stem_id (u "x.csv") 7 (clock0 0) [] ∅)
    (u "x.csv") = JInt 7
  ∧ save_progress_interrupted stem_id 1 (u "x.csv") 9 (clock0 0) (counters 1 4)
      (save_progress stem_id (u "x.csv") 7 (clock0 0) [] ∅)
    !! progress_file stem_id (u "x.csv") = Some []
  ∧ load_progress stem_id
      (save_progress_interrupted stem_id 1 (u "x.csv") 9 (clock0 0) (counters 1 4)
         (save_progress stem_id (u "x.csv") 7 (clock0 0) [] ∅))
      (u "x.csv") = JInt 0
  ∧ JInt 0 ≠ JInt 7 ∧ JInt 0 ≠ JInt 9.
Proof. repeat split; try discriminate; vm_compute; reflexivity. Qed.

End CheckpointFacts.

(** ** main.py: the sequential run *)

Module MainFacts.
Import Py Checkpoint Eff Licenses RunSpec Examples.

Lemma requested_app evs1 evs2 :
  requested (evs1 ++ evs2) = requested evs1 ++ requested evs2.
Proof.
  induction evs1 as [|e evs1 IH]; [done|].
  destruct e; simpl; by rewrite IH.
Qed.

Lemma logged_nil w : logged [] w = w.
Proof. destruct w. unfold logged. simpl. by rewrite app_nil_r. Qed.

Lemma logged_logged evs1 evs2 w :
  logged evs2 (logged evs1 w) = logged (evs1 ++ evs2) w.
Proof. unfold logged. simpl. by rewrite app_assoc. Qed.

Lemma bind_eq {S A B} (m : M S A) (k : A → M S B) s :
  (m ≫= k) s =
    match m s with
    | (Ok a, s') => k a s'
    | (Raise msg, s') => (Raise msg, s')
    end.
Proof. reflexivity. Qed.

Lemma emit_eq e w : Main.emit e w = (Ok tt, logged [e] w).
Proof. reflexivity. Qed.

Section Sequential.

Variable str_lower : ustring → ustring.
Variable decimal : N → option N.
Variable stem : ustring → ustring.
Variable clock : nat → ustring.
Variable http : nat → nat → reply.

(** A fetch only adds to the log, and asks about its own row only. *)
Lemma attempts_effect idx first_name last_name max_retries remaining attempt w :
  ∃ r evs,
    Main.attempts str_lower http idx first_name last_name max_retries
      remaining attempt w = (r, logged evs w)
    ∧ Forall (λ i, i = idx) (requested evs).
Proof.
  revert attempt w. induction remaining as [|n IH]; intros attempt w.
  - exists (Ok false), []. by rewrite logged_nil.
  - cbn [Main.attempts]. rewrite bind_eq, emit_eq.
    assert (∀ r : result bool, ∃ r' evs,
              (r, logged [Request idx first_name last_name attempt] w)
              = (r', logged evs w) ∧ Forall (λ i, i = idx) (requested evs))
      as Hstop.
    { intros r. eexists r, _. split; [done|]. by repeat constructor. }
    assert (∀ d, ∃ r evs,
              (Main.emit (Sleep d);;
               Main.attempts str_lower http idx first_name last_name
                 max_retries n (S attempt))
                (logged [Request idx first_name last_name attempt] w)
              = (r, logged evs w) ∧ Forall (λ i, i = idx) (requested evs))
      as Hgo.
    { intros d. rewrite bind_eq, emit_eq, logged_logged.
      destruct (IH (S attempt)
                  (logged ([Request idx first_name last_name attempt]
                             ++ [Sleep d]) w))
        as (r & evs & -> & Hevs).
      rewrite logged_logged. eexists r, _. split; [done|].
      rewrite requested_app. apply Forall_app. split; [|done].
      by repeat constructor. }
    destruct (http idx attempt) as [response| |].
    + destruct (status_code response =? 429).
      { destruct (Z.of_nat attempt <? Z.of_nat max_retries - 1);
          [apply Hgo | apply Hstop]. }
      destruct (status_code response =? 403); [apply Hstop|].
      destruct (contains (u "captcha") (str_lower (text response)));
        [apply Hstop|].
      destruct (negb (status_code response =? 200)); [|apply Hstop].
      destruct (Z.of_nat attempt <? Z.of_nat max_retries - 1);
        [apply Hgo | apply Hstop].
    + destruct (Z.of_nat attempt <? Z.of_nat max_retries - 1);
        [apply Hgo | apply Hstop].
    + destruct (Z.of_nat attempt <? Z.of_nat max_retries - 1);
        [apply Hgo | apply Hstop].
Qed.

Lemma resumes_refl K rows w : resumes K rows w w.
Proof. exists [], []. by rewrite !app_nil_r. Qed.

Lemma resumes_trans K rows w1 w2 w3 :
  resumes K rows w1 w2 → resumes K rows w2 w3 → resumes K rows w1 w3.
Proof.
  intros (e1 & n1 & L1 & W1 & R1 & N1) (e2 & n2 & L2 & W2 & R2 & N2).
  exists (e1 ++ e2), (n1 ++ n2).
  rewrite L2, L1, W2, W1, <- !app_assoc, requested_app.
  repeat split; try done; by apply Forall_app.
Qed.

Lemma resuming_ret {A} K rows (a : A) : resuming K rows (mret a : M Main.world A).
Proof. intros w. apply resumes_refl. Qed.

Lemma resuming_raise {A} K rows msg : resuming K rows (raise msg : M Main.world A).
Proof. intros w. apply resumes_refl. Qed.

Lemma resuming_bind {A B} K rows (m : M Main.world A) (k : A → M Main.world B) :
  resuming K rows m → (∀ a, resuming K rows (k a)) → resuming K rows (m ≫= k).
Proof.
  intros Hm Hk w. rewrite bind_eq. specialize (Hm w).
  destruct (m w) as [[a|msg] w1]; [|done].
  eapply resumes_trans; [exact Hm | apply Hk].
Qed.

Lemma resuming_try_except {A} K rows (m : M Main.world A) handler :
  resuming K rows m → (∀ e, resuming K rows (handler e)) →
  resuming K rows (try_except m handler).
Proof.
  intros Hm Hh w. unfold try_except. specialize (Hm w).
  destruct (m w) as [[a|msg] w1]; [done|].
  eapply resumes_trans; [exact Hm | apply Hh].
Qed.

Lemma resuming_gets {A} K rows (f : Main.world → A) : resuming K rows (gets f).
Proof. intros w. apply resumes_refl. Qed.

Lemma resuming_sleep K rows d : resuming K rows (Main.emit (Sleep d)).
Proof.
  intros w. exists [Sleep d], []. rewrite app_nil_r.
  repeat split; constructor.
Qed.

Lemma resuming_save K rows file_path idx additional :
  resuming K rows (Main.save stem clock file_path idx additional).
Proof.
  intros w. exists [Saved idx additional], []. rewrite app_nil_r.
  repeat split; constructor.
Qed.

Lemma resuming_writerow K rows i r :
  K ≤ Z.of_nat i → rows !! i = Some r → resuming K rows (Main.writerow r).
Proof.
  intros HK Hr w. exists [], [r]. rewrite app_nil_r.
  repeat split; [constructor|]. repeat constructor. by exists i.
Qed.

Lemma resuming_search K rows idx first_name last_name max_retries :
  K ≤ Z.of_nat idx →
  resuming K rows
    (Main.search_legacy_obituary str_lower http idx first_name last_name max_retries).
Proof.
  intros HK w. unfold Main.search_legacy_obituary.
  destruct (attempts_effect idx first_name last_name max_retries max_retries 0 w)
    as (r & evs & -> & Hevs).
  exists evs, []. rewrite app_nil_r. repeat split; [|constructor].
  eapply Forall_impl; [exact Hevs|]. by intros i ->.
Qed.

(** The loop over the rows, resumed at [K], asks about and writes rows at
    index [K] or later only. *)
Lemma rows_loop_resuming K file_path start_idx rows rest :
  as_int start_idx = Some K →
  ∀ prefix idx total_found total_processed,
    rows = prefix ++ rest → length prefix = idx →
    resuming K rows
      (Main.rows_loop str_lower decimal stem clock http file_path start_idx idx
         rest total_found total_processed).
Proof.
  intros HK. induction rest as [|row rest IH];
    intros prefix idx total_found total_processed Hrows Hlen.
  { apply resuming_ret. }
  assert (∀ tf tp,
            resuming K rows
              (Main.rows_loop str_lower decimal stem clock http file_path
                 start_idx (S idx) rest tf tp)) as Hcont.
  { intros tf tp. apply (IH (prefix ++ [row])).
    - by rewrite <- app_assoc.
    - rewrite length_app. simpl. lia. }
  assert (rows !! idx = Some row) as Hrow.
  { rewrite Hrows, <- Hlen. by rewrite list_lookup_middle. }
  cbn [Main.rows_loop]. rewrite HK.
  destruct (Z.ltb_spec (Z.of_nat idx) K) as [|Hge]; [apply Hcont|].
  destruct (negb (recent_expiration decimal row)); [apply Hcont|].
  destruct (negb (usable_names _ _)); [apply Hcont|].
  apply resuming_bind.
  - apply resuming_try_except.
    + apply resuming_bind; [by apply resuming_search|].
      intros [|].
      * apply resuming_bind; [by eapply resuming_writerow|]. intros _.
        apply resuming_bind; [apply resuming_save|]. intros _.
        apply resuming_ret.
      * apply resuming_bind.
        { destruct (_ =? 0); [apply resuming_save | apply resuming_ret]. }
        intros _. apply resuming_ret.
    + intros e. apply resuming_bind; [apply resuming_save|]. intros _.
      apply resuming_ret.
  - intros [[tf tp]|]; [|apply resuming_ret].
    apply resuming_bind; [apply resuming_sleep|]. intros _. apply Hcont.
Qed.

Lemma process_licenses_resumes K file_path rows w :
  as_int (load_progress stem (Main.files w) file_path) = Some K →
  resumes K rows w
    (Main.process_licenses str_lower decimal stem clock http file_path rows w).2.
Proof.
  intros HK. unfold Main.process_licenses.
  rewrite bind_eq. cbn [gets]. rewrite HK.
  pose proof (rows_loop_resuming K file_path _ rows rows HK [] 0%nat 0 0
                eq_refl eq_refl w) as Hloop.
  rewrite bind_eq.
  destruct (Main.rows_loop _ _ _ _ _ _ _ _ _ _ _ w) as [[[[tf tp]|]|msg] w1];
    cbn [snd] in *; try done.
  eapply resumes_trans; [exact Hloop|].
  apply (resuming_bind K rows
           (Main.save stem clock file_path (Z.of_nat (length rows))
              (counters tf tp ++ [(u "completed", JBool true)]))
           (λ _, mret true)).
  - apply resuming_save.
  - intros _. apply resuming_ret.
Qed.

(** Plain failures all the way: the fetch asks [max_retries] times, five
    seconds apart, and answers "not found". *)
Lemma attempts_retry idx first_name last_name max_retries n attempt w :
  (attempt + n = max_retries)%nat →
  (∀ a, (a < max_retries)%nat →
        plain_failure (http idx a) ∧ unchallenged str_lower (http idx a)) →
  Main.attempts str_lower http idx first_name last_name max_retries n attempt w
  = (Ok false, logged (retry_log idx first_name last_name max_retries attempt n) w).
Proof.
  intros Hsum Hsoft. revert attempt w Hsum.
  induction n as [|n IH]; intros attempt w Hsum.
  - by rewrite logged_nil.
  - cbn [Main.attempts]. rewrite bind_eq, emit_eq.
    unfold retry_log. cbn [seq flat_map].
    change (flat_map _ (seq (S attempt) n))
      with (retry_log idx first_name last_name max_retries (S attempt) n).
    assert ((if Z.of_nat attempt <? Z.of_nat max_retries - 1
             then Main.emit (Sleep (Seconds 5));;
                  Main.attempts str_lower http idx first_name last_name
                    max_retries n (S attempt)
             else mret false)
              (logged [Request idx first_name last_name attempt] w)
            = (Ok false,
               logged
                 ((Request idx first_name last_name attempt
                   :: (if Z.of_nat attempt <? Z.of_nat max_retries - 1
                       then [Sleep (Seconds 5)] else []))
                  ++ retry_log idx first_name last_name max_retries (S attempt) n)
                 w)) as Hretry.
    { destruct (Z.ltb_spec (Z.of_nat attempt) (Z.of_nat max_retries - 1)).
      - rewrite bind_eq, emit_eq, IH by lia. by rewrite !logged_logged.
      - assert (n = 0%nat) as -> by lia. done. }
    destruct (Hsoft attempt ltac:(lia)) as [Hplain Hbody].
    destruct (http idx attempt) as [response| |]; [|exact Hretry..].
    destruct Hplain as (H2xx & H429 & H403). unfold unchallenged in Hbody.
    rewrite (proj2 (Z.eqb_neq _ _) H429), (proj2 (Z.eqb_neq _ _) H403), Hbody.
    rewrite (proj2 (Z.eqb_neq (status_code response) 200)) by lia.
    exact Hretry.
Qed.

(** In [main.py] a 403 reply, or a challenge marker in the body of a
    reply that is not a 429, ends the fetch at once with an exception. *)
Lemma attempts_blocked idx first_name last_name max_retries n attempt w response :
  http idx attempt = Response response →
  status_code response ≠ 429 →
  status_code response = 403
  ∨ contains (u "captcha") (str_lower (text response)) = true →
  ∃ msg,
    Main.attempts str_lower http idx first_name last_name max_retries (S n)
      attempt w
    = (Raise msg, logged [Request idx first_name last_name attempt] w).
Proof.
  intros Hreply H429 Hblocked.
  cbn [Main.attempts]. rewrite bind_eq, emit_eq, Hreply.
  rewrite (proj2 (Z.eqb_neq _ _) H429).
  destruct (Z.eqb_spec (status_code response) 403) as [|H403].
  - by eexists.
  - destruct Hblocked as [? | ->]; [done|]. by eexists.
Qed.

(** In [main.py] a fetch answered 429 every time sleeps [2 ** attempt * 60]
    seconds between attempts and raises after the last of them. *)
Lemma attempts_rate_limited idx first_name last_name max_retries n attempt w :
  (attempt + S n = max_retries)%nat →
  (∀ a, (a < max_retries)%nat →
        ∃ response, http idx a = Response response ∧ status_code response = 429) →
  Main.attempts str_lower http idx first_name last_name max_retries (S n) attempt w
  = (Raise (u "Rate limited - max retries exceeded"),
     logged (backoff_log idx first_name last_name max_retries attempt (S n)) w).
Proof.
  intros Hsum Hall. revert attempt w Hsum.
  induction n as [|n IH]; intros attempt w Hsum;
    destruct (Hall attempt ltac:(lia)) as (response & Hreply & H429).
  - cbn [Main.attempts]. rewrite bind_eq, emit_eq, Hreply, H429.
    unfold backoff_log. cbn [seq flat_map Z.eqb Pos.eqb].
    rewrite (proj2 (Z.ltb_ge _ _)) by lia. done.
  - remember (S n) as m eqn:Hm.
    cbn [Main.attempts]. rewrite bind_eq, emit_eq, Hreply, H429.
    unfold backoff_log. cbn [seq flat_map Z.eqb Pos.eqb].
    rewrite (proj2 (Z.ltb_lt _ _)) by lia.
    rewrite bind_eq, emit_eq, logged_logged.
    subst m. rewrite IH by lia. by rewrite logged_logged.
Qed.

(** When the fetch of an eligible row raises, the run saves its progress
    with the error and returns at once: the rows after it play no part. *)
Lemma rows_loop_stops K file_path start_idx idx row rest tf tp w msg w1 :
  as_int start_idx = Some K → K ≤ Z.of_nat idx →
  recent_expiration decimal row = true →
  usable_names (strip (get row "First Name")) (strip (get row "Last Name")) = true →
  Main.search_legacy_obituary str_lower http idx
    (strip (get row "First Name")) (strip (get row "Last Name")) 3 w
  = (Raise msg, w1) →
  Main.rows_loop str_lower decimal stem clock http file_path start_idx idx
    (row :: rest) tf tp w
  = (Ok None,
     (Main.save stem clock file_path (Z.of_nat idx)
        (counters tf tp ++ [(u "error", JStr msg)]) w1).2).
Proof.
  intros HK Hge Hdate Hnames Hraise.
  cbn [Main.rows_loop]. rewrite HK, Hdate, Hnames.
  rewrite (proj2 (Z.ltb_ge _ _)) by done. cbn [negb].
  rewrite bind_eq. unfold try_except at 1. rewrite bind_eq, Hraise.
  reflexivity.
Qed.

(** When the fetch of an eligible row answers "not found", the run goes
    on with the next row. *)
Lemma rows_loop_goes_on K file_path start_idx idx row rest tf tp w w1 :
  as_int start_idx = Some K → K ≤ Z.of_nat idx →
  recent_expiration decimal row = true →
  usable_names (strip (get row "First Name")) (strip (get row "Last Name")) = true →
  Main.search_legacy_obituary str_lower http idx
    (strip (get row "First Name")) (strip (get row "Last Name")) 3 w
  = (Ok false, w1) →
  ∃ w2,
    Main.rows_loop str_lower decimal stem clock http file_path start_idx idx
      (row :: rest) tf tp w
    = Main.rows_loop str_lower decimal stem clock http file_path start_idx (S idx)
        rest tf (tp + 1) w2
    ∧ Main.written w2 = Main.written w1
    ∧ ∃ evs, Main.log w2 = Main.log w1 ++ evs ∧ requested evs = [].
Proof.
  intros HK Hge Hdate Hnames Hfetch.
  cbn [Main.rows_loop]. rewrite HK, Hdate, Hnames.
  rewrite (proj2 (Z.ltb_ge _ _)) by done. cbn [negb].
  rewrite bind_eq. unfold try_except at 1. rewrite bind_eq, Hfetch.
  rewrite bind_eq.
  destruct ((tp + 1) `mod` 10 =? 0).
  - eexists. split; [reflexivity|]. split; [done|].
    exists [Saved (Z.of_nat idx) (counters tf (tp + 1)); Sleep Jitter].
    split; [|done]. cbn. by rewrite <- app_assoc.
  - eexists. split; [reflexivity|]. split; [done|].
    exists [Sleep Jitter]. done.
Qed.

End Sequential.

End MainFacts.

(** ** main-parallel.py: the concurrent run *)

Module ParallelFacts.
Import Py Checkpoint Eff Licenses RunSpec Examples MainFacts.
Import MainParallel.

Lemma fetched_nil r s : fetched [] false false r s = s.
Proof. destruct s. unfold fetched. simpl. by rewrite app_nil_r. Qed.

Lemma fetched_fetched evs1 evs2 counted found r s :
  fetched evs2 counted found r (fetched evs1 false false r s)
  = fetched (evs1 ++ evs2) counted found r s.
Proof. unfold fetched. simpl. by rewrite app_assoc. Qed.

Lemma emit_fetched e r s : emit e s = (Ok tt, fetched [e] false false r s).
Proof. reflexivity. Qed.

Section Concurrent.

Variable str_lower : ustring → ustring.
Variable decimal : N → option N.
Variable stem : ustring → ustring.
Variable clock : nat → ustring.
Variable http : nat → nat → reply.
Variable completion : list (nat * row) → list (nat * row).

(** What a fetch returns and leaves behind does not depend on the state
    it starts in: it adds its events to the log and, if it reaches the
    locked block, counts its outcome. *)
Lemma attempts_fetched idx first_name last_name row_data max_retries remaining attempt :
  ∃ evs counted found,
    (counted = false → found = false)
    ∧ Forall (λ i, i = idx) (requested evs)
    ∧ ∀ s, attempts str_lower http idx first_name last_name row_data max_retries
             remaining attempt s
           = (Ok (found, row_data), fetched evs counted found row_data s).
Proof.
  revert attempt. induction remaining as [|n IH]; intros attempt.
  - exists [], false, false. split; [done|]. split; [constructor|].
    intros s. by rewrite fetched_nil.
  - assert (∃ evs counted found,
              (counted = false → found = false)
              ∧ Forall (λ i, i = idx) (requested evs)
              ∧ ∀ s, (mret (false, row_data) : M state (bool * row))
                       (fetched [Request idx first_name last_name attempt]
                          false false row_data s)
                     = (Ok (found, row_data), fetched evs counted found row_data s))
      as Hstop.
    { exists [Request idx first_name last_name attempt], false, false.
      split; [done|]. split; [by repeat constructor|]. done. }
    assert (∀ d, ∃ evs counted found,
              (counted = false → found = false)
              ∧ Forall (λ i, i = idx) (requested evs)
              ∧ ∀ s, (emit (Sleep d);;
                      attempts str_lower http idx first_name last_name row_data
                        max_retries n (S attempt))
                       (fetched [Request idx first_name last_name attempt]
                          false false row_data s)
                     = (Ok (found, row_data), fetched evs counted found row_data s))
      as Hgo.
    { intros d. destruct (IH (S attempt)) as (evs & counted & found & Hc & Hevs & Hrun).
      exists ([Request idx first_name last_name attempt] ++ [Sleep d] ++ evs),
        counted, found.
      split; [done|]. split.
      - rewrite !requested_app. apply Forall_app. split; [by repeat constructor|].
        done.
      - intros s. rewrite bind_eq, (emit_fetched _ row_data), fetched_fetched.
        rewrite Hrun, fetched_fetched. by rewrite <- app_assoc. }
    cbn [attempts].
    assert (∀ (m : M state (bool * row)),
              (∃ evs counted found,
                 (counted = false → found = false)
                 ∧ Forall (λ i, i = idx) (requested evs)
                 ∧ ∀ s, m (fetched [Request idx first_name last_name attempt]
                             false false row_data s)
                        = (Ok (found, row_data), fetched evs counted found row_data s)) →
              ∃ evs counted found,
                (counted = false → found = false)
                ∧ Forall (λ i, i = idx) (requested evs)
                ∧ ∀ s, (emit (Request idx first_name last_name attempt);; m) s
                       = (Ok (found, row_data), fetched evs counted found row_data s))
      as Hreq.
    { intros m (evs & counted & found & Hc & Hevs & Hrun).
      exists evs, counted, found. split; [done|]. split; [done|].
      intros s. rewrite bind_eq, (emit_fetched _ row_data). apply Hrun. }
    apply Hreq.
    destruct (http idx attempt) as [response| |].
    + destruct (status_code response =? 429); [apply Hgo|].
      destruct (status_code response =? 403); [apply Hstop|].
      destruct (contains (u "captcha") (str_lower (text response)));
        [apply Hstop|].
      destruct (negb (status_code response =? 200)).
      { destruct (Z.of_nat attempt <? Z.of_nat max_retries - 1);
          [apply Hgo | apply Hstop]. }
      exists [Request idx first_name last_name attempt], true,
        (0 <? total_record_count response).
      split; [done|]. split; [by repeat constructor|].
      intros s. rewrite bind_eq. unfold count, modify, fetched. cbn.
      by destruct (0 <? total_record_count response).
    + destruct (Z.of_nat attempt <? Z.of_nat max_retries - 1);
        [apply Hgo | apply Hstop].
    + destruct (Z.of_nat attempt <? Z.of_nat max_retries - 1);
        [apply Hgo | apply Hstop].
Qed.

(** Plain failures all the way: the concurrent fetch, too, asks
    [max_retries] times and answers "not found", counting nothing. *)
Lemma async_attempts_retry idx first_name last_name row_data max_retries n attempt s :
  (attempt + n = max_retries)%nat →
  (∀ a, (a < max_retries)%nat →
        plain_failure (http idx a) ∧ unchallenged str_lower (http idx a)) →
  attempts str_lower http idx first_name last_name row_data max_retries n attempt s
  = (Ok (false, row_data),
     fetched (retry_log idx first_name last_name max_retries attempt n)
       false false row_data s).
Proof.
  intros Hsum Hsoft. revert attempt s Hsum.
  induction n as [|n IH]; intros attempt s Hsum.
  - by rewrite fetched_nil.
  - cbn [attempts]. rewrite bind_eq, (emit_fetched _ row_data).
    unfold retry_log. cbn [seq flat_map].
    change (flat_map _ (seq (S attempt) n))
      with (retry_log idx first_name last_name max_retries (S attempt) n).
    assert ((if Z.of_nat attempt <? Z.of_nat max_retries - 1
             then emit (Sleep (Seconds 5));;
                  attempts str_lower http idx first_name last_name row_data
                    max_retries n (S attempt)
             else mret (false, row_data))
              (fetched [Request idx first_name last_name attempt] false false
                 row_data s)
            = (Ok (false, row_data),
               fetched
                 ((Request idx first_name last_name attempt
                   :: (if Z.of_nat attempt <? Z.of_nat max_retries - 1
                       then [Sleep (Seconds 5)] else []))
                  ++ retry_log idx first_name last_name max_retries (S attempt) n)
                 false false row_data s)) as Hretry.
    { destruct (Z.ltb_spec (Z.of_nat attempt) (Z.of_nat max_retries - 1)).
      - rewrite bind_eq, (emit_fetched _ row_data), IH by lia.
        by rewrite !fetched_fetched.
      - assert (n = 0%nat) as -> by lia. done. }
    destruct (Hsoft attempt ltac:(lia)) as [Hplain Hbody].
    destruct (http idx attempt) as [response| |]; [|exact Hretry..].
    destruct Hplain as (H2xx & H429 & H403). unfold unchallenged in Hbody.
    rewrite (proj2 (Z.eqb_neq _ _) H429), (proj2 (Z.eqb_neq _ _) H403), Hbody.
    rewrite (proj2 (Z.eqb_neq (status_code response) 200)) by lia.
    exact Hretry.
Qed.

(** In [main-parallel.py] a fetch answered 429 every time sleeps after
    every attempt and then answers "not found", counting nothing: no
    exception leaves the fetch. *)
Lemma async_attempts_rate_limited idx first_name last_name row_data max_retries n attempt s :
  (attempt + n = max_retries)%nat →
  (∀ a, (a < max_retries)%nat →
        ∃ response, http idx a = Response response ∧ status_code response = 429) →
  attempts str_lower http idx first_name last_name row_data max_retries n attempt s
  = (Ok (false, row_data),
     fetched (backoff_log_async idx first_name last_name attempt n)
       false false row_data s).
Proof.
  intros Hsum Hall. revert attempt s Hsum.
  induction n as [|n IH]; intros attempt s Hsum.
  - by rewrite fetched_nil.
  - destruct (Hall attempt ltac:(lia)) as (response & Hreply & H429).
    cbn [attempts]. rewrite bind_eq, (emit_fetched _ row_data), Hreply, H429.
    cbn [Z.eqb Pos.eqb].
    rewrite bind_eq, (emit_fetched _ row_data), fetched_fetched.
    rewrite IH by lia. by rewrite fetched_fetched.
Qed.

(** In [main-parallel.py] a 403 reply, or a challenge marker in the body
    of a reply that is not a 429, ends the fetch at once with the answer
    "not found". *)
Lemma async_attempts_blocked idx first_name last_name row_data max_retries n attempt s
    response :
  http idx attempt = Response response →
  status_code response ≠ 429 →
  status_code response = 403
  ∨ contains (u "captcha") (str_lower (text response)) = true →
  attempts str_lower http idx first_name last_name row_data max_retries (S n)
    attempt s
  = (Ok (false, row_data),
     fetched [Request idx first_name last_name attempt] false false row_data s).
Proof.
  intros Hreply H429 Hblocked.
  cbn [attempts]. rewrite bind_eq, (emit_fetched _ row_data), Hreply.
  rewrite (proj2 (Z.eqb_neq _ _) H429).
  destruct (Z.eqb_spec (status_code response) 403) as [|H403]; [done|].
  destruct Hblocked as [? | ->]; done.
Qed.

Lemma search_fetched max_retries idx first_name last_name row_data :
  ∃ evs counted found,
    (counted = false → found = false)
    ∧ Forall (λ i, i = idx) (requested evs)
    ∧ ∀ s, search_legacy_obituary str_lower http max_retries idx first_name
             last_name row_data s
           = (Ok (found, row_data), fetched evs counted found row_data s).
Proof.
  destruct (attempts_fetched idx first_name last_name row_data max_retries
              max_retries 0) as (evs & counted & found & Hc & Hevs & Hrun).
  exists ([Sleep Jitter] ++ evs), counted, found.
  split; [done|]. split; [done|].
  intros s. unfold search_legacy_obituary.
  rewrite bind_eq, (emit_fetched _ row_data), Hrun. by rewrite fetched_fetched.
Qed.

Lemma run_task_fetched max_retries t :
  ∃ evs counted,
    (counted = false → task_found str_lower http max_retries t = false)
    ∧ Forall (λ i, i = t.1) (requested evs)
    ∧ ∀ s, run_task str_lower http max_retries t s
           = (Ok tt, fetched evs counted (task_found str_lower http max_retries t) t.2 s).
Proof.
  destruct (search_fetched max_retries t.1 (strip (get t.2 "First Name"))
              (strip (get t.2 "Last Name")) t.2)
    as (evs & counted & found & Hc & Hevs & Hrun).
  assert (task_found str_lower http max_retries t = found) as ->.
  { unfold task_found. by rewrite Hrun. }
  exists evs, counted. split; [done|]. split; [done|].
  intros s. unfold run_task, try_except. rewrite bind_eq, Hrun. done.
Qed.

(** The tasks of a batch fill the buffer in the order in which they run. *)
Lemma run_tasks_kept ts s :
  ∃ s', run_tasks str_lower http 3 ts s = (Ok tt, s')
        ∧ results s' = results s ++ kept str_lower http ts
        ∧ output s' = output s.
Proof.
  revert s. induction ts as [|t ts IH]; intros s.
  - exists s. by rewrite app_nil_r.
  - cbn [run_tasks]. rewrite bind_eq.
    destruct (run_task_fetched 3 t) as (evs & counted & Hc & _ & Hrun).
    rewrite Hrun.
    destruct (IH (fetched evs counted (task_found str_lower http 3 t) t.2 s))
      as (s' & -> & Hres & Hout).
    exists s'. split; [done|]. rewrite Hres, Hout. split; [|done].
    unfold kept, fetched. cbn [List.filter results].
    destruct (task_found str_lower http 3 t) eqn:Hf.
    + destruct counted; [|by specialize (Hc eq_refl)].
      cbn. by rewrite <- app_assoc.
    + by rewrite andb_false_r.
Qed.

Lemma Permutation_bool_filter {A} (f : A → bool) (l1 l2 : list A) :
  l1 ≡ₚ l2 → List.filter f l1 ≡ₚ List.filter f l2.
Proof.
  induction 1 as [|x l1 l2 H IH|x y l|l1 l2 l3 H12 IH12 H23 IH23]; simpl.
  - done.
  - destruct (f x); [by constructor | done].
  - destruct (f x), (f y); try done. constructor.
  - by etrans.
Qed.

(** C3, as the code has it: the kept rows of a batch reach the output
    file in the order in which their fetches complete: each fetch appends
    its row to the buffer when it completes, and the buffer is written as
    it is.  They are the kept rows of the batch, and they are in input
    order when the fetches complete in input order. *)
Theorem batch_written_in_completion_order
    (file_path : ustring) (overwrite : bool) (batch : list (nat * row))
    (s : state) :
  (∀ l, completion l ≡ₚ l) → batch ≠ [] → results s = [] →
  output
    (batches_loop str_lower stem clock http completion file_path overwrite
       [batch] s).2
  = match kept str_lower http (completion (tasks_of batch)) with
    | [] => output s
    | rows =>
        Some ((if overwrite then [Header] else default [] (output s))
                ++ List.map Record_ rows)
    end
  ∧ kept str_lower http (completion (tasks_of batch))
    ≡ₚ kept str_lower http (tasks_of batch)
  ∧ (completion (tasks_of batch) = tasks_of batch →
     kept str_lower http (completion (tasks_of batch))
     = kept str_lower http (tasks_of batch)).
Proof.
  intros Hperm Hne Hres. split; [|split].
  - cbn [batches_loop]. unfold last_item.
    destruct (last batch) as [[last_idx r]|] eqn:Hlast;
      [|by apply last_None in Hlast].
    rewrite bind_eq. unfold process_batch.
    destruct (run_tasks_kept (completion (tasks_of batch)) s)
      as (s1 & -> & Hres1 & Hout1).
    rewrite Hres in Hres1. cbn [app] in Hres1.
    rewrite bind_eq. cbn [gets]. rewrite bind_eq. cbn [save modify].
    rewrite <- Hres1, <- Hout1.
    destruct (results s1) as [|r0 rows] eqn:Hk; reflexivity.
  - unfold kept. apply Permutation_map, Permutation_bool_filter, Hperm.
  - by intros ->.
Qed.

(** *** Resuming at a checkpoint *)

Section Resume.

Variable K : Z.
Variable rows : list row.

Lemma resumes_async_refl s : resumes_async K rows s s.
Proof.
  exists []. rewrite app_nil_r.
  split; [done|]. split; [constructor|]. split; intros r Hr; tauto.
Qed.

Lemma resumes_async_trans s1 s2 s3 :
  resumes_async K rows s1 s2 → resumes_async K rows s2 s3 →
  resumes_async K rows s1 s3.
Proof.
  intros (e1 & L1 & R1 & B1 & O1) (e2 & L2 & R2 & B2 & O2).
  exists (e1 ++ e2). rewrite L2, L1, <- app_assoc, requested_app.
  split; [done|]. split; [by apply Forall_app|]. split.
  - intros r Hr. destruct (B2 r Hr) as [Hr'|]; [|tauto]. by apply B1.
  - intros r Hr. destruct (O2 r Hr) as [Hr'|[Hr'|]]; [| |tauto].
    + by apply O1.
    + destruct (B1 r Hr'); tauto.
Qed.

Lemma resuming_async_ret {A} (a : A) :
  resuming_async K rows (mret a : M state A).
Proof. intros s. apply resumes_async_refl. Qed.

Lemma resuming_async_raise {A} msg :
  resuming_async K rows (raise msg : M state A).
Proof. intros s. apply resumes_async_refl. Qed.

Lemma resuming_async_gets {A} (f : state → A) : resuming_async K rows (gets f).
Proof. intros s. apply resumes_async_refl. Qed.

Lemma resuming_async_bind {A B} (m : M state A) (k : A → M state B) :
  resuming_async K rows m → (∀ a, resuming_async K rows (k a)) →
  resuming_async K rows (m ≫= k).
Proof.
  intros Hm Hk s. rewrite bind_eq. specialize (Hm s).
  destruct (m s) as [[a|msg] s1]; [|done].
  eapply resumes_async_trans; [exact Hm | apply Hk].
Qed.

Lemma resuming_async_sleep d : resuming_async K rows (emit (Sleep d)).
Proof.
  intros s. exists [Sleep d].
  split; [done|]. split; [constructor|]. split; intros r Hr; tauto.
Qed.

Lemma resuming_async_save file_path idx additional :
  resuming_async K rows (save stem clock file_path idx additional).
Proof.
  intros s. exists [Saved idx additional].
  split; [done|]. split; [constructor|]. split; intros r Hr; tauto.
Qed.

Lemma resuming_async_new_searcher : resuming_async K rows new_searcher.
Proof.
  intros s. exists []. cbn. rewrite app_nil_r.
  split; [done|]. split; [constructor|].
  split; intros r Hr; [by inversion Hr | tauto].
Qed.

Lemma resuming_async_write overwrite :
  resuming_async K rows (write_results overwrite).
Proof.
  intros s. exists []. cbn. rewrite app_nil_r.
  split; [done|]. split; [constructor|].
  split; intros r Hr; [by inversion Hr|].
  apply elem_of_app in Hr as [Hr|Hr].
  - destruct overwrite; [|tauto].
    apply list_elem_of_singleton in Hr. discriminate Hr.
  - right. left. apply list_elem_of_In, in_map_iff in Hr as (r' & [= ->] & Hr).
    by apply list_elem_of_In.
Qed.

Lemma resuming_async_task t : late K rows t → resuming_async K rows (run_task str_lower http 3 t).
Proof.
  intros [HK Hrow] s.
  destruct (run_task_fetched 3 t) as (evs & counted & _ & Hevs & ->).
  exists evs. cbn. split; [done|]. split; [|split].
  - eapply Forall_impl; [exact Hevs|]. by intros i ->.
  - intros r Hr. destruct (counted && _); [|tauto].
    apply elem_of_app in Hr as [Hr|Hr]; [tauto|].
    apply list_elem_of_singleton in Hr as ->. right. by exists t.1.
  - intros r Hr. tauto.
Qed.

Lemma resuming_async_tasks ts :
  Forall (late K rows) ts → resuming_async K rows (run_tasks str_lower http 3 ts).
Proof.
  induction 1 as [|t ts Ht Hts IH]; [apply resuming_async_ret|].
  cbn [run_tasks]. apply resuming_async_bind; [by apply resuming_async_task|].
  intros _. exact IH.
Qed.

Lemma tasks_late batch :
  (∀ l, completion l ≡ₚ l) → Forall (late K rows) batch →
  Forall (late K rows) (completion (tasks_of batch)).
Proof.
  intros Hperm Hb. rewrite Hperm. unfold tasks_of.
  by apply NameFacts.Forall_bool_filter.
Qed.

Lemma resuming_async_batches file_path overwrite bs :
  (∀ l, completion l ≡ₚ l) → Forall (Forall (late K rows)) bs →
  resuming_async K rows
    (batches_loop str_lower stem clock http completion file_path overwrite bs).
Proof.
  intros Hperm Hbs. revert overwrite.
  induction Hbs as [|batch bs Hb Hbs IH]; intros overwrite;
    [apply resuming_async_ret|].
  cbn [batches_loop].
  destruct (last_item batch) as [[last_idx r]|]; [|apply resuming_async_raise].
  apply resuming_async_bind.
  { unfold process_batch. by apply resuming_async_tasks, tasks_late. }
  intros _. apply resuming_async_bind; [apply resuming_async_gets|].
  intros s1. apply resuming_async_bind; [apply resuming_async_save|].
  intros _. destruct (results s1).
  - apply resuming_async_bind; [apply resuming_async_sleep|]. intros _. apply IH.
  - apply resuming_async_bind; [apply resuming_async_write|]. intros _.
    apply resuming_async_bind; [apply resuming_async_sleep|]. intros _. apply IH.
Qed.

Lemma filter_valid_rows_from_late rest :
  ∀ prefix idx, rows = prefix ++ rest → length prefix = idx →
  Forall (λ t, rows !! t.1 = Some t.2) (filter_valid_rows_from decimal idx rest).
Proof.
  induction rest as [|r rest IH]; intros prefix idx Hrows Hlen; [constructor|].
  assert (Forall (λ t, rows !! t.1 = Some t.2)
            (filter_valid_rows_from decimal (S idx) rest)) as Hrest.
  { apply (IH (prefix ++ [r])).
    - by rewrite <- app_assoc.
    - rewrite length_app. simpl. lia. }
  cbn [filter_valid_rows_from].
  destruct (recent_expiration decimal r); [|done].
  constructor; [|done]. cbn. rewrite Hrows, <- Hlen. by rewrite list_lookup_middle.
Qed.

Lemma batches_late {A} (P : A → Prop) fuel batch_size (l : list A) :
  Forall P l → Forall (Forall P) (batches fuel batch_size l).
Proof.
  revert l. induction fuel as [|fuel IH]; intros l Hl.
  - destruct l; constructor.
  - destruct l as [|x l]; [constructor|].
    cbn [batches]. constructor.
    + by apply Forall_take.
    + apply IH. by apply Forall_drop.
Qed.

(** The concurrent run, resumed at [K], asks about rows at index [K] or
    later only, and adds only such rows to the output file. *)
Lemma process_licenses_async_resumes file_path answer batch_size s :
  (∀ l, completion l ≡ₚ l) →
  as_int (load_progress stem (files s) file_path) = Some K →
  ∃ evs,
    log (process_licenses_async str_lower decimal stem clock http completion
           file_path rows answer batch_size s).2
    = log s ++ evs
    ∧ Forall (λ i, K ≤ Z.of_nat i) (requested evs)
    ∧ ∀ r,
        Record_ r
        ∈ default []
            (output (process_licenses_async str_lower decimal stem clock http
                       completion file_path rows answer batch_size s).2) →
        Record_ r ∈ default [] (output s)
        ∨ ∃ i, K ≤ Z.of_nat i ∧ rows !! i = Some r.
Proof.
  intros Hperm HK. unfold process_licenses_async.
  rewrite bind_eq. cbn [gets]. rewrite bind_eq.
  assert (∃ evs, log s = log s ++ evs
                 ∧ Forall (λ i, K ≤ Z.of_nat i) (requested evs)
                 ∧ ∀ r, Record_ r ∈ default [] (output s) →
                        Record_ r ∈ default [] (output s)
                        ∨ ∃ i, K ≤ Z.of_nat i ∧ rows !! i = Some r) as Hsame.
  { exists []. rewrite app_nil_r.
    split; [done|]. split; [constructor | tauto]. }
  unfold resume_filter.
  destruct (filter_valid_rows decimal rows) as [|t0 ts] eqn:Hvalid; [exact Hsame|].
  rewrite HK. cbn [mret M_ret ret].
  destruct (List.filter _ (t0 :: ts)) as [|t1 ts1] eqn:Hresume; [exact Hsame|].
  assert (Forall (late K rows) (t1 :: ts1)) as Hlate.
  { rewrite <- Hresume. apply Forall_forall. intros t Hin.
    apply list_elem_of_In, List.filter_In in Hin as [Hin Hge].
    split; [by apply Z.leb_le|].
    rewrite <- Hvalid in Hin.
    pose proof (filter_valid_rows_from_late rows [] 0%nat eq_refl eq_refl) as Hall.
    rewrite Forall_forall in Hall. apply Hall. by apply list_elem_of_In. }
  rewrite bind_eq. cbn [new_searcher modify].
  rewrite bind_eq. cbn [gets].
  set (s0 := {| total_found := 0; total_processed := 0; results := [];
                files := files s; output := output s; log := log s |}).
  set (overwrite := negb _).
  destruct batch_size as [|b]; [exact Hsame|].
  destruct (resuming_async_batches file_path overwrite
              (batches (length (t1 :: ts1)) (S b) (t1 :: ts1)) Hperm
              (batches_late (late K rows) _ _ _ Hlate) s0)
    as (evs & Hlog & Hreq & _ & Hout).
  exists evs. split; [exact Hlog|]. split; [exact Hreq|].
  intros r Hr. destruct (Hout r Hr) as [H|[H|H]]; [tauto | by inversion H | tauto].
Qed.

End Resume.

End Concurrent.

Lemma batch_written_in_completion_order_witness :
  (∀ l : list (nat * row), rev l ≡ₚ l)
  ∧ [(0%nat, license "Ada" "Stone" "01/31/2025");
     (1%nat, license "Bo" "Reed" "02/28/2025")] ≠ []
  ∧ results empty_state = []
  ∧ output
      (batches_loop lower_ascii stem_id clock0 http_found (@rev _) (u "x.csv") true
         [[(0%nat, license "Ada" "Stone" "01/31/2025");
           (1%nat, license "Bo" "Reed" "02/28/2025")]] empty_state).2
    = match
        kept lower_ascii http_found
          (rev (tasks_of [(0%nat, license "Ada" "Stone" "01/31/2025");
                          (1%nat, license "Bo" "Reed" "02/28/2025")]))
      with
      | [] => output empty_state
      | rows =>
          Some ((if true then [Header] else default [] (output empty_state))
                  ++ List.map Record_ rows)
      end.
Proof.
  assert (∀ l : list (nat * row), rev l ≡ₚ l) as H1
    by (intros l; symmetry; apply Permutation_rev).
  assert ([(0%nat, license "Ada" "Stone" "01/31/2025");
           (1%nat, license "Bo" "Reed" "02/28/2025")] ≠ []) as H2 by discriminate.
  refine (conj H1 (conj H2 (conj eq_refl _))).
  exact (proj1 (batch_written_in_completion_order lower_ascii stem_id clock0
                  http_found (@rev _) (u "x.csv") true _ empty_state H1 H2 eq_refl)).
Defined.

(** C3 fails on the code: two rows of one batch, both found, the second
    fetch completing first: the output file has them in that order, not
    in input order. *)
Lemma output_follows_completion_order :
  output
    (batches_loop lower_ascii stem_id clock0 http_found (@rev _) (u "x.csv") true
       [[(0%nat, license "Ada" "Stone" "01/31/2025");
         (1%nat, license "Bo" "Reed" "02/28/2025")]] empty_state).2
  = Some [Header;
          Record_ (license "Bo" "Reed" "02/28/2025");
          Record_ (license "Ada" "Stone" "01/31/2025")]
  ∧ kept lower_ascii http_found
      (tasks_of [(0%nat, license "Ada" "Stone" "01/31/2025");
                 (1%nat, license "Bo" "Reed" "02/28/2025")])
    = [license "Ada" "Stone" "01/31/2025"; license "Bo" "Reed" "02/28/2025"]
  ∧ [license "Bo" "Reed" "02/28/2025"; license "Ada" "Stone" "01/31/2025"]
    ≠ [license "Ada" "Stone" "01/31/2025"; license "Bo" "Reed" "02/28/2025"].
Proof.
  split; [vm_compute; reflexivity|]. split; [vm_compute; reflexivity|].
  intros H. apply (f_equal (λ l, (λ r : row, get r "First Name") <$> l)) in H.
  vm_compute in H. discriminate H.
Qed.

End ParallelFacts.


(** ** The fetchers on failures *)

Module FetchFacts.
Import Py Checkpoint Eff Licenses RunSpec Examples.

(** C8, as the code has it: when every reply to a fetch is a plain
    failure (a status outside 2xx other than 429 and 403, a transport
    error or a timeout) whose body holds no challenge marker, the fetch
    asks [max_retries] times, sleeps five seconds after each attempt but
    the last, and answers "not found" instead of raising, in [main.py]
    and in [main-parallel.py]; the sequential run then goes on with the
    next row, nothing written. *)
Theorem plain_failures_fail_open
    (str_lower : ustring → ustring) (decimal : N → option N)
    (stem : ustring → ustring) (clock : nat → ustring)
    (http : nat → nat → reply)
    (idx : nat) (first_name last_name : ustring) (max_retries : nat) :
  (∀ a, (a < max_retries)%nat →
        plain_failure (http idx a) ∧ unchallenged str_lower (http idx a)) →
  (∀ w,
     Main.search_legacy_obituary str_lower http idx first_name last_name
       max_retries w
     = (Ok false,
        logged (retry_log idx first_name last_name max_retries 0 max_retries) w))
  ∧ (∀ row_data s,
       MainParallel.search_legacy_obituary str_lower http max_retries idx
         first_name last_name row_data s
       = (Ok (false, row_data),
          fetched
            (Sleep Jitter
             :: retry_log idx first_name last_name max_retries 0 max_retries)
            false false row_data s))
  ∧ (max_retries = 3%nat →
     ∀ K file_path start_idx row rest total_found total_processed w,
       as_int start_idx = Some K → K ≤ Z.of_nat idx →
       recent_expiration decimal row = true →
       first_name = strip (get row "First Name") →
       last_name = strip (get row "Last Name") →
       usable_names first_name last_name = true →
       ∃ w',
         Main.rows_loop str_lower decimal stem clock http file_path start_idx idx
           (row :: rest) total_found total_processed w
         = Main.rows_loop str_lower decimal stem clock http file_path start_idx
             (S idx) rest total_found (total_processed + 1) w'
         ∧ Main.written w' = Main.written w).
Proof.
  intros Hsoft. split; [|split].
  - intros w. unfold Main.search_legacy_obituary.
    by apply MainFacts.attempts_retry.
  - intros row_data s. unfold MainParallel.search_legacy_obituary.
    rewrite MainFacts.bind_eq, (ParallelFacts.emit_fetched _ row_data).
    rewrite ParallelFacts.async_attempts_retry by done.
    by rewrite ParallelFacts.fetched_fetched.
  - intros -> K file_path start_idx row rest tf tp w HK Hge Hdate -> -> Hnames.
    destruct (MainFacts.rows_loop_goes_on str_lower decimal stem clock http K
                file_path start_idx idx row rest tf tp w
                (logged (retry_log idx (strip (get row "First Name"))
                           (strip (get row "Last Name")) 3 0 3) w)
                HK Hge Hdate Hnames) as (w2 & Heq & Hw & _).
    { unfold Main.search_legacy_obituary. by apply MainFacts.attempts_retry. }
    exists w2. by rewrite Heq, Hw.
Qed.

Lemma plain_failures_fail_open_witness :
  (∀ a, (a < 3)%nat →
        plain_failure (http_503 0 a) ∧ unchallenged lower_ascii (http_503 0 a))
  ∧ (∀ w,
       Main.search_legacy_obituary lower_ascii http_503 0 (u "Ada") (u "Stone") 3 w
       = (Ok false, logged (retry_log 0 (u "Ada") (u "Stone") 3 0 3) w)).
Proof.
  assert (∀ a, (a < 3)%nat →
               plain_failure (http_503 0 a) ∧ unchallenged lower_ascii (http_503 0 a))
    as H.
  { intros a _. split; [simpl; lia | vm_compute; reflexivity]. }
  refine (conj H _).
  exact (proj1 (plain_failures_fail_open lower_ascii ascii_decimal stem_id clock0
                  http_503 0 (u "Ada") (u "Stone") 3 H)).
Defined.

(** C8 fails on the code as stated: a 503 reply is a status outside 2xx
    other than 429 and 403, but when its body holds a challenge marker
    the sequential fetch raises on the first attempt, and the concurrent
    fetch gives up on the first attempt, without a retry. *)
Lemma challenge_page_not_retried :
  plain_failure (http_503_captcha 0 0)
  ∧ plain_failure (http_503_captcha 0 1)
  ∧ plain_failure (http_503_captcha 0 2)
  ∧ Main.search_legacy_obituary lower_ascii http_503_captcha 0 (u "Ada") (u "Stone")
      3 Main.empty_world
    = (Raise (u "Captcha required"),
       logged [Request 0 (u "Ada") (u "Stone") 0] Main.empty_world)
  ∧ MainParallel.search_legacy_obituary lower_ascii http_503_captcha 3 0
      (u "Ada") (u "Stone") (license "Ada" "Stone" "01/31/2025")
      MainParallel.empty_state
    = (Ok (false, license "Ada" "Stone" "01/31/2025"),
       fetched [Sleep Jitter; Request 0 (u "Ada") (u "Stone") 0] false false
         (license "Ada" "Stone" "01/31/2025") MainParallel.empty_state).
Proof.
  repeat split; try (simpl; lia); vm_compute; reflexivity.
Qed.

(** C1: a 403 reply to the first of two eligible rows.  The concurrent
    run treats it as "not found": it raises nothing, goes on to ask about
    row 1, writes it, and saves its progress without an error.  The
    sequential run on the same input stops at row 0 with the error
    saved. *)
Theorem blocked_reply_not_surfaced :
  (MainParallel.process_licenses_async lower_ascii ascii_decimal stem_id clock0
     http_403 (λ l, l) (u "x.csv") rows2 (u "n") 20 MainParallel.empty_state).1
  = Ok tt
  ∧ requested
      (MainParallel.log
         (MainParallel.process_licenses_async lower_ascii ascii_decimal stem_id
            clock0 http_403 (λ l, l) (u "x.csv") rows2 (u "n") 20
            MainParallel.empty_state).2)
    = [0; 1]%nat
  ∧ saves
      (MainParallel.log
         (MainParallel.process_licenses_async lower_ascii ascii_decimal stem_id
            clock0 http_403 (λ l, l) (u "x.csv") rows2 (u "n") 20
            MainParallel.empty_state).2)
    = [(1, counters 1 1)]
  ∧ MainParallel.output
      (MainParallel.process_licenses_async lower_ascii ascii_decimal stem_id
         clock0 http_403 (λ l, l) (u "x.csv") rows2 (u "n") 20
         MainParallel.empty_state).2
    = Some [MainParallel.Header;
            MainParallel.Record_ (license "Bo" "Reed" "02/28/2025")]
  ∧ (Main.process_licenses lower_ascii ascii_decimal stem_id clock0 http_403
       (u "x.csv") rows2 Main.empty_world).1
    = Ok false
  ∧ Main.log
      (Main.process_licenses lower_ascii ascii_decimal stem_id clock0 http_403
         (u "x.csv") rows2 Main.empty_world).2
    = [Request 0 (u "Ada") (u "Stone") 0;
       Saved 0 (counters 0 0 ++ [(u "error", JStr (u "Blocked by server"))])].
Proof. repeat split; vm_compute; reflexivity. Qed.

(** C4: 429 replies to every attempt for the first of two eligible rows.
    The concurrent fetch sleeps 30, 60 and 120 seconds and then answers
    "not found"; the run raises nothing, goes on with row 1 and saves its
    progress without an error.  The sequential run on the same input
    sleeps 60 and 120 seconds, raises on the third 429 and stops with the
    error saved. *)
Theorem rate_limit_not_surfaced :
  MainParallel.search_legacy_obituary lower_ascii http_429 3 0 (u "Ada") (u "Stone")
    (license "Ada" "Stone" "01/31/2025") MainParallel.empty_state
  = (Ok (false, license "Ada" "Stone" "01/31/2025"),
     fetched
       [Sleep Jitter;
        Request 0 (u "Ada") (u "Stone") 0; Sleep (Seconds 30);
        Request 0 (u "Ada") (u "Stone") 1; Sleep (Seconds 60);
        Request 0 (u "Ada") (u "Stone") 2; Sleep (Seconds 120)]
       false false (license "Ada" "Stone" "01/31/2025") MainParallel.empty_state)
  ∧ (MainParallel.process_licenses_async lower_ascii ascii_decimal stem_id clock0
       http_429 (λ l, l) (u "x.csv") rows2 (u "n") 20 MainParallel.empty_state).1
    = Ok tt
  ∧ requested
      (MainParallel.log
         (MainParallel.process_licenses_async lower_ascii ascii_decimal stem_id
            clock0 http_429 (λ l, l) (u "x.csv") rows2 (u "n") 20
            MainParallel.empty_state).2)
    = [0; 0; 0; 1]%nat
  ∧ saves
      (MainParallel.log
         (MainParallel.process_licenses_async lower_ascii ascii_decimal stem_id
            clock0 http_429 (λ l, l) (u "x.csv") rows2 (u "n") 20
            MainParallel.empty_state).2)
    = [(1, counters 1 1)]
  ∧ (Main.process_licenses lower_ascii ascii_decimal stem_id clock0 http_429
       (u "x.csv") rows2 Main.empty_world).1
    = Ok false
  ∧ Main.log
      (Main.process_licenses lower_ascii ascii_decimal stem_id clock0 http_429
         (u "x.csv") rows2 Main.empty_world).2
    = [Request 0 (u "Ada") (u "Stone") 0; Sleep (Seconds 60);
       Request 0 (u "Ada") (u "Stone") 1; Sleep (Seconds 120);
       Request 0 (u "Ada") (u "Stone") 2;
       Saved 0
         (counters 0 0
            ++ [(u "error", JStr (u "Rate limited - max retries exceeded"))])].
Proof. repeat split; vm_compute; reflexivity. Qed.

End FetchFacts.

(** ** Resuming a run *)

Module ResumeFacts.
Import Py Checkpoint Eff Licenses RunSpec Examples.

(** C7: a run that loads checkpoint [K] asks the service about no row
    whose input index is below [K] and writes no such row: in [main.py]
    every request and every written row is for an index [K] or later; in
    [main-parallel.py], whatever the order in which the fetches of a batch
    complete, every request is for such an index and every row of the
    output file was there before the run or is the row at such an index. *)
Theorem resume_skips_rows_before_checkpoint
    (str_lower : ustring → ustring) (decimal : N → option N)
    (stem : ustring → ustring) (clock : nat → ustring)
    (http : nat → nat → reply)
    (completion : list (nat * row) → list (nat * row))
    (file_path : ustring) (rows : list row) (K : Z)
    (w : Main.world) (s : MainParallel.state)
    (answer : ustring) (batch_size : nat) :
  (∀ l, completion l ≡ₚ l) →
  load_progress stem (Main.files w) file_path = JInt K →
  load_progress stem (MainParallel.files s) file_path = JInt K →
  resumes K rows w
    (Main.process_licenses str_lower decimal stem clock http file_path rows w).2
  ∧ ∃ evs,
      MainParallel.log
        (MainParallel.process_licenses_async str_lower decimal stem clock http
           completion file_path rows answer batch_size s).2
      = MainParallel.log s ++ evs
      ∧ Forall (λ i, K ≤ Z.of_nat i) (requested evs)
      ∧ ∀ r,
          MainParallel.Record_ r
          ∈ default []
              (MainParallel.output
                 (MainParallel.process_licenses_async str_lower decimal stem
                    clock http completion file_path rows answer batch_size s).2) →
          MainParallel.Record_ r ∈ default [] (MainParallel.output s)
          ∨ ∃ i, K ≤ Z.of_nat i ∧ rows !! i = Some r.
Proof.
  intros Hperm Hw Hs. split.
  - apply MainFacts.process_licenses_resumes. by rewrite Hw.
  - apply ParallelFacts.process_licenses_async_resumes; [done|]. by rewrite Hs.
Qed.

Lemma resume_skips_rows_before_checkpoint_witness :
  (∀ l : list (nat * row), rev l ≡ₚ l)
  ∧ load_progress stem_id (Main.files resumed_world) (u "x.csv") = JInt 1
  ∧ load_progress stem_id (MainParallel.files resumed_state) (u "x.csv") = JInt 1
  ∧ resumes 1 rows2 resumed_world
      (Main.process_licenses lower_ascii ascii_decimal stem_id clock0 http_found
         (u "x.csv") rows2 resumed_world).2.
Proof.
  assert (∀ l : list (nat * row), rev l ≡ₚ l) as H1
    by (intros l; symmetry; apply Permutation_rev).
  assert (load_progress stem_id (Main.files resumed_world) (u "x.csv") = JInt 1)
    as H2 by (vm_compute; reflexivity).
  assert (load_progress stem_id (MainParallel.files resumed_state) (u "x.csv")
          = JInt 1) as H3 by (vm_compute; reflexivity).
  refine (conj H1 (conj H2 (conj H3 _))).
  exact (proj1 (resume_skips_rows_before_checkpoint lower_ascii ascii_decimal
                  stem_id clock0 http_found (@rev _) (u "x.csv") rows2 1
                  resumed_world resumed_state (u "n") 20 H1 H2 H3)).
Defined.

Example resumed_run_asks_row_1_only :
  requested
    (Main.log
       (Main.process_licenses lower_ascii ascii_decimal stem_id clock0 http_503
          (u "x.csv") rows2 resumed_world).2)
  = [1%nat].
Proof. vm_compute. reflexivity. Qed.

End ResumeFacts.

(** ** filter-results.py: the partition *)

Module FilterFacts.
Import Py Checkpoint Eff Licenses FilterResults Filter FilterSpec.

Lemma info_of_eq nfkd (r : row) obit b reason :
  check_name_match nfkd (strip (get r "First Name")) (strip (get r "Last Name"))
    (obit_name obit) = (b, reason) →
  info_of nfkd r obit
  = {| info_name := obit_name obit; info_id := obit_id obit;
       obituaryUrl := obit_href obit; match_reason := reason; is_match := b |}.
Proof. intros E. unfold info_of. by rewrite E. Qed.

Lemma check_obituaries_filter nfkd (r : row) obituaries matched unmatched :
  check_obituaries nfkd (strip (get r "First Name")) (strip (get r "Last Name"))
    obituaries matched unmatched
  = (matched ++ List.filter is_match (List.map (info_of nfkd r) obituaries),
     unmatched ++ List.filter (λ o, negb (is_match o))
                    (List.map (info_of nfkd r) obituaries)).
Proof.
  revert matched unmatched.
  induction obituaries as [|obit rest IH]; intros matched unmatched.
  - cbn. by rewrite !app_nil_r.
  - cbn [check_obituaries List.map List.filter].
    destruct (check_name_match nfkd _ _ (obit_name obit)) as [b reason] eqn:E.
    rewrite (info_of_eq _ _ _ _ _ E). cbn [is_match].
    destruct b; cbn [negb]; rewrite IH, <- app_assoc; reflexivity.
Qed.

Section Run.

Variable nfkd : ustring → ustring.
Variable http : nat → details_reply.

Lemma found_for_eq i :
  (match http i with
   | Details status search_results =>
       if negb (status =? 200) then mret [] else mret search_results
   | DetailsError => mret []
   end : M state (list obituary))
  = mret (found_for http i).
Proof.
  unfold found_for. destruct (http i) as [status res|]; [|done].
  by destruct (negb (status =? 200)).
Qed.

(** One turn of the loop records the outcome of its row and goes on. *)
Lemma records_loop_step i row rest s :
  records_loop nfkd http i (row :: rest) s
  = records_loop nfkd http (S i) rest
      (record (outcome nfkd http (i, row)) (actions_of http (i, row)) s).
Proof.
  cbn [records_loop]. unfold outcome, actions_of, has_names. cbn [fst snd].
  destruct (bool_decide _ || bool_decide _) eqn:Hnames; cbn [negb].
  - rewrite MainFacts.bind_eq. cbn [remove modify].
    unfold record.
    cbn [filtered_records removed_records actions filtered_file removed_file].
    by rewrite !app_nil_r.
  - rewrite MainFacts.bind_eq. unfold get_obituary_details.
    rewrite MainFacts.bind_eq. cbn [act modify]. rewrite found_for_eq.
    cbn [mret M_ret ret].
    destruct (found_for http i) as [|obit obits] eqn:Hobits.
    + rewrite MainFacts.bind_eq. cbn [remove modify].
      unfold record.
      cbn [filtered_records removed_records actions filtered_file removed_file].
      by rewrite !app_nil_r.
    + rewrite check_obituaries_filter. cbn [app].
      destruct (List.filter is_match (List.map (info_of nfkd row) (obit :: obits)))
        as [|m ms] eqn:Hm.
      * rewrite MainFacts.bind_eq. cbn [remove modify].
        rewrite MainFacts.bind_eq. cbn [act modify].
        unfold record.
        cbn [filtered_records removed_records actions filtered_file removed_file].
        by rewrite !app_nil_r, <- !app_assoc.
      * rewrite MainFacts.bind_eq. cbn [keep modify].
        rewrite MainFacts.bind_eq. cbn [act modify].
        unfold record.
        cbn [filtered_records removed_records actions filtered_file removed_file].
        by rewrite !app_nil_r, <- !app_assoc.
Qed.

(** The loop adds, row by row, the outcome of the row to one of the two
    lists and its actions to the log; it touches no file. *)
Lemma records_loop_outcomes rows :
  ∀ i s,
    records_loop nfkd http i rows s
    = (Ok tt,
       {| filtered_records :=
            filtered_records s
            ++ omap (λ t, kept_of (outcome nfkd http t)) (enumerate_from i rows);
          removed_records :=
            removed_records s
            ++ omap (λ t, removed_of (outcome nfkd http t)) (enumerate_from i rows);
          actions :=
            actions s ++ List.concat (List.map (actions_of http) (enumerate_from i rows));
          filtered_file := filtered_file s;
          removed_file := removed_file s |}).
Proof.
  induction rows as [|row rest IH]; intros i s.
  - cbn. rewrite !app_nil_r. by destruct s.
  - rewrite records_loop_step, IH. unfold record.
    cbn [enumerate_from omap list_omap List.map List.concat
         filtered_records removed_records actions filtered_file removed_file].
    rewrite <- !app_assoc.
    by destruct (outcome nfkd http (i, row)).
Qed.

(** The whole run: the two lists are rebuilt from the rows alone, the
    log grows, and each output file is written only when its list is not
    empty. *)
Lemma filter_possibilities_outcomes rows s :
  filter_possibilities nfkd http (Some rows) s
  = (Ok tt,
     let filtered := omap (λ t, kept_of (outcome nfkd http t)) (enumerate_from 0 rows) in
     let removed := omap (λ t, removed_of (outcome nfkd http t)) (enumerate_from 0 rows) in
     {| filtered_records := filtered;
        removed_records := removed;
        actions :=
          actions s
          ++ List.concat (List.map (actions_of http) (enumerate_from 0 rows));
        filtered_file :=
          match filtered with
          | [] => filtered_file s
          | _ => Some (Fieldnames :: List.map Line filtered)
          end;
        removed_file :=
          match removed with
          | [] => removed_file s
          | _ => Some (Fieldnames :: List.map Line removed)
          end |}).
Proof.
  unfold filter_possibilities.
  rewrite MainFacts.bind_eq. cbn [modify].
  rewrite MainFacts.bind_eq, records_loop_outcomes.
  cbn [filtered_records removed_records actions filtered_file removed_file app].
  rewrite MainFacts.bind_eq. cbn [gets filtered_records removed_records].
  destruct (omap (λ t, kept_of (outcome nfkd http t)) (enumerate_from 0 rows))
    as [|k ks];
    destruct (omap (λ t, removed_of (outcome nfkd http t)) (enumerate_from 0 rows))
      as [|r rs]; reflexivity.
Qed.

Lemma is_match_info (r : row) obit :
  is_match (info_of nfkd r obit) = matches nfkd r obit.
Proof. reflexivity. Qed.

Lemma matched_nonempty (r : row) obituaries :
  List.filter is_match (List.map (info_of nfkd r) obituaries) ≠ []
  ↔ existsb (matches nfkd r) obituaries = true.
Proof.
  induction obituaries as [|obit rest IH]; cbn [List.map List.filter existsb].
  - split; [done | discriminate].
  - rewrite is_match_info. destruct (matches nfkd r obit); [|exact IH].
    split; [done | discriminate].
Qed.

(** A row is kept exactly when it has both names and one of the
    obituaries found for it matches. *)
Lemma outcome_confirmed t :
  match outcome nfkd http t with
  | inl k => kept_row k = t.2 ∧ confirmed nfkd http t = true
  | inr r => removed_row r = t.2 ∧ confirmed nfkd http t = false
  end.
Proof.
  unfold outcome, confirmed. destruct (has_names t.2); [|done].
  cbn [andb].
  destruct (found_for http t.1) as [|obit obits] eqn:Hfound; [done|].
  destruct (List.filter is_match (List.map (info_of nfkd t.2) (obit :: obits)))
    as [|m ms] eqn:Hm.
  - split; [done|]. apply not_true_is_false. intros Hex.
    by apply matched_nonempty in Hex.
  - split; [done|]. apply matched_nonempty. by rewrite Hm.
Qed.



Lemma enumerate_from_lookup {A} i (l : list A) j x :
  (j, x) ∈ enumerate_from i l → (i ≤ j)%nat ∧ l !! (j - i)%nat = Some x.
Proof.
  revert i. induction l as [|y l IH]; intros i Hin; [by inversion Hin|].
  cbn [enumerate_from] in Hin. apply elem_of_cons in Hin as [[= -> ->]|Hin].
  - split; [lia|]. by rewrite Nat.sub_diag.
  - destruct (IH _ Hin) as [Hle Hl]. split; [lia|].
    replace (j - i)%nat with (S (j - S i)) by lia. done.
Qed.


Lemma Forall_omap_outcome {A B} (f : A → option B) (P : B → Prop) (ts : list A) :
  (∀ t y, t ∈ ts → f t = Some y → P y) → Forall P (omap f ts).
Proof.
  induction ts as [|t ts IH]; intros H; [constructor|].
  cbn [omap list_omap]. destruct (f t) as [y|] eqn:E.
  - constructor; [by eapply H; [left|]|].
    apply IH. intros t' y' Hin. apply H. by right.
  - apply IH. intros t' y' Hin. apply H. by right.
Qed.

Lemma filter_sublist_length {A} (f : A → bool) (l : list A) :
  (length (List.filter f l) ≤ length l)%nat.
Proof.
  induction l as [|x l IH]; [done|]. cbn [List.filter].
  destruct (f x); cbn [length]; lia.
Qed.

Lemma asked_app acts1 acts2 : asked (acts1 ++ acts2) = asked acts1 ++ asked acts2.
Proof.
  induction acts1 as [|a acts1 IH]; [done|].
  destruct a; cbn; by rewrite IH.
Qed.

Lemma asked_actions ts :
  asked (List.concat (List.map (actions_of http) ts))
  = List.map fst (List.filter (λ t, has_names t.2) ts).
Proof.
  induction ts as [|t ts IH]; [done|].
  cbn [List.map List.concat List.filter]. rewrite asked_app, IH.
  unfold actions_of. destruct (has_names t.2); [|done].
  by destruct (found_for http t.1).
Qed.

Lemma unmatched_all (r : row) (os : list obituary) :
  existsb (matches nfkd r) os = false →
  List.filter (λ o, negb (is_match o)) (List.map (info_of nfkd r) os)
  = List.map (info_of nfkd r) os.
Proof.
  induction os as [|o os IH]; intros Hnone; [reflexivity|].
  cbn [existsb] in Hnone. apply orb_false_elim in Hnone as [Ho Hos].
  cbn [List.map List.filter]. rewrite is_match_info, Ho. cbn [negb].
  by rewrite IH.
Qed.

Lemma kept_none ts :
  omap (λ t, kept_of (outcome nfkd http t)) ts = []
  ↔ existsb (confirmed nfkd http) ts = false.
Proof.
  induction ts as [|t ts IH]; [done|].
  cbn [omap list_omap existsb]. pose proof (outcome_confirmed t) as Ht.
  destruct (outcome nfkd http t) as [k|r]; destruct Ht as [_ ->]; cbn [kept_of orb].
  - split; discriminate.
  - exact IH.
Qed.

Lemma removed_none ts :
  omap (λ t, removed_of (outcome nfkd http t)) ts = []
  ↔ forallb (confirmed nfkd http) ts = true.
Proof.
  induction ts as [|t ts IH]; [done|].
  cbn [omap list_omap forallb]. pose proof (outcome_confirmed t) as Ht.
  destruct (outcome nfkd http t) as [k|r]; destruct Ht as [_ ->];
    cbn [removed_of andb].
  - exact IH.
  - split; discriminate.
Qed.

End Run.


(** X2: Every kept record belongs to a row of the input and carries the
    obituaries found for that row that match, in the order of the reply;
    [total_matches] is their number, at least one, and
    [total_obituaries_found] is the number of all obituaries found. *)
Theorem kept_records_carry_matches
    (nfkd : ustring → ustring) (http : nat → details_reply)
    (rows : list row) (s : state) :
  Forall
    (λ k, ∃ i,
        rows !! i = Some (kept_row k)
        ∧ matched_obituaries k
          = List.filter is_match
              (List.map (info_of nfkd (kept_row k)) (found_for http i))
        ∧ Forall (λ o, is_match o = true) (matched_obituaries k)
        ∧ total_matches k = length (matched_obituaries k)
        ∧ total_obituaries_found k = length (found_for http i)
        ∧ (1 ≤ total_matches k ≤ total_obituaries_found k)%nat)
    (filtered_records (filter_possibilities nfkd http (Some rows) s).2).
Proof.
  rewrite filter_possibilities_outcomes. cbn [snd filtered_records].
  apply Forall_omap_outcome. intros [i row] k Hin Hk.
  apply enumerate_from_lookup in Hin as [_ Hrow]. rewrite Nat.sub_0_r in Hrow.
  unfold outcome in Hk. cbn [fst snd] in Hk.
  destruct (has_names row); [|discriminate Hk].
  destruct (found_for http i) as [|obit obits] eqn:Hfound; [discriminate Hk|].
  destruct (List.filter is_match (List.map (info_of nfkd row) (obit :: obits)))
    as [|m ms] eqn:Hm; [discriminate Hk|].
  injection Hk as <-. cbn [kept_row matched_obituaries total_matches
                           total_obituaries_found].
  exists i. rewrite Hfound, Hm. split; [done|]. split; [done|].
  split.
  { rewrite <- Hm. apply Forall_forall. intros o Ho.
    apply list_elem_of_In in Ho. by apply List.filter_In in Ho as [_ Ho]. }
  split; [done|]. split; [done|].
  split; [cbn [length]; lia|].
  change (length (m :: ms) ≤ length (obit :: obits))%nat.
  rewrite <- Hm. etrans; [apply filter_sublist_length|]. by rewrite length_map.
Qed.

(** X3: Every removed record belongs to a row of the input and says why it
    was removed: a name is empty; or no obituary was found, which is also
    what a failed request and a status other than 200 come to; or
    obituaries were found and none matches, and then the record carries
    all of them. *)
Theorem removed_records_say_why
    (nfkd : ustring → ustring) (http : nat → details_reply)
    (rows : list row) (s : state) :
  Forall
    (λ r, ∃ i,
        rows !! i = Some (removed_row r)
        ∧ ((has_names (removed_row r) = false
            ∧ removal_reason r = u "Empty name fields"
            ∧ unmatched_obituaries r = [] ∧ obituaries_found r = None)
           ∨ (has_names (removed_row r) = true
              ∧ (http i = DetailsError
                 ∨ (∃ status res, http i = Details status res ∧ status ≠ 200)
                 ∨ http i = Details 200 [])
              ∧ removal_reason r = u "No obituaries found"
              ∧ unmatched_obituaries r = [] ∧ obituaries_found r = None)
           ∨ (has_names (removed_row r) = true
              ∧ found_for http i ≠ []
              ∧ existsb (matches nfkd (removed_row r)) (found_for http i) = false
              ∧ removal_reason r = u "No matching obituary names found"
              ∧ unmatched_obituaries r
                = List.map (info_of nfkd (removed_row r)) (found_for http i)
              ∧ obituaries_found r = Some (length (found_for http i)))))
    (removed_records (filter_possibilities nfkd http (Some rows) s).2).
Proof.
  rewrite filter_possibilities_outcomes. cbn [snd removed_records].
  apply Forall_omap_outcome. intros [i row] r Hin Hr.
  apply enumerate_from_lookup in Hin as [_ Hrow]. rewrite Nat.sub_0_r in Hrow.
  unfold outcome in Hr. cbn [fst snd] in Hr.
  destruct (has_names row) eqn:Hnames.
  - destruct (found_for http i) as [|obit obits] eqn:Hfound.
    + injection Hr as <-. exists i. split; [done|]. right. left.
      cbn [removed_row removal_reason unmatched_obituaries obituaries_found].
      split; [done|]. split; [|done].
      unfold found_for in Hfound. destruct (http i) as [status res|]; [|by left].
      right. destruct (Z.eqb_spec status 200) as [->|Hne]; cbn [negb] in Hfound.
      * right. by rewrite Hfound.
      * left. by exists status, res.
    + destruct (List.filter is_match (List.map (info_of nfkd row) (obit :: obits)))
        as [|m ms] eqn:Hm; [|discriminate Hr].
      injection Hr as <-. exists i. split; [done|]. right. right.
      cbn [removed_row removal_reason unmatched_obituaries obituaries_found].
      rewrite Hfound. split; [done|]. split; [done|].
      assert (existsb (matches nfkd row) (obit :: obits) = false) as Hnone.
      { apply not_true_is_false. intros Hex.
        by apply (matched_nonempty nfkd) in Hex. }
      split; [done|]. split; [done|]. split; [|done].
      exact (unmatched_all nfkd row (obit :: obits) Hnone).
  - injection Hr as <-. exists i. split; [done|]. by left.
Qed.

(** X4: One request is made for each row that has both names, in the order
    of the rows, and none for the other rows: no request is repeated. *)
Theorem one_request_per_named_row
    (nfkd : ustring → ustring) (http : nat → details_reply)
    (rows : list row) (s : state) :
  asked (actions (filter_possibilities nfkd http (Some rows) s).2)
  = asked (actions s)
    ++ List.map fst (List.filter (λ t, has_names t.2) (enumerate_from 0 rows)).
Proof.
  rewrite filter_possibilities_outcomes. cbn [snd actions].
  by rewrite asked_app, asked_actions.
Qed.

(** X5: An output file is written only when there is a record for it: with
    no row kept the filtered file stays as it was, and with every row
    kept the removed file stays as it was; otherwise the file holds the
    header and the records of this run. *)
Theorem output_written_when_nonempty
    (nfkd : ustring → ustring) (http : nat → details_reply)
    (rows : list row) (s : state) :
  filtered_file (filter_possibilities nfkd http (Some rows) s).2
  = (if existsb (confirmed nfkd http) (enumerate_from 0 rows)
     then Some (Fieldnames
                :: List.map Line
                     (filtered_records
                        (filter_possibilities nfkd http (Some rows) s).2))
     else filtered_file s)
  ∧ removed_file (filter_possibilities nfkd http (Some rows) s).2
    = (if forallb (confirmed nfkd http) (enumerate_from 0 rows)
       then removed_file s
       else Some (Fieldnames
                  :: List.map Line
                       (removed_records
                          (filter_possibilities nfkd http (Some rows) s).2))).
Proof.
  rewrite filter_possibilities_outcomes.
  cbn [snd filtered_file removed_file filtered_records removed_records].
  split.
  - destruct (existsb _ _) eqn:Hex.
    + destruct (omap (λ t, kept_of (outcome nfkd http t)) (enumerate_from 0 rows))
        as [|k ks] eqn:Hk; [|done].
      apply kept_none in Hk. congruence.
    + apply kept_none in Hex. by rewrite Hex.
  - destruct (forallb _ _) eqn:Hall.
    + apply removed_none in Hall. by rewrite Hall.
    + destruct (omap (λ t, removed_of (outcome nfkd http t)) (enumerate_from 0 rows))
        as [|r rs] eqn:Hr; [|done].
      apply removed_none in Hr. congruence.
Qed.

End FilterFacts.

(** ** The shape of normalized names, and what a match compares *)

Module MatcherFacts.
Import Py FilterResults MatchSpec NameSpec Examples.

Lemma Forall_lstrip (P : N → Prop) s : Forall P s → Forall P (lstrip s).
Proof.
  induction 1 as [|c s Hc Hs IH]; [constructor|].
  cbn [lstrip]. destruct (isspace c); [exact IH | by constructor].
Qed.

Lemma Forall_strip (P : N → Prop) s : Forall P s → Forall P (strip s).
Proof.
  intros H. unfold strip, rstrip.
  apply Forall_rev, Forall_lstrip, Forall_rev, Forall_lstrip, H.
Qed.

Lemma lowered_chars s :
  Forall (λ c, (c <? 128)%N && negb ((65 <=? c) && (c <=? 90))%N = true)
    (lower_ascii (ascii_ignore s)).
Proof.
  unfold lower_ascii, ascii_ignore.
  induction s as [|c s IH]; [constructor|].
  cbn [List.filter]. destruct (c <? 128)%N eqn:Hc; [|exact IH].
  cbn [List.map]. constructor; [|exact IH].
  apply N.ltb_lt in Hc. unfold lower_ascii_char.
  destruct ((65 <=? c) && (c <=? 90))%N eqn:Hup.
  - apply andb_prop in Hup as [H1 H2]. apply N.leb_le in H1, H2.
    apply andb_true_intro. split; [apply N.ltb_lt; lia|].
    apply negb_true_iff, andb_false_iff. right. apply N.leb_gt. lia.
  - rewrite Hup. apply andb_true_intro. split; [by apply N.ltb_lt | done].
Qed.

Lemma re_split_go_chars (P : N → Prop) cls cur in_run s :
  Forall P cur → Forall P s → Forall (Forall P) (re_split_go cls cur in_run s).
Proof.
  intros Hcur Hs. revert cur in_run Hcur.
  induction Hs as [|c s Hc Hs IH]; intros cur in_run Hcur; cbn [re_split_go].
  - repeat constructor. by apply Forall_rev.
  - destruct (cls c).
    + destruct in_run.
      * apply IH. constructor.
      * constructor; [by apply Forall_rev | apply IH; constructor].
    + apply IH. by constructor.
Qed.

(** The tokens the normalizer keeps. *)
Lemma kept_parts_tokens s :
  Forall (λ c, (c <? 128)%N && negb ((65 <=? c) && (c <=? 90))%N = true) s →
  Forall (λ p, token p = true)
    (List.filter
       (λ p, negb (bool_decide (p = []))
             && negb (bool_decide (p ∈ suffixes ++ prefixes)))
       (re_split name_sep s)).
Proof.
  intros Hs. apply Forall_forall. intros p Hp.
  apply list_elem_of_In, List.filter_In in Hp as [Hin Hkeep].
  apply andb_prop in Hkeep as [Hk1 Hk2].
  apply negb_true_iff, bool_decide_eq_false in Hk1, Hk2.
  unfold token. rewrite !bool_decide_eq_false_2 by done. cbn [negb andb].
  apply forallb_forall. intros c Hc. unfold token_char.
  pose proof (re_split_go_chars _ name_sep [] false s (List.Forall_nil _) Hs) as H1.
  pose proof (NameFacts.re_split_go_tokens name_sep [] false s (List.Forall_nil _)) as H2.
  rewrite Forall_forall in H1, H2.
  apply list_elem_of_In in Hin, Hc.
  specialize (H1 p Hin). specialize (H2 p Hin).
  rewrite Forall_forall in H1, H2.
  by rewrite (H1 c Hc), (H2 c Hc).
Qed.

Lemma normalize_name_parts nfkd name :
  ∃ parts,
    normalize_name nfkd name = join (u " ") parts
    ∧ Forall (λ p, token p = true) parts.
Proof.
  unfold normalize_name. destruct name as [|c name]; [by exists []|].
  eexists. split; [reflexivity|].
  apply kept_parts_tokens, Forall_strip, lowered_chars.
Qed.

Lemma token_char_facts c :
  token_char c = true →
  (c <? 128)%N = true ∧ lower_ascii_char c = c
  ∧ name_sep c = false ∧ isspace c = false.
Proof.
  unfold token_char. intros H.
  apply andb_prop in H as [H Hsep]. apply andb_prop in H as [Hlt Hup].
  apply negb_true_iff in Hsep, Hup.
  split; [done|]. split; [unfold lower_ascii_char; (by rewrite Hup)|].
  split; [done|].
  unfold name_sep in Hsep. apply orb_false_elim in Hsep as [Hsep _].
  by apply orb_false_elim in Hsep as [_ Hsep].
Qed.

Lemma token_facts p :
  token p = true →
  p ≠ [] ∧ (p ∉ suffixes ++ prefixes) ∧ Forall (λ c, token_char c = true) p.
Proof.
  unfold token. intros H.
  apply andb_prop in H as [H Hchars]. apply andb_prop in H as [Hne Hno].
  apply negb_true_iff, bool_decide_eq_false in Hne, Hno.
  split; [done|]. split; [done|].
  apply Forall_forall. intros c Hc. apply list_elem_of_In in Hc.
  by eapply forallb_forall in Hchars.
Qed.

Lemma join_cons p q ps :
  join (u " ") (p :: q :: ps) = p ++ ch_space :: join (u " ") (q :: ps).
Proof. reflexivity. Qed.

Lemma join_tokens_chars parts :
  Forall (λ p, token p = true) parts →
  Forall (λ c, token_char c = true ∨ c = ch_space) (join (u " ") parts).
Proof.
  induction 1 as [|p ps Hp Hps IH]; [constructor|].
  apply token_facts in Hp as (_ & _ & Hp).
  assert (Forall (λ c, token_char c = true ∨ c = ch_space) p) as Hp'.
  { eapply Forall_impl; [exact Hp|]. intros c Hc. by left. }
  destruct ps as [|q ps]; [exact Hp'|].
  rewrite join_cons. apply Forall_app. split; [exact Hp'|].
  constructor; [by right | exact IH].
Qed.

Lemma join_tokens_first p ps :
  Forall (λ p, token p = true) (p :: ps) →
  ∃ c s, join (u " ") (p :: ps) = c :: s ∧ token_char c = true.
Proof.
  intros H. apply Forall_cons in H as [Hp _].
  apply token_facts in Hp as (Hne & _ & Hp).
  destruct p as [|c p]; [done|]. apply Forall_cons in Hp as [Hc _].
  destruct ps as [|q ps]; [by exists c, p|].
  rewrite join_cons. by eexists c, _.
Qed.

Lemma join_tokens_last p ps :
  Forall (λ p, token p = true) (p :: ps) →
  ∃ s c, join (u " ") (p :: ps) = s ++ [c] ∧ token_char c = true.
Proof.
  revert p. induction ps as [|q ps IH]; intros p H.
  - apply Forall_cons in H as [Hp _].
    apply token_facts in Hp as (Hne & _ & Hp).
    destruct (exists_last Hne) as (s & c & ->).
    apply Forall_app in Hp as [_ Hc]. apply Forall_cons in Hc as [Hc _].
    by exists s, c.
  - apply Forall_cons in H as [_ H].
    destruct (IH q H) as (s & c & Hs & Hc).
    rewrite join_cons, Hs. exists (p ++ ch_space :: s), c.
    split; [|done]. by rewrite <- app_assoc.
Qed.

Lemma re_split_go_token cls cur p s :
  Forall (λ c, cls c = false) p →
  re_split_go cls cur false (p ++ s) = re_split_go cls (rev p ++ cur) false s.
Proof.
  intros Hp. revert cur. induction Hp as [|c p Hc Hp IH]; intros cur; [done|].
  cbn [app re_split_go]. rewrite Hc, IH. cbn [rev]. by rewrite <- app_assoc.
Qed.

Lemma re_split_join_tokens parts :
  Forall (λ p, token p = true) parts → parts ≠ [] →
  re_split name_sep (join (u " ") parts) = parts.
Proof.
  unfold re_split. induction 1 as [|p ps Hp Hps IH]; intros Hne; [done|].
  pose proof Hp as Hp'. apply token_facts in Hp' as (_ & _ & Hchars).
  assert (Forall (λ c, name_sep c = false) p) as Hsep.
  { eapply Forall_impl; [exact Hchars|]. intros c Hc.
    by apply token_char_facts in Hc as (_ & _ & Hc & _). }
  destruct ps as [|q ps].
  - change (join (u " ") [p]) with p. rewrite <- (app_nil_r p) at 1.
    rewrite re_split_go_token by done. cbn [re_split_go].
    by rewrite app_nil_r, rev_involutive.
  - rewrite join_cons, re_split_go_token by done.
    cbn [re_split_go]. change (name_sep ch_space) with true. cbn iota.
    rewrite app_nil_r, rev_involutive. f_equal.
    destruct (join_tokens_first q ps Hps) as (c & s & Hjoin & Hc).
    apply token_char_facts in Hc as (_ & _ & Hc & _).
    transitivity (re_split_go name_sep [] false (join (u " ") (q :: ps)));
      [|by apply IH].
    rewrite Hjoin. cbn [re_split_go]. by rewrite Hc.
Qed.

(** Normalizing the join of tokens gives it back, when the decomposition
    table leaves it as it is. *)
Lemma normalize_join_tokens nfkd parts :
  Forall (λ p, token p = true) parts →
  nfkd (join (u " ") parts) = join (u " ") parts →
  normalize_name nfkd (join (u " ") parts) = join (u " ") parts.
Proof.
  intros Htok Hnfkd. destruct parts as [|p ps]; [done|].
  destruct (join_tokens_first p ps Htok) as (c1 & s1 & Hfirst & Hc1).
  destruct (join_tokens_last p ps Htok) as (s2 & c2 & Hlast & Hc2).
  pose proof (join_tokens_chars _ Htok) as Hchars.
  unfold normalize_name. rewrite Hnfkd.
  destruct (join (u " ") (p :: ps)) as [|c0 s0] eqn:Hjoin; [done|].
  rewrite <- Hjoin in *. clear Hjoin c0 s0.
  assert (ascii_ignore (join (u " ") (p :: ps)) = join (u " ") (p :: ps)) as ->.
  { unfold ascii_ignore. apply forallb_filter_id, forallb_forall.
    intros c Hc. rewrite Forall_forall in Hchars.
    apply list_elem_of_In in Hc.
    destruct (Hchars c Hc) as [H| ->]; [|done].
    by apply token_char_facts in H as (H & _). }
  assert (lower_ascii (join (u " ") (p :: ps)) = join (u " ") (p :: ps)) as ->.
  { unfold lower_ascii. rewrite <- (map_id (join (u " ") (p :: ps))) at 2.
    apply map_ext_in. intros c Hc. rewrite Forall_forall in Hchars.
    apply list_elem_of_In in Hc.
    destruct (Hchars c Hc) as [H| ->]; [|done].
    by apply token_char_facts in H as (_ & H & _). }
  assert (strip (join (u " ") (p :: ps)) = join (u " ") (p :: ps)) as ->.
  { apply (DateFacts.strip_keep _ c1 c2 s1 s2 Hfirst Hlast).
    - by apply token_char_facts in Hc1 as (_ & _ & _ & H).
    - by apply token_char_facts in Hc2 as (_ & _ & _ & H). }
  rewrite re_split_join_tokens by done.
  f_equal. apply forallb_filter_id, forallb_forall. intros q Hq.
  apply list_elem_of_In in Hq. rewrite Forall_forall in Htok.
  apply Htok, token_facts in Hq as (Hne & Hno & _).
  by rewrite !bool_decide_eq_false_2.
Qed.

Lemma get_name_variations_one nfkd first last :
  get_name_variations nfkd first last
  = [(normalize_name nfkd first, normalize_name nfkd last)].
Proof.
  assert (∀ name, has_char ch_hyphen (normalize_name nfkd name) = false) as Hno.
  { intros name.
    apply NameFacts.token_or_space_no_hyphen, NameFacts.normalize_name_chars. }
  unfold get_name_variations. rewrite !Hno. cbn [andb app unique_go].
  rewrite bool_decide_eq_false_2 by set_solver. done.
Qed.

Lemma attempt_strategy_normalized nfkd s first last obit :
  is_Some (attempt_strategy nfkd s first last obit)
  ↔ ∃ p, compared_with s obit = Some p
         ∧ normalize_name nfkd first = normalize_name nfkd p.1
         ∧ normalize_name nfkd last = normalize_name nfkd p.2.
Proof.
  unfold attempt_strategy.
  destruct (compared_with s obit) as [p|]; cbn [mbind option_bind].
  - rewrite !get_name_variations_one. cbn [first_equal existsb fst snd].
    rewrite orb_false_r. split.
    + intros [v Hv]. exists p. split; [done|].
      destruct (bool_decide (normalize_name nfkd first = normalize_name nfkd p.1))
        eqn:H1; [|done].
      destruct (bool_decide (normalize_name nfkd last = normalize_name nfkd p.2))
        eqn:H2; [|done].
      by apply bool_decide_eq_true in H1, H2.
    + intros (p' & [= <-] & H1 & H2).
      by rewrite !bool_decide_eq_true_2.
  - split; [by intros [v Hv] | by intros (p' & Hp & _)].
Qed.

(** X6: A normalized name is a sequence of tokens joined by single spaces;
    a token is not empty, is none of the titles and suffixes the
    normalizer drops, and holds only ASCII characters, none of them an
    uppercase letter, a period, a hyphen or white space. *)
Theorem normalized_name_is_joined_tokens
    (nfkd : Py.ustring → Py.ustring) (name : Py.ustring) :
  ∃ parts,
    FilterResults.normalize_name nfkd name = Py.join (Py.u " ") parts
    ∧ Forall (λ p, NameSpec.token p = true) parts.
Proof. apply MatcherFacts.normalize_name_parts. Qed.

(** X7: Normalizing is idempotent: a normalized name that the decomposition
    table leaves as it is (as the table of the Unicode standard leaves
    every ASCII string) normalizes to itself. *)
Theorem normalize_name_idempotent
    (nfkd : Py.ustring → Py.ustring) (name : Py.ustring) :
  nfkd (FilterResults.normalize_name nfkd name)
  = FilterResults.normalize_name nfkd name →
  FilterResults.normalize_name nfkd (FilterResults.normalize_name nfkd name)
  = FilterResults.normalize_name nfkd name.
Proof.
  destruct (MatcherFacts.normalize_name_parts nfkd name) as (parts & -> & Htok).
  by apply MatcherFacts.normalize_join_tokens.
Qed.

Lemma normalize_name_idempotent_witness :
  FilterResults.nfkd_latin
    (FilterResults.normalize_name FilterResults.nfkd_latin
       (Py.u "Dr. Anne-Marie O'Neil, Jr."))
  = FilterResults.normalize_name FilterResults.nfkd_latin
      (Py.u "Dr. Anne-Marie O'Neil, Jr.")
  ∧ FilterResults.normalize_name FilterResults.nfkd_latin
      (FilterResults.normalize_name FilterResults.nfkd_latin
         (Py.u "Dr. Anne-Marie O'Neil, Jr."))
    = FilterResults.normalize_name FilterResults.nfkd_latin
        (Py.u "Dr. Anne-Marie O'Neil, Jr.").
Proof.
  assert (FilterResults.nfkd_latin
            (FilterResults.normalize_name FilterResults.nfkd_latin
               (Py.u "Dr. Anne-Marie O'Neil, Jr."))
          = FilterResults.normalize_name FilterResults.nfkd_latin
              (Py.u "Dr. Anne-Marie O'Neil, Jr.")) as H
    by (vm_compute; reflexivity).
  split; [exact H|].
  exact (normalize_name_idempotent FilterResults.nfkd_latin
           (Py.u "Dr. Anne-Marie O'Neil, Jr.") H).
Defined.

(** X8: A candidate matches a name record exactly when the record is not
    empty and, for one of the four strategies whose field is present, the
    normalized candidate names equal the normalized names the strategy
    compares with: the hyphen variations play no part. *)
Theorem match_compares_normalized_names
    (nfkd : Py.ustring → Py.ustring) (first last : Py.ustring)
    (obit : gmap string Py.ustring) :
  (FilterResults.check_name_match nfkd first last obit).1 = true
  ↔ obit ≠ ∅
    ∧ ∃ s p,
        MatchSpec.compared_with s obit = Some p
        ∧ FilterResults.normalize_name nfkd first
          = FilterResults.normalize_name nfkd p.1
        ∧ FilterResults.normalize_name nfkd last
          = FilterResults.normalize_name nfkd p.2.
Proof.
  destruct (decide (obit = ∅)) as [->|Hne].
  { split; [|by intros [H _]].
    unfold FilterResults.check_name_match.
    by rewrite bool_decide_eq_true_2. }
  rewrite NameFacts.check_name_match_strategies by done.
  pose proof (λ s, MatcherFacts.attempt_strategy_normalized nfkd s first last obit)
    as Hs.
  split.
  - intros Hm. split; [done|].
    destruct (MatchSpec.attempt_strategy nfkd MatchSpec.Exact first last obit)
      eqn:H0.
    { exists MatchSpec.Exact. apply Hs. by rewrite H0. }
    destruct (MatchSpec.attempt_strategy nfkd MatchSpec.MiddleAsFirst first last obit)
      eqn:H1.
    { exists MatchSpec.MiddleAsFirst. apply Hs. by rewrite H1. }
    destruct (MatchSpec.attempt_strategy nfkd MatchSpec.NicknameAsFirst first last obit)
      eqn:H2.
    { exists MatchSpec.NicknameAsFirst. apply Hs. by rewrite H2. }
    destruct (MatchSpec.attempt_strategy nfkd MatchSpec.MaidenAsLast first last obit)
      eqn:H3.
    { exists MatchSpec.MaidenAsLast. apply Hs. by rewrite H3. }
    discriminate Hm.
  - intros (_ & s & Hp). apply Hs in Hp as [v Hv].
    destruct (MatchSpec.attempt_strategy nfkd MatchSpec.Exact first last obit)
      eqn:H0; [done|].
    destruct (MatchSpec.attempt_strategy nfkd MatchSpec.MiddleAsFirst first last obit)
      eqn:H1; [done|].
    destruct (MatchSpec.attempt_strategy nfkd MatchSpec.NicknameAsFirst first last obit)
      eqn:H2; [done|].
    destruct (MatchSpec.attempt_strategy nfkd MatchSpec.MaidenAsLast first last obit)
      eqn:H3; [done|].
    destruct s; congruence.
Qed.

End MatcherFacts.

(** ** The progress file of an input file *)

Module StoreFacts.
Import Py Checkpoint Eff Licenses Examples.

Lemma save_progress_file (stem : ustring → ustring)
    (files : gmap ustring (list chunk)) (file_path : ustring) (idx : Z)
    (now : ustring) (additional : dict) :
  save_progress stem file_path idx now additional files
  = <[progress_file stem file_path :=
        json_dump (progress_data file_path idx now additional)]> files.
Proof.
  pose proof (CheckpointFacts.interrupted_file stem
                (length (json_dump (progress_data file_path idx now additional)))
                file_path idx now additional files) as H.
  rewrite firstn_all in H. rewrite <- H.
  unfold save_progress, save_progress_interrupted. f_equal.
  symmetry. apply take_ge. unfold save_progress_ops.
  cbn [length]. rewrite length_map. lia.
Qed.

Lemma load_after_save (stem : ustring → ustring)
    (files : gmap ustring (list chunk)) (file_path : ustring) (idx : Z)
    (now : ustring) (additional : dict) :
  dict_get additional (u "last_processed_index") = None →
  load_progress stem (save_progress stem file_path idx now additional files)
    file_path
  = JInt idx.
Proof.
  intros Hadd. rewrite save_progress_file. unfold load_progress.
  rewrite lookup_insert_eq.
  rewrite CheckpointFacts.json_load_dump by apply CheckpointFacts.progress_data_keys.
  by rewrite CheckpointFacts.progress_data_index.
Qed.

(** X9: The checkpoint of an input file is kept under the stem of its path:
    a save for one path is what a load for another path reads when the
    two have the same stem, and it leaves the checkpoint of every path
    with another stem as it was. *)
Theorem checkpoint_keyed_by_stem
    (stem : ustring → ustring) (files : gmap ustring (list chunk))
    (saved loaded : ustring) (idx : Z) (now : ustring) (additional : dict) :
  dict_get additional (u "last_processed_index") = None →
  load_progress stem (save_progress stem saved idx now additional files) loaded
  = (if bool_decide (stem saved = stem loaded) then JInt idx
     else load_progress stem files loaded).
Proof.
  intros Hadd. case_bool_decide as Hstem.
  - assert (load_progress stem
              (save_progress stem saved idx now additional files) loaded
            = load_progress stem
                (save_progress stem saved idx now additional files) saved) as ->.
    { unfold load_progress, progress_file. by rewrite Hstem. }
    by apply load_after_save.
  - rewrite save_progress_file. unfold load_progress.
    rewrite lookup_insert_ne; [done|].
    unfold progress_file. intros Heq. by apply app_inv_tail in Heq.
Qed.

Lemma checkpoint_keyed_by_stem_witness :
  dict_get (counters 3 40) (u "last_processed_index") = None
  ∧ load_progress Posix.stem
      (save_progress Posix.stem (u "./nursing/licenses.csv") 57 (clock0 0)
         (counters 3 40) ∅)
      (u "./physician/licenses.csv")
    = JInt 57.
Proof.
  assert (dict_get (counters 3 40) (u "last_processed_index") = None) as H
    by (vm_compute; reflexivity).
  split; [exact H|].
  exact (eq_trans
           (checkpoint_keyed_by_stem Posix.stem ∅ (u "./nursing/licenses.csv")
              (u "./physician/licenses.csv") 57 (clock0 0) (counters 3 40) H)
           eq_refl).
Defined.

End StoreFacts.

(** ** main.py: what a run writes, and a second run after a completed one *)

Module SequentialFacts.
Import Py Checkpoint Eff Licenses RunSpec SequentialSpec Examples.

Section Sequential.

Variable str_lower : ustring → ustring.
Variable decimal : N → option N.
Variable stem : ustring → ustring.
Variable clock : nat → ustring.
Variable http : nat → nat → reply.

Lemma rows_loop_skips K file_path start_idx idx row rest tf tp w :
  as_int start_idx = Some K →
  eligible decimal K idx row = false →
  Main.rows_loop str_lower decimal stem clock http file_path start_idx idx
    (row :: rest) tf tp w
  = Main.rows_loop str_lower decimal stem clock http file_path start_idx (S idx)
      rest tf tp w.
Proof.
  intros HK Hskip. cbn [Main.rows_loop]. rewrite HK. unfold eligible in Hskip.
  destruct (Z.of_nat idx <? K); [done|].
  destruct (recent_expiration decimal row); [|done].
  destruct (usable_names _ _); [discriminate Hskip | done].
Qed.

Lemma eligible_true K idx row :
  eligible decimal K idx row = true →
  K ≤ Z.of_nat idx
  ∧ recent_expiration decimal row = true
  ∧ usable_names (strip (get row "First Name")) (strip (get row "Last Name"))
    = true.
Proof.
  unfold eligible. intros H.
  apply andb_prop in H as [H Hnames]. apply andb_prop in H as [Hge Hdate].
  apply negb_true_iff, Z.ltb_ge in Hge. done.
Qed.

(** When the fetch of an eligible row finds an obituary, the row is
    written, the flush raises, and the run saves the error and returns. *)
Lemma rows_loop_found K file_path start_idx idx row rest tf tp w w1 :
  as_int start_idx = Some K →
  eligible decimal K idx row = true →
  Main.search_legacy_obituary str_lower http idx
    (strip (get row "First Name")) (strip (get row "Last Name")) 3 w
  = (Ok true, w1) →
  Main.rows_loop str_lower decimal stem clock http file_path start_idx idx
    (row :: rest) tf tp w
  = (Ok None,
     (Main.save stem clock file_path (Z.of_nat idx)
        (counters (tf + 1) (tp + 1) ++ [(u "error", JStr name_error)])
        (Main.writerow row w1).2).2).
Proof.
  intros HK Hel Hfetch. apply eligible_true in Hel as (Hge & Hdate & Hnames).
  cbn [Main.rows_loop]. rewrite HK, Hdate, Hnames.
  rewrite (proj2 (Z.ltb_ge _ _)) by done. cbn [negb].
  rewrite MainFacts.bind_eq. unfold try_except at 1.
  rewrite MainFacts.bind_eq, Hfetch.
  reflexivity.
Qed.

(** The loop writes at most one row: the first found row ends it. *)
Lemma rows_loop_first_found K file_path start_idx rows :
  as_int start_idx = Some K →
  ∀ idx tp w,
  ∃ new,
    Main.written
      (Main.rows_loop str_lower decimal stem clock http file_path start_idx idx
         rows 0 tp w).2
    = Main.written w ++ new
    ∧ match
        (Main.rows_loop str_lower decimal stem clock http file_path start_idx
           idx rows 0 tp w).1
      with
      | Ok (Some (tf, _)) => new = [] ∧ tf = 0
      | Ok None =>
          new = []
          ∨ ∃ j row tp' pre,
              rows !! j = Some row ∧ new = [row]
              ∧ Main.log
                  (Main.rows_loop str_lower decimal stem clock http file_path
                     start_idx idx rows 0 tp w).2
                = pre ++ [Saved (Z.of_nat (idx + j))
                            (counters 1 tp'
                               ++ [(u "error", JStr name_error)])]
      | Raise _ => new = []
      end.
Proof.
  intros HK. induction rows as [|row rest IH]; intros idx tp w.
  { exists []. by rewrite app_nil_r. }
  assert (∀ tp1 w1,
            Main.rows_loop str_lower decimal stem clock http file_path start_idx
              idx (row :: rest) 0 tp w
            = Main.rows_loop str_lower decimal stem clock http file_path
                start_idx (S idx) rest 0 tp1 w1 →
            Main.written w1 = Main.written w →
            ∃ new,
              Main.written
                (Main.rows_loop str_lower decimal stem clock http file_path
                   start_idx idx (row :: rest) 0 tp w).2
              = Main.written w ++ new
              ∧ match
                  (Main.rows_loop str_lower decimal stem clock http file_path
                     start_idx idx (row :: rest) 0 tp w).1
                with
                | Ok (Some (tf, _)) => new = [] ∧ tf = 0
                | Ok None =>
                    new = []
                    ∨ ∃ j row0 tp' pre,
                        (row :: rest) !! j = Some row0 ∧ new = [row0]
                        ∧ Main.log
                            (Main.rows_loop str_lower decimal stem clock http
                               file_path start_idx idx (row :: rest) 0 tp w).2
                          = pre ++ [Saved (Z.of_nat (idx + j))
                                      (counters 1 tp'
                                         ++ [(u "error", JStr name_error)])]
                | Raise _ => new = []
                end) as Hcont.
  { intros tp1 w1 -> Hw. destruct (IH (S idx) tp1 w1) as (new & Hnew & Hres).
    exists new. rewrite Hnew, Hw. split; [done|].
    destruct (Main.rows_loop _ _ _ _ _ _ _ _ _ _ _ w1).1 as [[[tf tp2]|]|msg];
      try done.
    destruct Hres as [->|(j & row0 & tp' & pre & Hj & -> & Hlog)]; [by left|].
    right. exists (S j), row0, tp', pre. split; [done|]. split; [done|].
    rewrite Hlog. by rewrite Nat.add_succ_r. }
  destruct (eligible decimal K idx row) eqn:Hel.
  2: { apply (Hcont tp w); [by eapply rows_loop_skips | done]. }
  destruct (MainFacts.attempts_effect str_lower http idx
              (strip (get row "First Name")) (strip (get row "Last Name"))
              3 3 0 w) as (r & evs & Hfetch & _).
  change (Main.attempts str_lower http idx ?f ?l 3 3 0 w)
    with (Main.search_legacy_obituary str_lower http idx f l 3 w) in Hfetch.
  destruct r as [[|]|msg].
  - rewrite (rows_loop_found K _ _ _ _ _ _ _ _ _ HK Hel Hfetch).
    exists [row]. split; [done|]. right.
    exists 0%nat, row, (tp + 1), (Main.log w ++ evs).
    split; [done|]. split; [done|]. by rewrite Nat.add_0_r.
  - pose proof Hel as Hel'. apply eligible_true in Hel' as (Hge & Hdate & Hnames).
    destruct (MainFacts.rows_loop_goes_on str_lower decimal stem clock http K
                file_path start_idx idx row rest 0 tp w _ HK Hge Hdate Hnames
                Hfetch) as (w2 & Heq & Hw2 & _).
    by apply (Hcont (tp + 1) w2).
  - pose proof Hel as Hel'. apply eligible_true in Hel' as (Hge & Hdate & Hnames).
    rewrite (MainFacts.rows_loop_stops str_lower decimal stem clock http K
               file_path start_idx idx row rest 0 tp w msg _ HK Hge Hdate Hnames
               Hfetch).
    exists []. split; [by rewrite app_nil_r | by left].
Qed.

Lemma rows_loop_all_skipped K file_path start_idx rows :
  as_int start_idx = Some K →
  ∀ idx tf tp w,
    Z.of_nat (idx + length rows) ≤ K →
    Main.rows_loop str_lower decimal stem clock http file_path start_idx idx
      rows tf tp w
    = (Ok (Some (tf, tp)), w).
Proof.
  intros HK. induction rows as [|row rest IH]; intros idx tf tp w Hle; [done|].
  cbn [length] in Hle.
  rewrite (rows_loop_skips K) by
    (try done; unfold eligible; rewrite (proj2 (Z.ltb_lt _ _)) by lia; done).
  apply IH. lia.
Qed.

(** A run that returns [True] leaves the number of rows as checkpoint. *)
Lemma completed_run_checkpoint file_path rows w :
  (Main.process_licenses str_lower decimal stem clock http file_path rows w).1
  = Ok true →
  load_progress stem
    (Main.files
       (Main.process_licenses str_lower decimal stem clock http file_path rows
          w).2)
    file_path
  = JInt (Z.of_nat (length rows)).
Proof.
  unfold Main.process_licenses. rewrite MainFacts.bind_eq. cbn [gets].
  destruct (as_int (load_progress stem (Main.files w) file_path)); [|done].
  rewrite MainFacts.bind_eq.
  destruct (Main.rows_loop _ _ _ _ _ _ _ _ _ _ _ w) as [[[[tf tp]|]|msg] w1];
    [|done..].
  intros _. cbn [snd Main.save modify Main.files mbind M_bind bind mret M_ret ret].
  by apply StoreFacts.load_after_save.
Qed.

Lemma sorted_app (l1 l2 : list nat) :
  StronglySorted le l1 → StronglySorted le l2 →
  (∀ x y, x ∈ l1 → y ∈ l2 → (x ≤ y)%nat) →
  StronglySorted le (l1 ++ l2).
Proof.
  intros H1 H2 H. induction H1 as [|x l1 Hl1 IH Hx]; [done|].
  cbn [app]. constructor.
  - apply IH. intros x' y Hx' Hy. apply H; [by right | done].
  - apply Forall_app. split; [done|].
    apply Forall_forall. intros y Hy. apply H; [by left | done].
Qed.

Lemma sorted_same (idx : nat) (l : list nat) :
  Forall (λ i, i = idx) l → StronglySorted le l.
Proof.
  induction 1 as [|x l -> Hl IH]; constructor; [done|].
  eapply Forall_impl; [exact Hl|]. intros i ->. done.
Qed.

(** The loop asks about eligible rows only, in the order of the input. *)
Lemma rows_loop_requests K file_path start_idx rows :
  as_int start_idx = Some K →
  ∀ idx tf tp w,
  ∃ evs,
    Main.log
      (Main.rows_loop str_lower decimal stem clock http file_path start_idx idx
         rows tf tp w).2
    = Main.log w ++ evs
    ∧ Forall
        (λ i, ∃ j r, i = (idx + j)%nat ∧ rows !! j = Some r
                     ∧ eligible decimal K i r = true)
        (requested evs)
    ∧ StronglySorted le (requested evs).
Proof.
  intros HK. induction rows as [|row rest IH]; intros idx tf tp w.
  { exists []. rewrite app_nil_r. split; [done|]. split; constructor. }
  assert (∀ pre tf1 tp1 w1,
            Main.log w1 = Main.log w ++ pre →
            Forall (λ i, i = idx) (requested pre) →
            (requested pre ≠ [] → eligible decimal K idx row = true) →
            ∃ evs,
              Main.log
                (Main.rows_loop str_lower decimal stem clock http file_path
                   start_idx (S idx) rest tf1 tp1 w1).2
              = Main.log w ++ evs
              ∧ Forall
                  (λ i, ∃ j r, i = (idx + j)%nat ∧ (row :: rest) !! j = Some r
                               ∧ eligible decimal K i r = true)
                  (requested evs)
              ∧ StronglySorted le (requested evs)) as Hcont.
  { intros pre tf1 tp1 w1 Hlog Hpre Hel.
    destruct (IH (S idx) tf1 tp1 w1) as (evs & Hevs & Hall & Hsorted).
    exists (pre ++ evs). rewrite Hevs, Hlog, <- app_assoc.
    split; [done|]. rewrite MainFacts.requested_app. split.
    - apply Forall_app. split.
      + apply Forall_forall. intros i Hi.
        rewrite Forall_forall in Hpre. rewrite (Hpre i Hi).
        exists 0%nat, row. rewrite Nat.add_0_r. split; [done|]. split; [done|].
        apply Hel. intros Hnil. rewrite Hnil in Hi. by inversion Hi.
      + eapply Forall_impl; [exact Hall|].
        intros i (j & r & -> & Hj & Hr). exists (S j), r.
        split; [lia|]. split; done.
    - apply sorted_app; [by eapply sorted_same | done |].
      intros x y Hx Hy. rewrite Forall_forall in Hpre, Hall.
      rewrite (Hpre x Hx). destruct (Hall y Hy) as (j & _ & -> & _). lia. }
  destruct (eligible decimal K idx row) eqn:Hel.
  2: { rewrite (rows_loop_skips K) by done.
       apply (Hcont []); [by rewrite app_nil_r | constructor | done]. }
  destruct (MainFacts.attempts_effect str_lower http idx
              (strip (get row "First Name")) (strip (get row "Last Name"))
              3 3 0 w) as (r & evs & Hfetch & Hevs).
  change (Main.attempts str_lower http idx ?f ?l 3 3 0 w)
    with (Main.search_legacy_obituary str_lower http idx f l 3 w) in Hfetch.
  assert (Forall
            (λ i, ∃ j r, i = (idx + j)%nat ∧ (row :: rest) !! j = Some r
                         ∧ eligible decimal K i r = true)
            (requested evs)) as Hhere.
  { eapply Forall_impl; [exact Hevs|]. intros i ->.
    exists 0%nat, row. by rewrite Nat.add_0_r. }
  pose proof Hel as Hel'. apply eligible_true in Hel' as (Hge & Hdate & Hnames).
  destruct r as [[|]|msg].
  - rewrite (rows_loop_found K _ _ _ _ _ _ _ _ _ HK Hel Hfetch).
    eexists (evs ++ [Saved _ _]). split.
    { cbn [snd Main.save Main.writerow modify Main.log logged].
      by rewrite <- app_assoc. }
    rewrite MainFacts.requested_app. cbn [requested]. rewrite app_nil_r.
    split; [done | by eapply sorted_same].
  - destruct (MainFacts.rows_loop_goes_on str_lower decimal stem clock http K
                file_path start_idx idx row rest tf tp w _ HK Hge Hdate Hnames
                Hfetch) as (w2 & -> & _ & evs' & Hlog2 & Hreq2).
    apply (Hcont (evs ++ evs')).
    + rewrite Hlog2. cbn [logged Main.log]. by rewrite app_assoc.
    + rewrite MainFacts.requested_app, Hreq2, app_nil_r. done.
    + done.
  - rewrite (MainFacts.rows_loop_stops str_lower decimal stem clock http K
               file_path start_idx idx row rest tf tp w msg _ HK Hge Hdate Hnames
               Hfetch).
    eexists (evs ++ [Saved _ _]). split.
    { cbn [snd Main.save modify Main.log logged]. by rewrite <- app_assoc. }
    rewrite MainFacts.requested_app. cbn [requested]. rewrite app_nil_r.
    split; [done | by eapply sorted_same].
Qed.

(** X10: [process_licenses] hands at most one row to the writer.  A run that
    returns [True] has written none.  When a row is written, it is a row
    of the input, the run returns [False], and the last thing it does is
    to save the index of that row with a total of one found and the
    error of the flush that follows the write. *)
Theorem sequential_run_writes_at_most_one_row
    (file_path : ustring) (rows : list row) (w : Main.world) :
  ∃ new,
    Main.written
      (Main.process_licenses str_lower decimal stem clock http file_path rows
         w).2
    = Main.written w ++ new
    ∧ (length new ≤ 1)%nat
    ∧ ((Main.process_licenses str_lower decimal stem clock http file_path rows
          w).1 = Ok true →
       new = [])
    ∧ (new ≠ [] →
       (Main.process_licenses str_lower decimal stem clock http file_path rows
          w).1 = Ok false
       ∧ ∃ i row tp pre,
           rows !! i = Some row ∧ new = [row]
           ∧ Main.log
               (Main.process_licenses str_lower decimal stem clock http
                  file_path rows w).2
             = pre ++ [Saved (Z.of_nat i)
                         (counters 1 tp ++ [(u "error", JStr name_error)])]).
Proof.
  unfold Main.process_licenses. rewrite MainFacts.bind_eq. cbn [gets].
  destruct (as_int (load_progress stem (Main.files w) file_path)) as [K|] eqn:HK.
  2: { exists []. rewrite app_nil_r. cbn [length]. split; [done|].
       split; [lia|]. split; done. }
  rewrite MainFacts.bind_eq.
  destruct (rows_loop_first_found K file_path _ rows HK 0%nat 0 w)
    as (new & Hnew & Hres).
  destruct (Main.rows_loop _ _ _ _ _ _ _ _ _ _ _ w) as [[[[tf tp]|]|msg] w1];
    cbn [fst snd] in *.
  - destruct Hres as [-> ->]. exists []. split; [done|].
    cbn [length]. split; [lia|]. split; done.
  - exists new. split; [done|].
    destruct Hres as [->|(j & row & tp' & pre & Hj & -> & Hlog)].
    + cbn [length]. split; [lia|]. split; done.
    + cbn [length]. split; [lia|]. split; [done|]. intros _. split; [done|].
      by exists j, row, tp', pre.
  - subst new. exists []. cbn [length].
    split; [done|]. split; [lia|]. split; done.
Qed.

(** X11: A run of [process_licenses] that starts from the numeric checkpoint
    [K] asks the service about eligible rows only: rows of the input at
    index [K] or later whose expiration is recent and whose names are
    usable.  It asks in the order of the input, all the attempts for a
    row before the first for the next. *)
Theorem sequential_run_asks_eligible_rows_in_order
    (file_path : ustring) (rows : list row) (K : Z) (w : Main.world) :
  as_int (load_progress stem (Main.files w) file_path) = Some K →
  ∃ evs,
    Main.log
      (Main.process_licenses str_lower decimal stem clock http file_path rows
         w).2
    = Main.log w ++ evs
    ∧ Forall
        (λ i, ∃ r, rows !! i = Some r ∧ eligible decimal K i r = true)
        (requested evs)
    ∧ StronglySorted le (requested evs).
Proof.
  intros HK. unfold Main.process_licenses.
  rewrite MainFacts.bind_eq. cbn [gets]. rewrite HK, MainFacts.bind_eq.
  destruct (rows_loop_requests K file_path _ rows HK 0%nat 0 0 w)
    as (evs & Hlog & Hall & Hsorted).
  assert (Forall
            (λ i, ∃ r, rows !! i = Some r ∧ eligible decimal K i r = true)
            (requested evs)) as Hall'.
  { eapply Forall_impl; [exact Hall|]. intros i (j & r & -> & Hj & Hr).
    by exists r. }
  destruct (Main.rows_loop _ _ _ _ _ _ _ _ _ _ _ w) as [[[[tf tp]|]|msg] w1];
    cbn [snd] in *.
  - eexists (evs ++ [Saved _ _]). split.
    { rewrite MainFacts.bind_eq. cbn [Main.save modify Main.log snd].
      by rewrite Hlog, <- app_assoc. }
    rewrite MainFacts.requested_app. cbn [requested]. by rewrite app_nil_r.
  - by exists evs.
  - by exists evs.
Qed.

(** X12: After a run that returned [True], a second run over the same rows
    asks the service nothing and writes nothing: it skips every row and
    saves the final checkpoint again, with both totals at zero. *)
Theorem rerun_after_completed_run_is_idle
    (file_path : ustring) (rows : list row) (w : Main.world) :
  (Main.process_licenses str_lower decimal stem clock http file_path rows w).1
  = Ok true →
  Main.process_licenses str_lower decimal stem clock http file_path rows
    (Main.process_licenses str_lower decimal stem clock http file_path rows w).2
  = (Ok true,
     (Main.save stem clock file_path (Z.of_nat (length rows))
        (counters 0 0 ++ [(u "completed", JBool true)])
        (Main.process_licenses str_lower decimal stem clock http file_path rows
           w).2).2)
  ∧ Main.written
      (Main.process_licenses str_lower decimal stem clock http file_path rows
         (Main.process_licenses str_lower decimal stem clock http file_path rows
            w).2).2
    = Main.written
        (Main.process_licenses str_lower decimal stem clock http file_path rows
           w).2
  ∧ requested
      (Main.log
         (Main.process_licenses str_lower decimal stem clock http file_path rows
            (Main.process_licenses str_lower decimal stem clock http file_path
               rows w).2).2)
    = requested
        (Main.log
           (Main.process_licenses str_lower decimal stem clock http file_path
              rows w).2).
Proof.
  intros Hdone. apply completed_run_checkpoint in Hdone.
  set (w1 := (Main.process_licenses str_lower decimal stem clock http file_path
                rows w).2) in *.
  assert (Main.process_licenses str_lower decimal stem clock http file_path rows
            w1
          = (Ok true,
             (Main.save stem clock file_path (Z.of_nat (length rows))
                (counters 0 0 ++ [(u "completed", JBool true)]) w1).2)) as Hrun.
  { unfold Main.process_licenses at 1. rewrite MainFacts.bind_eq. cbn [gets].
    rewrite Hdone. cbn [as_int]. rewrite MainFacts.bind_eq.
    rewrite (rows_loop_all_skipped (Z.of_nat (length rows))) by (done || lia).
    reflexivity. }
  rewrite Hrun. split; [done|]. split; [done|].
  cbn [snd Main.save modify Main.log]. rewrite MainFacts.requested_app.
  cbn [requested]. by rewrite app_nil_r.
Qed.

End Sequential.

Lemma sequential_run_asks_eligible_rows_in_order_witness :
  as_int (load_progress stem_id (Main.files resumed_world) (u "x.csv")) = Some 1
  ∧ ∃ evs,
      Main.log
        (Main.process_licenses lower_ascii ascii_decimal stem_id clock0 http_found
           (u "x.csv") rows2 resumed_world).2
      = Main.log resumed_world ++ evs
      ∧ Forall
          (λ i, ∃ r, rows2 !! i = Some r ∧ eligible ascii_decimal 1 i r = true)
          (requested evs)
      ∧ StronglySorted le (requested evs).
Proof.
  assert (as_int (load_progress stem_id (Main.files resumed_world) (u "x.csv"))
          = Some 1) as H by (vm_compute; reflexivity).
  split; [exact H|].
  exact (sequential_run_asks_eligible_rows_in_order lower_ascii ascii_decimal
           stem_id clock0 http_found (u "x.csv") rows2 1 resumed_world H).
Defined.

Lemma rerun_after_completed_run_is_idle_witness :
  (Main.process_licenses lower_ascii ascii_decimal stem_id clock0 http_503
     (u "x.csv") rows2 Main.empty_world).1
  = Ok true
  ∧ requested
      (Main.log
         (Main.process_licenses lower_ascii ascii_decimal stem_id clock0 http_503
            (u "x.csv") rows2
            (Main.process_licenses lower_ascii ascii_decimal stem_id clock0
               http_503 (u "x.csv") rows2 Main.empty_world).2).2)
    = requested
        (Main.log
           (Main.process_licenses lower_ascii ascii_decimal stem_id clock0
              http_503 (u "x.csv") rows2 Main.empty_world).2).
Proof.
  assert ((Main.process_licenses lower_ascii ascii_decimal stem_id clock0 http_503
             (u "x.csv") rows2 Main.empty_world).1
          = Ok true) as H by (vm_compute; reflexivity).
  split; [exact H|].
  exact (proj2 (proj2 (rerun_after_completed_run_is_idle lower_ascii
                         ascii_decimal stem_id clock0 http_503 (u "x.csv") rows2
                         Main.empty_world H))).
Defined.

End SequentialFacts.

(** ** main-parallel.py: batches, valid rows, and what a run writes *)

Module BatchFacts.
Import Py Checkpoint Eff Licenses RunSpec BatchSpec Examples.
Import MainParallel.

Lemma batches_concat {A} (batch_size : nat) :
  (0 < batch_size)%nat →
  ∀ fuel (l : list A), (length l ≤ fuel)%nat →
    List.concat (batches fuel batch_size l) = l.
Proof.
  intros Hpos. induction fuel as [|fuel IH]; intros l Hlen.
  - destruct l; [done | cbn in Hlen; lia].
  - destruct l as [|x l]; [done|].
    cbn [batches List.concat]. rewrite IH; [apply take_drop|].
    rewrite length_drop. cbn [length] in *. lia.
Qed.

Lemma batches_sizes {A} (batch_size : nat) :
  (0 < batch_size)%nat →
  ∀ fuel (l : list A),
    Forall (λ b, b ≠ [] ∧ (length b ≤ batch_size)%nat)
      (batches fuel batch_size l).
Proof.
  intros Hpos. induction fuel as [|fuel IH]; intros l.
  - destruct l; constructor.
  - destruct l as [|x l]; [constructor|].
    cbn [batches]. constructor; [|apply IH].
    split.
    + destruct batch_size; [lia | done].
    + rewrite length_take. lia.
Qed.

Lemma batches_full {A} (batch_size : nat) :
  ∀ fuel (l : list A),
    Forall (λ b, length b = batch_size)
      (removelast (batches fuel batch_size l)).
Proof.
  induction fuel as [|fuel IH]; intros l.
  - destruct l; constructor.
  - destruct l as [|x l]; [constructor|].
    cbn [batches].
    destruct (batches fuel batch_size (drop batch_size (x :: l)))
      as [|b bs] eqn:Hrest; [constructor|].
    change (removelast (?a :: b :: bs)) with (a :: removelast (b :: bs)).
    constructor; [|rewrite <- Hrest; apply IH].
    rewrite length_take. apply Nat.min_l.
    destruct (decide (batch_size ≤ length (x :: l))%nat) as [|Hgt]; [done|].
    rewrite drop_ge in Hrest by lia. by destruct fuel.
Qed.

(** X13: The batches are the rows to process cut into stretches of
    [batch_size]: put end to end they are the rows again, none of them
    is empty, and all but the last hold exactly [batch_size] rows. *)
Theorem batches_cover_the_rows {A} (batch_size : nat) (l : list A) :
  (0 < batch_size)%nat →
  List.concat (batches (length l) batch_size l) = l
  ∧ Forall (λ b, b ≠ [] ∧ (length b ≤ batch_size)%nat)
      (batches (length l) batch_size l)
  ∧ Forall (λ b, length b = batch_size)
      (removelast (batches (length l) batch_size l)).
Proof.
  intros Hpos. split; [by apply batches_concat|].
  split; [by apply batches_sizes | apply batches_full].
Qed.

Lemma batches_cover_the_rows_witness :
  (0 < 2)%nat
  ∧ List.concat (batches (length [1; 2; 3; 4; 5]) 2 [1; 2; 3; 4; 5])
    = [1; 2; 3; 4; 5].
Proof.
  assert (0 < 2)%nat as H by lia.
  split; [exact H|].
  exact (proj1 (batches_cover_the_rows 2 [1; 2; 3; 4; 5] H)).
Defined.

Lemma filter_valid_rows_from_elem decimal rest :
  ∀ idx i r,
    (i, r) ∈ filter_valid_rows_from decimal idx rest
    ↔ (idx ≤ i)%nat ∧ rest !! (i - idx)%nat = Some r
      ∧ recent_expiration decimal r = true.
Proof.
  induction rest as [|r0 rest IH]; intros idx i r.
  { cbn. split; [by inversion 1 | by intros (_ & ? & _)]. }
  cbn [filter_valid_rows_from].
  assert ((i, r) ∈ filter_valid_rows_from decimal (S idx) rest
          ↔ (S idx ≤ i)%nat ∧ (r0 :: rest) !! (i - idx)%nat = Some r
            ∧ recent_expiration decimal r = true) as Hrest.
  { rewrite IH. split.
    - intros (Hle & Hl & Hr). split; [done|]. split; [|done].
      replace (i - idx)%nat with (S (i - S idx)) by lia. done.
    - intros (Hle & Hl & Hr). split; [done|]. split; [|done].
      replace (i - idx)%nat with (S (i - S idx)) in Hl by lia. done. }
  destruct (recent_expiration decimal r0) eqn:Hr0.
  - rewrite elem_of_cons, Hrest. split.
    + intros [[= -> ->]|(Hle & Hl & Hr)].
      * rewrite Nat.sub_diag. done.
      * split; [lia | done].
    + intros (Hle & Hl & Hr).
      destruct (decide (i = idx)) as [->|Hne].
      * left. rewrite Nat.sub_diag in Hl. cbn in Hl. congruence.
      * right. split; [lia | done].
  - rewrite Hrest. split.
    + intros (Hle & Hl & Hr). split; [lia | done].
    + intros (Hle & Hl & Hr). split; [|done].
      destruct (decide (i = idx)) as [->|Hne]; [|lia].
      rewrite Nat.sub_diag in Hl. cbn in Hl. congruence.
Qed.

Lemma filter_valid_rows_from_sorted decimal rest :
  ∀ idx,
    StronglySorted lt (List.map fst (filter_valid_rows_from decimal idx rest)).
Proof.
  induction rest as [|r0 rest IH]; intros idx; [constructor|].
  cbn [filter_valid_rows_from].
  destruct (recent_expiration decimal r0); [|apply IH].
  cbn [List.map fst]. constructor; [apply IH|].
  apply Forall_forall. intros i Hi.
  apply list_elem_of_In, in_map_iff in Hi as ([i' r] & <- & Hin).
  apply list_elem_of_In, filter_valid_rows_from_elem in Hin as (Hle & _).
  cbn. lia.
Qed.

(** X14: [filter_valid_rows] keeps each row whose expiration is recent, paired
    with its index in the input, and nothing else; the indices go up. *)
Theorem filter_valid_rows_keeps_input_indices
    (decimal : N → option N) (rows : list row) :
  (∀ i r,
     (i, r) ∈ filter_valid_rows decimal rows
     ↔ rows !! i = Some r ∧ recent_expiration decimal r = true)
  ∧ StronglySorted lt (List.map fst (filter_valid_rows decimal rows)).
Proof.
  split; [|apply filter_valid_rows_from_sorted].
  intros i r. unfold filter_valid_rows.
  rewrite filter_valid_rows_from_elem, Nat.sub_0_r.
  split; [by intros (_ & ? & ?) | intros [? ?]; split; [lia | done]].
Qed.

Section Concurrent.

Variable str_lower : ustring → ustring.
Variable decimal : N → option N.
Variable stem : ustring → ustring.
Variable clock : nat → ustring.
Variable http : nat → nat → reply.
Variable completion : list (nat * row) → list (nat * row).













End Concurrent.



End BatchFacts.

(** ** main-test.py: the test mode *)

Module TestFacts.
Import Py Checkpoint Eff Licenses RunSpec SequentialSpec TestSpec Examples.
Import MainTest.

Section TestMode.

Variable str_lower : ustring → ustring.
Variable decimal : N → option N.
Variable stem : ustring → ustring.
Variable clock : nat → ustring.
Variable http : nat → nat → reply.

Lemma window_end_numeric start_idx K max_entries total_rows w :
  as_int start_idx = Some K →
  window_end start_idx max_entries (Z.of_nat total_rows) w
  = (Ok (end_of_window K max_entries total_rows), w).
Proof.
  intros HK. unfold window_end, end_of_window. rewrite HK.
  destruct (truthy max_entries); [|done]. cbn [andb].
  by destruct (K + default 0 max_entries <? Z.of_nat total_rows).
Qed.

Lemma test_rows_loop_skips K file_path start_idx end_idx fail_at_index idx row
    rest tf tp w :
  as_int start_idx = Some K →
  Z.of_nat idx < K ∨ (Z.of_nat idx < end_idx ∧ eligible decimal K idx row = false) →
  rows_loop str_lower decimal stem clock http file_path start_idx end_idx
    fail_at_index idx (row :: rest) tf tp w
  = rows_loop str_lower decimal stem clock http file_path start_idx end_idx
      fail_at_index (S idx) rest tf tp w.
Proof.
  intros HK Hskip. cbn [rows_loop]. rewrite HK.
  destruct (Z.ltb_spec (Z.of_nat idx) K) as [|Hge]; [done|].
  destruct Hskip as [|[Hlt Hel]]; [lia|].
  rewrite (proj2 (Z.leb_gt _ _)) by done.
  unfold eligible in Hel. rewrite (proj2 (Z.ltb_ge _ _)) in Hel by done.
  cbn [negb andb] in Hel.
  destruct (recent_expiration decimal row); [|done].
  destruct (usable_names _ _); [discriminate Hel | done].
Qed.

Lemma test_rows_loop_breaks K file_path start_idx end_idx fail_at_index idx row
    rest tf tp w :
  as_int start_idx = Some K →
  K ≤ Z.of_nat idx → end_idx ≤ Z.of_nat idx →
  rows_loop str_lower decimal stem clock http file_path start_idx end_idx
    fail_at_index idx (row :: rest) tf tp w
  = (Ok (Some (tf, tp)), w).
Proof.
  intros HK Hge Hend. cbn [rows_loop]. rewrite HK.
  rewrite (proj2 (Z.ltb_ge _ _)) by done.
  by rewrite (proj2 (Z.leb_le _ _)).
Qed.

(** What the loop body does with an eligible row of the window: the
    fetch raises (or the failure is forced) and the run saves the error
    and returns, or the row is counted, written if it is found, and the
    loop goes on. *)
Lemma test_rows_loop_step K file_path start_idx end_idx fail_at_index idx row
    rest tf tp w :
  as_int start_idx = Some K →
  eligible decimal K idx row = true →
  Z.of_nat idx < end_idx →
  ∃ evs new,
    Forall (λ i, i = idx) (requested evs)
    ∧ (force_fail fail_at_index idx = true → evs = [])
    ∧ (new = [] ∨ new = [row])
    ∧ ((∃ msg w1,
          rows_loop str_lower decimal stem clock http file_path start_idx end_idx
            fail_at_index idx (row :: rest) tf tp w
          = (Ok None, w1)
          ∧ new = []
          ∧ Main.written w1 = Main.written w
          ∧ Main.log w1
            = Main.log w
              ++ evs ++ [Saved (Z.of_nat idx)
                           (counters tf tp ++ [(u "error", JStr msg)])])
       ∨ (∃ w2,
            rows_loop str_lower decimal stem clock http file_path start_idx
              end_idx fail_at_index idx (row :: rest) tf tp w
            = rows_loop str_lower decimal stem clock http file_path start_idx
                end_idx fail_at_index (S idx) rest
                (tf + Z.of_nat (length new)) (tp + 1) w2
            ∧ Main.written w2 = Main.written w ++ new
            ∧ Main.log w2 = Main.log w ++ evs)).
Proof.
  intros HK Hel Hend. apply SequentialFacts.eligible_true in Hel as (Hge & Hdate & Hnames).
  cbn [rows_loop]. rewrite HK, Hdate, Hnames.
  rewrite (proj2 (Z.ltb_ge _ _)) by done.
  rewrite (proj2 (Z.leb_gt _ _)) by done. cbn [negb].
  rewrite MainFacts.bind_eq. unfold try_except.
  rewrite MainFacts.bind_eq. unfold search_legacy_obituary.
  destruct (force_fail fail_at_index idx).
  { exists [], []. split; [constructor|]. split; [done|]. split; [by left|]. left.
    eexists _, _. split; [reflexivity|]. split; [done|]. split; [done|].
    cbn [snd Main.save modify Main.log Main.written raise]. done. }
  destruct (MainFacts.attempts_effect str_lower http idx
              (strip (get row "First Name")) (strip (get row "Last Name"))
              3 3 0 w) as (r & evs & -> & Hevs).
  destruct r as [[|]|msg].
  - rewrite !MainFacts.bind_eq. cbn [Main.writerow modify mret M_ret ret].
    rewrite !MainFacts.bind_eq.
    destruct ((tp + 1) `mod` 3 =? 0).
    + eexists (evs ++ [Saved _ _; Sleep Jitter]), [row].
      split; [rewrite MainFacts.requested_app; cbn [requested];
              by rewrite app_nil_r|].
      split; [done|]. split; [by right|]. right.
      change (Z.of_nat (length [row])) with 1.
      eexists. split; [reflexivity|].
      cbn [Main.save Main.emit modify Main.written Main.log logged snd].
      split; [done|]. by rewrite <- !app_assoc.
    + eexists (evs ++ [Sleep Jitter]), [row].
      split; [rewrite MainFacts.requested_app; cbn [requested];
              by rewrite app_nil_r|].
      split; [done|]. split; [by right|]. right.
      change (Z.of_nat (length [row])) with 1.
      eexists. split; [reflexivity|].
      cbn [Main.emit modify Main.written Main.log logged snd].
      split; [done|]. by rewrite <- !app_assoc.
  - rewrite !MainFacts.bind_eq. cbn [mret M_ret ret].
    rewrite !MainFacts.bind_eq.
    destruct ((tp + 1) `mod` 3 =? 0).
    + eexists (evs ++ [Saved _ _; Sleep Jitter]), [].
      split; [rewrite MainFacts.requested_app; cbn [requested];
              by rewrite app_nil_r|].
      split; [done|]. split; [by left|]. right.
      change (Z.of_nat (length (@nil Licenses.row))) with 0. rewrite Z.add_0_r.
      eexists. split; [reflexivity|].
      cbn [Main.save Main.emit modify Main.written Main.log logged snd].
      split; [by rewrite app_nil_r|]. by rewrite <- !app_assoc.
    + eexists (evs ++ [Sleep Jitter]), [].
      split; [rewrite MainFacts.requested_app; cbn [requested];
              by rewrite app_nil_r|].
      split; [done|]. split; [by left|]. right.
      change (Z.of_nat (length (@nil Licenses.row))) with 0. rewrite Z.add_0_r.
      eexists. split; [reflexivity|].
      cbn [Main.emit modify Main.written Main.log logged snd].
      split; [by rewrite app_nil_r|]. by rewrite <- !app_assoc.
  - exists evs, []. split; [done|]. split; [done|]. split; [by left|]. left.
    eexists _, _. split; [reflexivity|]. split; [done|]. split; [done|].
    cbn [snd Main.save modify Main.log Main.written logged].
    by rewrite <- app_assoc.
Qed.

Lemma accounted_shift K end_idx fail_at_index row rest idx tf tp w pre new0
    tf1 tp1 w1 out :
  Main.log w1 = Main.log w ++ pre →
  Main.written w1 = Main.written w ++ new0 →
  Forall (in_window decimal K end_idx fail_at_index (row :: rest) idx)
    (requested pre) →
  new0 = [] ∨ new0 = [row] →
  tf1 = tf + Z.of_nat (length new0) →
  tf1 - tf ≤ tp1 - tp →
  accounted decimal K end_idx fail_at_index rest (S idx) tf1 tp1 w1 out →
  accounted decimal K end_idx fail_at_index (row :: rest) idx tf tp w out.
Proof.
  intros Hlog Hwritten Hpre Hnew0 Htf Hle (evs & new & Hevs & Hnew & Hall & Hrows & Hres).
  exists (pre ++ evs), (new0 ++ new).
  split; [by rewrite Hevs, Hlog, <- app_assoc|].
  split; [by rewrite Hnew, Hwritten, <- app_assoc|].
  split.
  { rewrite MainFacts.requested_app. apply Forall_app. split; [done|].
    eapply Forall_impl; [exact Hall|].
    intros i (j & r & -> & Hj & Hr). exists (S j), r.
    split; [lia | done]. }
  split.
  { apply Forall_app. split.
    - destruct Hnew0 as [->| ->]; [constructor|]. repeat constructor.
    - eapply Forall_impl; [exact Hrows|]. intros r Hr. by right. }
  rewrite length_app.
  destruct out.1 as [[[tf' tp']|]|msg]; [| |done].
  - lia.
  - destruct Hres as (pre' & i & tf' & tp' & msg & Hlast & Htf' & Hle').
    exists pre', i, tf', tp', msg. split; [done|]. lia.
Qed.

(** The loop of a test run, from a numeric checkpoint. *)
Lemma test_rows_loop_accounted K file_path start_idx end_idx fail_at_index rows :
  as_int start_idx = Some K →
  ∀ idx tf tp w,
    accounted decimal K end_idx fail_at_index rows idx tf tp w
      (rows_loop str_lower decimal stem clock http file_path start_idx end_idx
         fail_at_index idx rows tf tp w).
Proof.
  intros HK. induction rows as [|row rest IH]; intros idx tf tp w.
  { exists [], []. rewrite !app_nil_r. cbn [fst snd rows_loop mret M_ret ret length].
    split; [done|]. split; [done|]. split; [constructor|].
    split; [constructor|]. lia. }
  assert (∀ out, accounted decimal K end_idx fail_at_index rest (S idx) tf tp w out →
                 accounted decimal K end_idx fail_at_index (row :: rest) idx tf tp
                   w out) as Hskip.
  { intros out. apply (accounted_shift _ _ _ _ _ _ _ _ _ [] []).
    - by rewrite app_nil_r.
    - by rewrite app_nil_r.
    - constructor.
    - by left.
    - cbn. lia.
    - lia. }
  destruct (Z.ltb_spec (Z.of_nat idx) K) as [Hlt|Hge].
  { rewrite (test_rows_loop_skips K) by (done || by left). apply Hskip, IH. }
  destruct (Z.leb_spec end_idx (Z.of_nat idx)) as [Hend|Hend].
  { rewrite (test_rows_loop_breaks K) by done.
    exists [], []. rewrite !app_nil_r. cbn [fst snd length].
    split; [done|]. split; [done|]. split; [constructor|].
    split; [constructor|]. lia. }
  destruct (eligible decimal K idx row) eqn:Hel.
  2: { rewrite (test_rows_loop_skips K) by (done || by right).
       apply Hskip, IH. }
  destruct (test_rows_loop_step K file_path start_idx end_idx fail_at_index idx
              row rest tf tp w HK Hel Hend)
    as (evs & new & Hevs & Hforced & Hnew & Hstep).
  assert (Forall (in_window decimal K end_idx fail_at_index (row :: rest) idx)
            (requested evs)) as Hwin.
  { apply Forall_forall. intros i Hi.
    rewrite Forall_forall in Hevs. rewrite (Hevs i Hi).
    exists 0%nat, row. rewrite Nat.add_0_r.
    split; [done|]. split; [done|]. split; [done|]. split; [done|].
    destruct (force_fail fail_at_index idx); [|done].
    rewrite Hforced in Hi by done. by inversion Hi. }
  destruct Hstep as [(msg & w1 & -> & -> & Hwritten & Hlog)
                    |(w2 & -> & Hwritten & Hlog)].
  - eexists (evs ++ [Saved _ _]), [].
    cbn [fst snd length]. rewrite app_nil_r.
    split; [exact Hlog|]. split; [done|].
    split; [rewrite MainFacts.requested_app; cbn [requested];
            by rewrite app_nil_r|].
    split; [constructor|].
    eexists (Main.log w ++ evs), _, tf, tp, msg.
    split; [by rewrite Hlog, <- app_assoc|]. lia.
  - eapply (accounted_shift _ _ _ _ _ _ _ _ _ evs new); [done..| |apply IH].
    destruct Hnew as [->| ->]; cbn; lia.
Qed.

(** A failure index of 0 is no failure index: the test run behaves as
    with none. *)
Lemma rows_loop_fail_at_zero file_path start_idx end_idx rows :
  ∀ idx tf tp w,
    rows_loop str_lower decimal stem clock http file_path start_idx end_idx
      (Some 0) idx rows tf tp w
    = rows_loop str_lower decimal stem clock http file_path start_idx end_idx
        None idx rows tf tp w.
Proof.
  induction rows as [|row rest IH]; intros idx tf tp w; [done|].
  cbn [rows_loop]. destruct (as_int start_idx) as [K|]; [|done].
  destruct (Z.of_nat idx <? K); [apply IH|].
  destruct (end_idx <=? Z.of_nat idx); [done|].
  destruct (negb (recent_expiration decimal row)); [apply IH|].
  destruct (negb (usable_names _ _)); [apply IH|].
  change (force_fail (Some 0) idx) with false.
  change (force_fail None idx) with false.
  rewrite !MainFacts.bind_eq.
  destruct (try_except _ _ w) as [[[[tf' tp']|]|msg] w1]; try done.
  rewrite !MainFacts.bind_eq. cbn [Main.emit modify]. apply IH.
Qed.

(** X17: A test run from the numeric checkpoint [K] asks the service only
    about eligible rows before the end of its window, [max_entries] rows
    from [K] on or the end of the input, and never about the row of the
    forced failure.  When it returns [True] the checkpoint it leaves is
    the end of the window, where the next run starts. *)
Theorem test_run_stays_in_window
    (file_path : ustring) (rows : list row)
    (fail_at_index max_entries : option Z) (K : Z) (w : Main.world) :
  as_int (load_progress stem (Main.files w) file_path) = Some K →
  ∃ evs,
    Main.log
      (test_mode_process_licenses str_lower decimal stem clock http file_path
         rows fail_at_index max_entries w).2
    = Main.log w ++ evs
    ∧ Forall
        (λ i,
           Z.of_nat i < end_of_window K max_entries (length rows)
           ∧ force_fail fail_at_index i = false
           ∧ ∃ r, rows !! i = Some r ∧ eligible decimal K i r = true)
        (requested evs)
    ∧ ((test_mode_process_licenses str_lower decimal stem clock http file_path
          rows fail_at_index max_entries w).1 = Ok true →
       load_progress stem
         (Main.files
            (test_mode_process_licenses str_lower decimal stem clock http
               file_path rows fail_at_index max_entries w).2)
         file_path
       = JInt (end_of_window K max_entries (length rows))).
Proof.
  intros HK. unfold test_mode_process_licenses.
  rewrite MainFacts.bind_eq. cbn [gets].
  rewrite MainFacts.bind_eq, (window_end_numeric _ K) by done.
  rewrite MainFacts.bind_eq.
  destruct (test_rows_loop_accounted K file_path _
              (end_of_window K max_entries (length rows)) fail_at_index rows HK
              0%nat 0 0 w) as (evs & new & Hlog & _ & Hall & _ & Hres).
  assert (Forall
            (λ i,
               Z.of_nat i < end_of_window K max_entries (length rows)
               ∧ force_fail fail_at_index i = false
               ∧ ∃ r, rows !! i = Some r ∧ eligible decimal K i r = true)
            (requested evs)) as Hall'.
  { eapply Forall_impl; [exact Hall|].
    intros i (j & r & -> & Hj & Hel & Hlt & Hforce).
    split; [done|]. split; [done|]. by exists r. }
  destruct (rows_loop _ _ _ _ _ _ _ _ _ _ _ _ _ w) as [[[[tf tp]|]|msg] w1];
    cbn [fst snd] in *.
  - eexists (evs ++ [Saved _ _]). rewrite MainFacts.bind_eq.
    cbn [Main.save modify Main.log Main.files fst snd].
    split; [by rewrite Hlog, <- app_assoc|]. split.
    { rewrite MainFacts.requested_app. cbn [requested]. by rewrite app_nil_r. }
    intros _. by apply StoreFacts.load_after_save.
  - exists evs. split; [done|]. split; [done|]. intros [=].
  - done.
Qed.


(** X19: A failure index of 0 is taken for none: the run with
    [fail_at_index=0] is the run with [fail_at_index=None]. *)
Theorem fail_at_index_zero_is_ignored
    (file_path : ustring) (rows : list row) (max_entries : option Z)
    (w : Main.world) :
  test_mode_process_licenses str_lower decimal stem clock http file_path rows
    (Some 0) max_entries w
  = test_mode_process_licenses str_lower decimal stem clock http file_path rows
      None max_entries w.
Proof.
  unfold test_mode_process_licenses. rewrite !MainFacts.bind_eq. cbn [gets].
  rewrite !MainFacts.bind_eq.
  destruct (window_end _ _ _ w) as [[end_idx|msg] w1]; [|done].
  rewrite !MainFacts.bind_eq. by rewrite rows_loop_fail_at_zero.
Qed.

End TestMode.

Lemma test_run_stays_in_window_witness :
  as_int (load_progress stem_id (Main.files resumed_world) (u "x.csv")) = Some 1
  ∧ ∃ evs,
      Main.log
        (test_mode_process_licenses lower_ascii ascii_decimal stem_id clock0
           http_found (u "x.csv") rows2 (Some 5) (Some 10) resumed_world).2
      = Main.log resumed_world ++ evs
      ∧ Forall
          (λ i,
             Z.of_nat i < end_of_window 1 (Some 10) (length rows2)
             ∧ force_fail (Some 5) i = false
             ∧ ∃ r, rows2 !! i = Some r ∧ eligible ascii_decimal 1 i r = true)
          (requested evs).
Proof.
  assert (as_int (load_progress stem_id (Main.files resumed_world) (u "x.csv"))
          = Some 1) as H by (vm_compute; reflexivity).
  split; [exact H|].
  destruct (test_run_stays_in_window lower_ascii ascii_decimal stem_id clock0
              http_found (u "x.csv") rows2 (Some 5) (Some 10) 1 resumed_world H)
    as (evs & Hlog & Hall & _).
  exists evs. exact (conj Hlog Hall).
Defined.


End TestFacts.
